(** * itemRepository: a read-through, write-invalidated cache over items.json

    Shallow embedding of [backend/src/repositories/itemRepository.js].

    The module keeps two variables, [cachedData] and [lastFileMtime], and
    exposes the asynchronous functions [readData] and [writeData]; a
    callback registered with [fs.watch] invalidates the cache on external
    changes.  Every [await] of the source is a suspension point: the code
    between two suspension points runs as one uninterrupted turn of the
    event loop.  The embedding follows that structure: each function is cut
    at its [await]s into turns, a turn is a pure function on the module
    state, and a small transition system schedules turns against a model
    of the data file.

    [initFileWatcher], which runs once when the module is loaded to seed
    [lastFileMtime] and to register the callback, is not one of the calls
    of the running process; the properties below are proved for every
    module state, whatever the load left behind. *)

From Stdlib Require Import ZArith Ascii String Lia.
From stdpp Require Import base option list strings pretty.

Set Warnings "-register-all".
Open Scope Z_scope.

(** ** Platform: JSON

    What [JSON.parse] can produce, and [JSON.parse] and [JSON.stringify]
    themselves.  A number is a double, or the infinity that a literal past
    the range of the doubles is read as; a string is the list of its UTF-16
    code units; an object is the list of its members in the order in which
    JavaScript lists them. *)

Module JSON.

(** A JavaScript string is the list of its UTF-16 code units; so is the
    text of a file. *)
Abbreviation text := (list N).

(** The text of an ASCII literal. *)
Definition js (s : string) : text := map N_of_ascii (list_ascii_of_string s).

(** *** Numbers *)

(** A Number that [JSON.parse] can produce: a double [(-1)^s * m * 2^e],
    with the sign of zero, or an infinity. *)
Inductive Number : Type :=
| Finite (negative : bool) (m e : Z)
| Infinite (negative : bool).

(** The doubles: normal ones have 53 significant bits, subnormal ones and
    zero the least exponent. *)
Definition is_double (m e : Z) : bool :=
  (0 <=? m) && (m <? 2 ^ 53) && (-1074 <=? e) && (e <=? 971)
  && ((2 ^ 52 <=? m) || (e =? -1074)).

(** [floor (log2 (a / b))], for positive [a] and [b]. *)
Definition log2_ratio (a b : Z) : Z :=
  if b <=? a then Z.log2 (a / b) else - Z.log2_up ((b + a - 1) / a).

(** [a / b / 2 ^ e] as a fraction. *)
Definition scaled (a b e : Z) : Z * Z :=
  if 0 <=? e then (a, b * 2 ^ e) else (a * 2 ^ (- e), b).

(** The integer nearest to [n / d], the even one of two. *)
Definition round_half_even (n d : Z) : Z :=
  let q := n / d in
  let r := n mod d in
  if 2 * r <? d then q
  else if d <? 2 * r then q + 1
  else if Z.even q then q else q + 1.

(** The Number value of the real [a / b >= 0]: the double nearest to it,
    the one with the even significand of two, an infinity past the range. *)
Definition nearest (negative : bool) (a b : Z) : Number :=
  if a =? 0 then Finite negative 0 (-1074)
  else
    let e := Z.max (log2_ratio a b - 52) (-1074) in
    let '(n, d) := scaled a b e in
    let m := round_half_even n d in
    let '(m, e) := if m =? 2 ^ 53 then (2 ^ 52, e + 1) else (m, e) in
    if 971 <? e then Infinite negative else Finite negative m e.

(** The Number value of [D * 10 ^ E]. *)
Definition nearest_decimal (negative : bool) (D E : Z) : Number :=
  if 0 <=? E then nearest negative (D * 10 ^ E) 1
  else nearest negative D (10 ^ (- E)).

(** The Number value of an integer. *)
Definition int (n : Z) : Number := nearest (n <? 0) (Z.abs n) 1.

(** [x === y] on Numbers: the two zeros are equal. *)
Definition same_number (x y : Number) : bool :=
  match x, y with
  | Finite s m e, Finite s' m' e' =>
      ((m =? 0) && (m' =? 0))
      || (Bool.eqb s s' && (m =? m') && (e =? e'))
  | Infinite s, Infinite s' => Bool.eqb s s'
  | _, _ => false
  end.

Definition number_eqb (x y : Number) : bool :=
  match x, y with
  | Finite s m e, Finite s' m' e' => Bool.eqb s s' && (m =? m') && (e =? e')
  | Infinite s, Infinite s' => Bool.eqb s s'
  | _, _ => false
  end.

(** *** Decimal digits *)

Definition digit_char (d : Z) : N := Z.to_N (48 + d).

Definition digit_of (u : N) : option Z :=
  if ((48 <=? u) && (u <=? 57))%N then Some (Z.of_N u - 48) else None.

(** The number a list of digits denotes. *)
Definition value (ds : list Z) : Z := foldl (fun acc d => 10 * acc + d) 0 ds.

Fixpoint digits_onto (fuel : nat) (n : Z) (acc : list Z) : list Z :=
  match fuel with
  | O => n :: acc
  | S fuel =>
      if n <? 10 then n :: acc
      else digits_onto fuel (n / 10) (n mod 10 :: acc)
  end.

(** The decimal digits of [n >= 0]. *)
Definition digits_of (n : Z) : list Z :=
  digits_onto (Z.to_nat (Z.log2 n)) n [].

(** Digits that make a decimal integer: some, each below ten, the first
    not zero unless it is the only one. *)
Definition is_digit (d : Z) : bool := (0 <=? d) && (d <? 10).

Definition integer_digits (ds : list Z) : bool :=
  forallb is_digit ds
  && match ds with
     | [] => false
     | [_] => true
     | d :: _ => negb (d =? 0)
     end.

(** Digits that start with a digit other than zero. *)
Definition significand (ds : list Z) : bool :=
  forallb is_digit ds
  && match ds with
     | [] => false
     | d :: _ => negb (d =? 0)
     end.

(** *** Number::toString *)

(** The real [m * 2 ^ e] as a fraction. *)
Definition exact (m e : Z) : Z * Z :=
  if 0 <=? e then (m * 2 ^ e, 1) else (m, 2 ^ (- e)).

Fixpoint leading_zeros (fuel : nat) (a b j : Z) : Z :=
  match fuel with
  | O => j
  | S fuel =>
      if b <=? a * 10 then j else leading_zeros fuel (a * 10) b (j + 1)
  end.

(** The [n] with [10 ^ (n - 1) <= a / b < 10 ^ n]. *)
Definition decimal_exponent (a b : Z) : Z :=
  if b <=? a then Z.of_nat (length (digits_of (a / b)))
  else - leading_zeros (Z.to_nat (Z.log2 b)) a b 0.

(** The two integers next to [a / b * 10 ^ (k - n)], the nearer first,
    each with the power of ten it is to be scaled by. *)
Definition candidates (a b n k : Z) : list (Z * Z) :=
  let '(num, den) :=
    if 0 <=? k - n then (a * 10 ^ (k - n), b) else (a, b * 10 ^ (n - k)) in
  let lo := num / den in
  let r := num mod den in
  let below := (lo, n - k) in
  let above := (lo + 1, n - k) in
  if 2 * r <? den then [below; above]
  else if den <? 2 * r then [above; below]
  else if Z.even lo then [below; above] else [above; below].

Fixpoint strip_zeros (rev_ds : list Z) : list Z :=
  match rev_ds with
  | 0 :: (_ :: _) as rest => strip_zeros rest
  | _ => rev_ds
  end.

(** The digits of [s * 10 ^ p] without the trailing zeros, and the
    position [n] of the decimal point. *)
Definition normal (c : Z * Z) : list Z * Z :=
  let ds := digits_of (fst c) in
  (rev (strip_zeros (rev ds)), snd c + Z.of_nat (length ds)).

(** The digits [ds], with the point at [n], denote a real whose Number
    value is [m * 2 ^ e]. *)
Definition denotes (m e : Z) (c : list Z * Z) : bool :=
  significand (fst c)
  && number_eqb
       (nearest_decimal false (value (fst c))
          (snd c - Z.of_nat (length (fst c))))
       (Finite false m e).

(** Every digit of [m * 2 ^ e]. *)
Definition every_digit (m e : Z) : list Z * Z :=
  if 0 <=? e then
    let ds := digits_of (m * 2 ^ e) in (ds, Z.of_nat (length ds))
  else
    let ds := digits_of (m * 5 ^ (- e)) in (ds, Z.of_nat (length ds) + e).

(** Step 5 of Number::toString: the fewest digits [s], with the point at
    [n], whose Number value is [m * 2 ^ e]; of two such [s], the nearer.
    Seventeen digits tell any two doubles apart. *)
Definition shortest (m e : Z) : list Z * Z :=
  let '(a, b) := exact m e in
  let n := decimal_exponent a b in
  let tries :=
    flat_map (fun k => map normal (candidates a b n (Z.of_nat k)))
      (seq 1 17) in
  match List.find (denotes m e) tries with
  | Some c => c
  | None => every_digit m e
  end.

Definition zero : N := 48%N.
Definition dot : N := 46%N.

(** Steps 6 to 11: the digits laid out, with an exponent outside
    [1e-6 .. 1e21]. *)
Definition layout (ds : list Z) (n : Z) : text :=
  let k := Z.of_nat (length ds) in
  let cs := map digit_char ds in
  if (k <=? n) && (n <=? 21) then cs ++ repeat zero (Z.to_nat (n - k))
  else if (0 <? n) && (n <=? 21) then
    take (Z.to_nat n) cs ++ dot :: drop (Z.to_nat n) cs
  else if (-6 <? n) && (n <=? 0) then
    js "0." ++ repeat zero (Z.to_nat (- n)) ++ cs
  else
    let exponent :=
      js (if n - 1 <? 0 then "e-" else "e+")
        ++ map digit_char (digits_of (Z.abs (n - 1))) in
    match cs with
    | [] => []
    | [c] => c :: exponent
    | c :: cs' => c :: dot :: cs' ++ exponent
    end.

(** [JSON.stringify] of a Number: Number::toString of a finite one,
    [null] for the others. *)
Definition number_text (x : Number) : text :=
  match x with
  | Infinite _ => js "null"
  | Finite negative m e =>
      if m =? 0 then js "0"
      else
        (if negative then js "-" else [])
          ++ let '(ds, n) := shortest m e in layout ds n
  end.


(** *** Values *)

Inductive Value : Type :=
| JNull
| JBool (b : bool)
| JNum (x : Number)
| JStr (s : text)
| JArr (items : list Value)
| JObj (members : list (text * Value)).

(** Induction on values, through the lists of array items and of object
    members. *)
Section ValueInduction.
Variable P : Value -> Prop.
Hypothesis Hnull : P JNull.
Hypothesis Hbool : forall b, P (JBool b).
Hypothesis Hnum : forall x, P (JNum x).
Hypothesis Hstr : forall s, P (JStr s).
Hypothesis Harr : forall items, Forall P items -> P (JArr items).
Hypothesis Hobj : forall ms, Forall (fun m => P (snd m)) ms -> P (JObj ms).

Fixpoint Value_nested_ind (v : Value) : P v :=
  match v with
  | JNull => Hnull
  | JBool b => Hbool b
  | JNum x => Hnum x
  | JStr s => Hstr s
  | JArr items =>
      Harr items
        ((fix go (l : list Value) : Forall P l :=
            match l with
            | [] => List.Forall_nil P
            | x :: l' => List.Forall_cons _ x l' (Value_nested_ind x) (go l')
            end) items)
  | JObj ms =>
      Hobj ms
        ((fix go (l : list (text * Value)) : Forall (fun m => P (snd m)) l :=
            match l with
            | [] => List.Forall_nil _
            | x :: l' => List.Forall_cons _ x l' (Value_nested_ind (snd x)) (go l')
            end) ms)
  end.
End ValueInduction.

(** ECMAScript [ToBoolean], as applied by [if (cachedData)]: [null],
    [false], the zeros and the empty string are falsy, every array and
    every object is truthy. *)
Definition truthy (v : Value) : bool :=
  match v with
  | JNull => false
  | JBool b => b
  | JNum (Finite _ m _) => negb (m =? 0)
  | JNum (Infinite _) => true
  | JStr s => match s with [] => false | _ :: _ => true end
  | JArr _ => true
  | JObj _ => true
  end.

(** *** JSON.stringify *)

Definition nl : N := 10%N.
Definition dquote : N := 34%N.
Definition backslash : N := 92%N.

Definition hex_digit (n : N) : N := (if n <? 10 then 48 + n else 87 + n)%N.

(** The halves of a surrogate pair. *)
Definition is_high (u : N) : bool := ((55296 <=? u) && (u <=? 56319))%N.
Definition is_low (u : N) : bool := ((56320 <=? u) && (u <=? 57343))%N.

Definition escape (u : N) : text :=
  js "\u"
    ++ [hex_digit (u / 4096 mod 16); hex_digit (u / 256 mod 16);
        hex_digit (u / 16 mod 16); hex_digit (u mod 16)]%N.

(** [QuoteJSONString], one code unit that is not part of a pair. *)
Definition quote_unit (u : N) : text :=
  if (u =? 34)%N then [backslash; dquote]
  else if (u =? 92)%N then [backslash; backslash]
  else if (u =? 8)%N then js "\b"
  else if (u =? 9)%N then js "\t"
  else if (u =? 10)%N then js "\n"
  else if (u =? 12)%N then js "\f"
  else if (u =? 13)%N then js "\r"
  else if (u <? 32)%N || is_high u || is_low u then escape u
  else [u].

(** [QuoteJSONString], code point by code point: a surrogate pair is
    written as it is, a lone surrogate is escaped. *)
Fixpoint quote_units (s : text) : text :=
  match s with
  | [] => []
  | u :: s' =>
      match s' with
      | v :: s'' =>
          if is_high u && is_low v then u :: v :: quote_units s''
          else quote_unit u ++ quote_units s'
      | [] => quote_unit u
      end
  end.

Definition quote (s : text) : text := dquote :: quote_units s ++ [dquote].

Fixpoint join (sep : text) (parts : list text) : text :=
  match parts with
  | [] => []
  | [p] => p
  | p :: ps => p ++ sep ++ join sep ps
  end.

(** [SerializeJSONProperty] with the gap of [JSON.stringify(data, null, 2)];
    [indent] is the current indentation. *)
Fixpoint serialize (indent : text) (v : Value) : text :=
  match v with
  | JNull => js "null"
  | JBool true => js "true"
  | JBool false => js "false"
  | JNum x => number_text x
  | JStr s => quote s
  | JArr [] => js "[]"
  | JArr items =>
      let inner := indent ++ js "  " in
      js "[" ++ nl :: inner
        ++ join (js "," ++ nl :: inner) (map (serialize inner) items)
        ++ nl :: indent ++ js "]"
  | JObj [] => js "{}"
  | JObj members =>
      let inner := indent ++ js "  " in
      js "{" ++ nl :: inner
        ++ join (js "," ++ nl :: inner)
             (map (fun m => quote (fst m) ++ js ": " ++ serialize inner (snd m))
                  members)
        ++ nl :: indent ++ js "}"
  end.

(** [JSON.stringify(data, null, 2)] *)
Definition stringify (data : Value) : text := serialize [] data.

(** *** JSON.parse

    A recursive-descent reader of the JSON grammar; [None] stands for the
    [SyntaxError] the platform throws. *)

Definition is_ws (u : N) : bool :=
  ((u =? 32) || (u =? 9) || (u =? 10) || (u =? 13))%N.

Fixpoint skip_ws (s : text) : text :=
  match s with
  | u :: s' => if is_ws u then skip_ws s' else s
  | [] => s
  end.

Definition hex_of (u : N) : option N :=
  if ((48 <=? u) && (u <=? 57))%N then Some (u - 48)%N
  else if ((97 <=? u) && (u <=? 102))%N then Some (u - 87)%N
  else if ((65 <=? u) && (u <=? 70))%N then Some (u - 55)%N
  else None.

(** Reads [lit] off the front of [s]. *)
Fixpoint expect (lit s : text) : option text :=
  match lit, s with
  | [], _ => Some s
  | a :: lit', b :: s' => if (a =? b)%N then expect lit' s' else None
  | _ :: _, [] => None
  end.

(** The digits at the front of [s]. *)
Fixpoint read_digits (s : text) : list Z * text :=
  match s with
  | u :: s' =>
      match digit_of u with
      | Some d => let '(ds, r) := read_digits s' in (d :: ds, r)
      | None => ([], s)
      end
  | [] => ([], s)
  end.

(** A fraction, if there is a point: the digits after it, at least one. *)
Definition parse_fraction (s : text) : option (list Z * text) :=
  match s with
  | u :: s' =>
      if (u =? dot)%N then
        match read_digits s' with
        | ([], _) => None
        | (ds, r) => Some (ds, r)
        end
      else Some ([], s)
  | [] => Some ([], s)
  end.

Definition parse_sign (s : text) : bool * text :=
  match s with
  | u :: s' =>
      if (u =? 45)%N then (true, s')
      else if (u =? 43)%N then (false, s')
      else (false, s)
  | [] => (false, s)
  end.

(** An exponent, if there is an [e] or [E]: a sign perhaps, and digits. *)
Definition parse_exponent (s : text) : option (Z * text) :=
  match s with
  | u :: s' =>
      if ((u =? 101) || (u =? 69))%N then
        let '(negative, s'') := parse_sign s' in
        match read_digits s'' with
        | ([], _) => None
        | (ds, r) => Some (if negative then - value ds else value ds, r)
        end
      else Some (0, s)
  | [] => Some (0, s)
  end.

(** A number literal after its sign: an integer without a leading zero,
    a fraction, an exponent; its value is the Number value of the decimal
    it denotes. *)
Definition parse_unsigned (negative : bool) (s : text)
  : option (Number * text) :=
  let '(ds, r) := read_digits s in
  if integer_digits ds then
    '(fs, r1) ← parse_fraction r;
    '(x, r2) ← parse_exponent r1;
    Some (nearest_decimal negative (value (ds ++ fs))
            (x - Z.of_nat (length fs)), r2)
  else None.

Definition parse_number (s : text) : option (Number * text) :=
  match s with
  | u :: s' =>
      if (u =? 45)%N then parse_unsigned true s' else parse_unsigned false s
  | [] => None
  end.

Definition unescape (u : N) : option N :=
  if (u =? dquote)%N then Some dquote
  else if (u =? backslash)%N then Some backslash
  else if (u =? 47)%N then Some 47%N
  else if (u =? 98)%N then Some 8%N
  else if (u =? 102)%N then Some 12%N
  else if (u =? 110)%N then Some 10%N
  else if (u =? 114)%N then Some 13%N
  else if (u =? 116)%N then Some 9%N
  else None.

Definition unicode_escape (h1 h2 h3 h4 : N) : option N :=
  match hex_of h1, hex_of h2, hex_of h3, hex_of h4 with
  | Some a, Some b, Some c, Some d => Some (((a * 16 + b) * 16 + c) * 16 + d)%N
  | _, _, _, _ => None
  end.

(** The code units of a string literal, after its opening quote. *)
Fixpoint parse_chars (s : text) : option (text * text) :=
  match s with
  | [] => None
  | a :: s' =>
      if (a =? dquote)%N then Some ([], s')
      else if (a =? backslash)%N then
        match s' with
        | e :: s'' =>
            if (e =? 117)%N then
              match s'' with
              | h1 :: h2 :: h3 :: h4 :: r =>
                  match unicode_escape h1 h2 h3 h4, parse_chars r with
                  | Some c, Some (str, rest) => Some (c :: str, rest)
                  | _, _ => None
                  end
              | _ => None
              end
            else
              match unescape e, parse_chars s'' with
              | Some c, Some (str, rest) => Some (c :: str, rest)
              | _, _ => None
              end
        | [] => None
        end
      else if (a <? 32)%N then None
      else
        match parse_chars s' with
        | Some (str, rest) => Some (a :: str, rest)
        | None => None
        end
  end.

(** *** Property keys

    An object lists its array-index keys first, in ascending order, and
    then its other keys in the order in which they were added. *)

(** The index that a key denotes: a decimal integer below [2 ^ 32 - 1],
    written without a leading zero. *)
Definition array_index (k : text) : option Z :=
  match read_digits k with
  | (ds, []) =>
      if integer_digits ds && (value ds <? 2 ^ 32 - 1) then Some (value ds)
      else None
  | _ => None
  end.

Fixpoint member (key : text) (ms : list (text * Value)) : option Value :=
  match ms with
  | [] => None
  | (k, v) :: ms' => if decide (key = k) then Some v else member key ms'
  end.

Fixpoint replace_member (k : text) (v : Value) (ms : list (text * Value))
  : list (text * Value) :=
  match ms with
  | [] => []
  | (k', v') :: ms' =>
      if decide (k = k') then (k, v) :: ms'
      else (k', v') :: replace_member k v ms'
  end.

Fixpoint insert_index (i : Z) (k : text) (v : Value)
    (ms : list (text * Value)) : list (text * Value) :=
  match ms with
  | [] => [(k, v)]
  | (k', v') :: ms' =>
      match array_index k' with
      | Some i' =>
          if i' <? i then (k', v') :: insert_index i k v ms'
          else (k, v) :: ms
      | None => (k, v) :: ms
      end
  end.

(** Defining a property: one that the object already has keeps its place
    and takes the new value; a new array index goes to its place among
    the indices, any other new key to the end. *)
Definition set_member (k : text) (v : Value) (ms : list (text * Value))
  : list (text * Value) :=
  match member k ms with
  | Some _ => replace_member k v ms
  | None =>
      match array_index k with
      | Some i => insert_index i k v ms
      | None => ms ++ [(k, v)]
      end
  end.

Fixpoint parse_value (fuel : nat) (s : text) : option (Value * text) :=
  match fuel with
  | O => None
  | S fuel =>
      match skip_ws s with
      | [] => None
      | a :: r =>
          if (a =? 110)%N then r' ← expect (js "ull") r; Some (JNull, r')
          else if (a =? 116)%N then
            r' ← expect (js "rue") r; Some (JBool true, r')
          else if (a =? 102)%N then
            r' ← expect (js "alse") r; Some (JBool false, r')
          else if (a =? dquote)%N then
            '(str, r') ← parse_chars r; Some (JStr str, r')
          else if (a =? 91)%N then
            match skip_ws r with
            | b :: r' =>
                if (b =? 93)%N then Some (JArr [], r')
                else '(items, r'') ← parse_elements fuel r; Some (JArr items, r'')
            | [] => None
            end
          else if (a =? 123)%N then
            match skip_ws r with
            | b :: r' =>
                if (b =? 125)%N then Some (JObj [], r')
                else '(ms, r'') ← parse_members fuel [] r; Some (JObj ms, r'')
            | [] => None
            end
          else '(x, r') ← parse_number (a :: r); Some (JNum x, r')
      end
  end
with parse_elements (fuel : nat) (s : text) : option (list Value * text) :=
  match fuel with
  | O => None
  | S fuel =>
      '(v, r) ← parse_value fuel s;
      match skip_ws r with
      | b :: r' =>
          if (b =? 44)%N then
            '(vs, r'') ← parse_elements fuel r'; Some (v :: vs, r'')
          else if (b =? 93)%N then Some ([v], r')
          else None
      | [] => None
      end
  end
with parse_members (fuel : nat) (acc : list (text * Value)) (s : text)
  : option (list (text * Value) * text) :=
  match fuel with
  | O => None
  | S fuel =>
      match skip_ws s with
      | q :: r =>
          if (q =? dquote)%N then
            '(k, r1) ← parse_chars r;
            match skip_ws r1 with
            | c :: r2 =>
                if (c =? 58)%N then
                  '(v, r3) ← parse_value fuel r2;
                  let acc' := set_member k v acc in
                  match skip_ws r3 with
                  | b :: r4 =>
                      if (b =? 44)%N then parse_members fuel acc' r4
                      else if (b =? 125)%N then Some (acc', r4)
                      else None
                  | [] => None
                  end
                else None
            | [] => None
            end
          else None
      | [] => None
      end
  end.

(** [JSON.parse(raw)].  The reader is given more fuel than it can use:
    it reads a character at least at every second call. *)
Definition parse (raw : text) : option Value :=
  '(v, r) ← parse_value (2 * length raw + 2) raw;
  match skip_ws r with
  | [] => Some v
  | _ :: _ => None
  end.


(** *** What serialization preserves *)

(** The keys of an object as JavaScript lists them: the array indices in
    ascending order, then the others. *)
Fixpoint ordered_from (last : Z) (named : bool) (ks : list text) : bool :=
  match ks with
  | [] => true
  | k :: ks' =>
      match array_index k with
      | Some i => negb named && (last <? i) && ordered_from i false ks'
      | None => ordered_from last true ks'
      end
  end.

Definition ordered (ks : list text) : bool := ordered_from (-1) false ks.

(** The values of JSON: the numbers are doubles, and no object carries a
    key twice or out of order, as no JavaScript object does. *)
Fixpoint json (v : Value) : bool :=
  match v with
  | JNum (Finite _ m e) => is_double m e
  | JNum (Infinite _) => false
  | JArr items => forallb json items
  | JObj ms =>
      bool_decide (NoDup (map fst ms)) && ordered (map fst ms)
      && forallb (fun m => json (snd m)) ms
  | _ => true
  end.

(** A value of JSON survives [JSON.stringify] followed by [JSON.parse] as
    it is when it holds no negative zero, which is written [0]. *)
Fixpoint serializable (v : Value) : bool :=
  match v with
  | JNum (Finite negative m e) =>
      is_double m e && negb (negative && (m =? 0))
  | JNum (Infinite _) => false
  | JArr items => forallb serializable items
  | JObj ms =>
      bool_decide (NoDup (map fst ms)) && ordered (map fst ms)
      && forallb (fun m => serializable (snd m)) ms
  | _ => true
  end.

(** The value with its negative zeros made positive. *)
Fixpoint positive_zeros (v : Value) : Value :=
  match v with
  | JNum (Finite negative m e) =>
      JNum (Finite (negative && negb (m =? 0)) m e)
  | JArr items => JArr (map positive_zeros items)
  | JObj ms => JObj (map (fun m => (fst m, positive_zeros (snd m))) ms)
  | _ => v
  end.

(** Equality of values by [===] on their numbers. *)
Fixpoint equal (v w : Value) : bool :=
  match v, w with
  | JNull, JNull => true
  | JBool b, JBool c => Bool.eqb b c
  | JNum x, JNum y => same_number x y
  | JStr s, JStr t => bool_decide (s = t)
  | JArr vs, JArr ws =>
      (fix all (vs ws : list Value) : bool :=
         match vs, ws with
         | [], [] => true
         | v :: vs', w :: ws' => equal v w && all vs' ws'
         | _, _ => false
         end) vs ws
  | JObj ms, JObj ns =>
      (fix all (ms ns : list (text * Value)) : bool :=
         match ms, ns with
         | [], [] => true
         | (k, v) :: ms', (l, w) :: ns' =>
             bool_decide (k = l) && equal v w && all ms' ns'
         | _, _ => false
         end) ms ns
  | _, _ => false
  end.

(** The recursion depth a value asks of the reader. *)
Fixpoint weight (v : Value) : nat :=
  match v with
  | JArr items => S (sum_list_with (fun i => S (weight i)) items)
  | JObj ms => S (sum_list_with (fun m => S (weight (snd m))) ms)
  | _ => 1
  end.

Definition blank (s : text) : Prop := Forall (fun a => is_ws a = true) s.

(** Text in which every surrogate is one half of a pair. *)
Inductive paired : text -> Prop :=
| paired_nil : paired []
| paired_unit (u : N) (s : text) :
    is_high u = false -> is_low u = false -> paired s -> paired (u :: s)
| paired_pair (u v : N) (s : text) :
    is_high u = true -> is_low v = true -> paired s -> paired (u :: v :: s).

(** [rest] cannot continue a number literal. *)
Definition delimited (rest : text) : Prop :=
  match rest with
  | [] => True
  | u :: _ =>
      digit_of u = None /\ u <> dot /\ u <> 101%N /\ u <> 69%N
  end.

(** The serialization of [v], at any indentation and after any blank
    prefix, is read back as [v] with positive zeros. *)
Definition reads_back (v : Value) : Prop :=
  json v = true ->
  forall (fuel : nat) (indent pre rest : text),
    blank indent -> blank pre -> (weight v <= fuel)%nat -> delimited rest ->
    parse_value fuel (pre ++ serialize indent v ++ rest)
    = Some (positive_zeros v, rest).


(** [rest] does not start with a digit. *)
Definition stops (rest : text) : Prop :=
  match rest with
  | [] => True
  | u :: _ => digit_of u = None
  end.

(** [a / b] is [m * 2 ^ e]. *)
Definition ratio (a b m e : Z) : Prop :=
  if 0 <=? e then a = m * 2 ^ e * b else a * 2 ^ (- e) = m * b.

(** A member as it is read back. *)
Definition read_member (m : text * Value) : text * Value :=
  (fst m, positive_zeros (snd m)).

End JSON.

(** ** Platform: the data file

    The store is the single file at [DATA_PATH].  [fs.readFile], [fs.stat]
    and [fs.writeFile] are modelled by what they answer in a given state of
    the file; a missing file answers [ENOENT], a write to a read-only
    location answers [EACCES].  The file holds text, the string that
    [fs.readFile(DATA_PATH, 'utf8')] answers; [fs.writeFile] stores its
    string as that encoding gives it back.  Modification times are the
    milliseconds of [Date.getTime]. *)

Module Fs.

Inductive errno : Type := ENOENT | EACCES.

Inductive result (A : Type) : Type :=
| Ok (a : A)
| Err (e : errno).
Arguments Ok {A} a.
Arguments Err {A} e.

Record File : Type := mkFile { content : JSON.text; modified : Z }.

Record Stats : Type := mkStats { mtime : Z }.

Record Store : Type := mkStore {
  file : option File;
  read_only : bool;
  clock : Z
}.

Definition readFile (st : Store) : result JSON.text :=
  match file st with
  | Some f => Ok (content f)
  | None => Err ENOENT
  end.

Definition stat (st : Store) : result Stats :=
  match file st with
  | Some f => Ok (mkStats (modified f))
  | None => Err ENOENT
  end.

(** A string on its way through ['utf8'] to the file and back: a surrogate
    pair is kept, a surrogate on its own comes back as U+FFFD. *)
Fixpoint utf8 (s : JSON.text) : JSON.text :=
  match s with
  | [] => []
  | u :: s' =>
      let lone := if JSON.is_high u || JSON.is_low u then 65533%N else u in
      match s' with
      | v :: s'' =>
          if JSON.is_high u && JSON.is_low v then u :: v :: utf8 s''
          else lone :: utf8 s'
      | [] => [lone]
      end
  end.

(** Replaces the whole content and stamps the file with the current time. *)
Definition writeFile (data : JSON.text) (st : Store)
  : result unit * Store :=
  if read_only st then (Err EACCES, st)
  else (Ok tt,
        mkStore (Some (mkFile (utf8 data) (clock st))) (read_only st) (clock st)).

End Fs.

(** ** The repository module *)

Module ItemRepository.
Import JSON Fs.

(** [let cachedData = null; let lastFileMtime = null;] *)
Record State : Type := mkState {
  cachedData : Value;
  lastFileMtime : option Z
}.

Definition initial : State := mkState JNull None.

Inductive Error : Type :=
| IOError (e : errno)
| SyntaxError.

(** The [await]s of the module, by source line. *)
Inductive frame : Type :=
| readData_readFile                  (* line 58 *)
| readData_stat                      (* line 60 *)
| writeData_writeFile (written : text) (* line 72 *)
| writeData_stat                     (* line 74 *)
| watchFile_stat.                    (* line 17 *)

(** How an asynchronous function settles: it returns a value ([None] is
    [undefined]) or throws. *)
Inductive completion : Type :=
| Return (v : option Value)
| Throw (e : Error).

(** How a turn ends: at an [await], or with the function settled. *)
Inductive status : Type :=
| Await (f : frame)
| Done (r : completion).

Definition turn : Type := State -> State * status.

(** *** readData *)

(** Lines 54-58, up to the first [await]. *)
Definition readData : turn := fun c =>
  if truthy (cachedData c) then (c, Done (Return (Some (cachedData c))))
  else (c, Await readData_readFile).

(** Lines 58-60: [raw] arrives, is decoded into [cachedData], [fs.stat] is
    awaited. *)
Definition readData_after_readFile (r : result text) : turn := fun c =>
  match r with
  | Err e => (c, Done (Throw (IOError e)))
  | Ok raw =>
      match parse raw with
      | None => (c, Done (Throw SyntaxError))
      | Some v => (mkState v (lastFileMtime c), Await readData_stat)
      end
  end.

(** Lines 60-62: [stats] arrives, [lastFileMtime] is set and the current
    [cachedData] is returned. *)
Definition readData_after_stat (r : result Stats) : turn := fun c =>
  match r with
  | Err e => (c, Done (Throw (IOError e)))
  | Ok stats =>
      let c' := mkState (cachedData c) (Some (mtime stats)) in
      (c', Done (Return (Some (cachedData c'))))
  end.

(** *** getLastModifiedTime *)

Definition getLastModifiedTime (c : State) : option Z := lastFileMtime c.

(** *** writeData *)

(** Line 72, up to the [await]: the data is serialized and the write is
    issued. *)
Definition writeData (data : Value) : turn := fun c =>
  (c, Await (writeData_writeFile (stringify data))).

(** Lines 72-74. *)
Definition writeData_after_writeFile (r : result unit) : turn := fun c =>
  match r with
  | Err e => (c, Done (Throw (IOError e)))
  | Ok _ => (mkState JNull (lastFileMtime c), Await writeData_stat)
  end.

(** Lines 74-76. *)
Definition writeData_after_stat (r : result Stats) : turn := fun c =>
  match r with
  | Err e => (c, Done (Throw (IOError e)))
  | Ok stats => (mkState (cachedData c) (Some (mtime stats)), Done (Return None))
  end.

(** *** The callback given to fs.watch *)

(** Lines 14-17. *)
Definition watchFile_callback (eventType : string) : turn := fun c =>
  if String.eqb eventType "change" then (c, Await watchFile_stat)
  else (c, Done (Return None)).

(** [!lastFileMtime || stats.mtime.getTime() !== lastFileMtime.getTime()] *)
Definition mtime_changed (stats : Stats) (last : option Z) : bool :=
  match last with
  | None => true
  | Some t => negb (mtime stats =? t)
  end.

(** Lines 17-27: the [try] block after the [await], and its [catch]. *)
Definition watchFile_after_stat (r : result Stats) : turn := fun c =>
  match r with
  | Ok stats =>
      if mtime_changed stats (lastFileMtime c)
      then (mkState JNull (Some (mtime stats)), Done (Return None))
      else (c, Done (Return None))
  | Err _ => (mkState JNull (lastFileMtime c), Done (Return None))
  end.

(** ** The event loop

    The module state is shared by every call in flight.  A call runs up to
    its first [await] when it is made; a pending call is resumed when its
    file operation completes, and then runs up to its next [await] or to
    its end.  Other processes may change the file between any two turns. *)

Inductive op : Type := ReadData | WriteData | WatchCallback.

Inductive request : Type := ReadFile | Stat | WriteFile (written : text).

Definition op_of (f : frame) : op :=
  match f with
  | readData_readFile | readData_stat => ReadData
  | writeData_writeFile _ | writeData_stat => WriteData
  | watchFile_stat => WatchCallback
  end.

Definition request_of (f : frame) : request :=
  match f with
  | readData_readFile => ReadFile
  | writeData_writeFile written => WriteFile written
  | readData_stat | writeData_stat | watchFile_stat => Stat
  end.

(** What an observer of the process sees: each access to the file, and
    each settled call. *)
Inductive obs : Type :=
| Access (req : request)
| Settled (o : op) (r : completion).

Record System : Type := mkSystem {
  store : Store;
  cache : State;
  pending : list frame;
  trace : list obs
}.

Inductive event : Type :=
| Call_readData
| Call_writeData (data : Value)
| Notify (eventType : string)
| Resume (i : nat)
| External (st : Store).

(** The file operation a frame waits for is carried out and the frame's
    continuation runs on its answer. *)
Definition resume (f : frame) (st : Store) : Store * turn :=
  match f with
  | readData_readFile => (st, readData_after_readFile (readFile st))
  | readData_stat => (st, readData_after_stat (stat st))
  | writeData_writeFile written =>
      let '(r, st') := writeFile written st in
      (st', writeData_after_writeFile r)
  | writeData_stat => (st, writeData_after_stat (stat st))
  | watchFile_stat => (st, watchFile_after_stat (stat st))
  end.

Definition start (o : op) (t : turn) (S : System) : System :=
  match t (cache S) with
  | (c, Await f) => mkSystem (store S) c (pending S ++ [f]) (trace S)
  | (c, Done r) => mkSystem (store S) c (pending S) (trace S ++ [Settled o r])
  end.

Definition step (S : System) (e : event) : System :=
  match e with
  | Call_readData => start ReadData readData S
  | Call_writeData data => start WriteData (writeData data) S
  | Notify eventType => start WatchCallback (watchFile_callback eventType) S
  | Resume i =>
      match pending S !! i with
      | None => S
      | Some f =>
          let '(st, t) := resume f (store S) in
          match t (cache S) with
          | (c, Await f') =>
              mkSystem st c (<[i := f']> (pending S))
                       (trace S ++ [Access (request_of f)])
          | (c, Done r) =>
              mkSystem st c (delete i (pending S))
                       (trace S ++ [Access (request_of f); Settled (op_of f) r])
          end
      end
  | External st => mkSystem st (cache S) (pending S) (trace S)
  end.

Definition run (es : list event) (S : System) : System := foldl step S es.

(** What a schedule adds to the trace. *)
Definition emitted (es : list event) (S : System) : list obs :=
  drop (length (trace S)) (trace (run es S)).

(** A call made on an idle process and left to run to its end, with
    nothing else happening meanwhile. *)
Definition read : list event := [Call_readData; Resume 0; Resume 0].
Definition write (data : Value) : list event :=
  [Call_writeData data; Resume 0; Resume 0].
Definition notify (eventType : string) : list event :=
  [Notify eventType; Resume 0].

Definition present (c : State) : bool := truthy (cachedData c).

End ItemRepository.

(** ** Scenarios

    Concrete states of the file and of the process, used to run the
    module. *)

Module Scenarios.
Import JSON Fs ItemRepository.

Definition laptop : Value :=
  JObj [(js "id", JNum (int 1)); (js "name", JStr (js "Laptop Pro"));
        (js "price", JNum (int 2499))].

Definition items : Value := JArr [laptop].

(** Items with a price that is no integer, a large count, a small weight,
    a name outside ASCII, and an index among the keys. *)
Definition keyboard : Value :=
  JObj [(js "7", JBool true); (js "id", JNum (int 2));
        (js "name", JStr [67; 108; 97; 118; 105; 101; 114; 32; 233; 55357; 56832]%N);
        (js "price", JNum (nearest_decimal false 4999 (-2)));
        (js "sold", JNum (nearest_decimal false 15 20));
        (js "weight", JNum (nearest_decimal false 12 (-8)));
        (js "balance", JNum (nearest_decimal true 5 (-1)))].

Definition priced : Value := JArr [laptop; keyboard].

(** The same with a negative zero. *)
Definition zeroed : Value :=
  JArr [laptop; JObj [(js "id", JNum (int 3)); (js "price", JNum (Finite true 0 (-1074)))]].

(** The file holds [[1]], last modified at 5; nothing is cached yet. *)
Definition on_disk : Store := mkStore (Some (mkFile (js "[1]") 5)) false 7.
Definition seeded : System := mkSystem on_disk initial [] [].

(** The same process once a first read has primed the cache. *)
Definition primed : System := run read seeded.

(** The file has been removed; later it is back with other content. *)
Definition removed : Store := mkStore None false 8.
Definition repaired : Store := mkStore (Some (mkFile (js "[2]") 9)) false 9.

(** The file holds text that is not JSON. *)
Definition malformed : Store := mkStore (Some (mkFile (js "{bad") 6)) false 7.

(** The file cannot be written. *)
Definition locked : Store := mkStore (Some (mkFile (js "[1]") 5)) true 7.

(** The file holds the JSON number 0. *)
Definition zero : System :=
  mkSystem (mkStore (Some (mkFile (js "0") 5)) false 7) initial [] [].

(** The cache is primed and the file is gone. *)
Definition orphaned : System := step primed (External removed).

(** A read during which the file is removed, between the answer of
    [fs.readFile] and that of [fs.stat]. *)
Definition read_then_removed : list event :=
  [Call_readData; Resume 0; External removed; Resume 0].

(** A write after which the file is removed, before [fs.stat] answers. *)
Definition write_then_removed : list event :=
  [Call_writeData items; Resume 0; External removed; Resume 0].

(** A read started on the malformed file, and a write started on the
    locked one. *)
Definition read_malformed : list event :=
  [Call_readData; External malformed; Resume 0].
Definition write_locked : list event :=
  [Call_writeData items; External locked; Resume 0].

(** A read stopped at its second [await]. *)
Definition read_until_stat : list event := [Call_readData; Resume 0].

(** The primed process after another process has rewritten the file and
    the first notification of that change has been handled. *)
Definition notified_once : System :=
  run (External repaired :: notify "change") primed.

End Scenarios.

(** ** Sequences of calls

    The rest of [itemRepository.js], and the calls of a process made one
    after the other, each left to settle before the next is made. *)

Module Sequences.
Import JSON Fs ItemRepository.

(** [initFileWatcher], lines 40-48: the answer of [fs.stat] seeds
    [lastFileMtime]; a failure is swallowed by the [catch]. *)
Definition initFileWatcher_after_stat (r : result Stats) : State -> State :=
  fun c =>
    match r with
    | Ok stats => mkState (cachedData c) (Some (mtime stats))
    | Err _ => c
    end.

(** [initFileWatcher()], line 50, is not awaited: its [fs.stat] answers
    at some point of the life of the process, on the file as it then is. *)
Definition load (S : System) : System :=
  mkSystem (store S)
    (initFileWatcher_after_stat (stat (store S)) (cache S))
    (pending S) (trace S ++ [Access Stat]).

Definition boot (st : Store) : System := load (mkSystem st initial [] []).

Inductive call : Type :=
| Load
| Read
| Write (data : Value)
| Watch (eventType : string).

Definition perform (S : System) (c : call) : System :=
  match c with
  | Load => load S
  | Read => run read S
  | Write data => run (write data) S
  | Watch eventType => run (notify eventType) S
  end.

Definition perform_all (cs : list call) (S : System) : System :=
  foldl perform S cs.

Definition is_write (c : call) : bool :=
  match c with
  | Write _ => true
  | _ => false
  end.

(** How the last call of a schedule settled. *)
Definition settled (es : list event) (S : System) : option completion :=
  match last (emitted es S) with
  | Some (Settled _ r) => Some r
  | _ => None
  end.

(** The cache agrees with the file: nothing is pending, and a populated
    [cachedData] is the decoded content of the file, [lastFileMtime] being
    its modification time. *)
Definition coherent (S : System) : Prop :=
  pending S = []
  /\ (present (cache S) = true ->
      exists f : File,
        file (store S) = Some f
        /\ parse (content f) = Some (cachedData (cache S))
        /\ lastFileMtime (cache S) = Some (modified f)).

(** No call in flight is a [writeData]. *)
Definition no_write_pending (S : System) : Prop :=
  Forall (fun f => op_of f <> WriteData) (pending S).

(** The events by which this process reads, as opposed to writing or to
    another process changing the file. *)
Definition reading (e : event) : bool :=
  match e with
  | Call_readData | Notify _ | Resume _ => true
  | Call_writeData _ | External _ => false
  end.

(** A freshly loaded process that reads, is notified, writes the item
    list and reads again. *)
Definition busy_day : list call :=
  [Read; Watch "change"; Write Scenarios.items; Read].

(** Reads, notifications and the answer to the [fs.stat] of
    [initFileWatcher], after a write. *)
Definition quiet_night : list call :=
  [Read; Watch "change"; Read; Load; Watch "rename"; Read].

(** Two reads and a notification in flight together. *)
Definition overlapping_reads : list event :=
  [Call_readData; Notify "change"; Call_readData; Resume 1; Resume 0;
   Resume 1; Resume 0; Resume 0].

End Sequences.

(** ** The items routes

    [routes/items.js]: the three handlers of [/api/items], each run on an
    idle process and left to settle.  Whatever a handler throws is passed
    to [next(err)].

    The numbers of the query are taken as [parseInt] hands them over when
    it reads an integer; the limit is a positive one. *)

Module ItemsRoutes.
Import JSON Fs ItemRepository Sequences.

(** What reaches [next(err)]: a [TypeError], the 404 of [GET /:id], a
    failure of the repository, or what [mean] throws. *)
Inductive failure : Type :=
| TypeError
| NotFound
| Repository (e : Error)
| MeanError.

Inductive reply (A : Type) : Type :=
| Sent (status : Z) (body : A)
| Next (err : failure)
| NoReply.
Arguments Sent {A} status body.
Arguments Next {A} err.
Arguments NoReply {A}.

(** [v.key], for a key that no prototype defines ([name], [id], [price]):
    reading it off [null] throws ([None]); anything but an object that has
    the member answers [undefined] ([Some None]). *)
Definition property (key : text) (v : Value) : option (option Value) :=
  match v with
  | JNull => None
  | JObj ms => Some (member key ms)
  | _ => Some None
  end.

(** [sub] is at the front of [s]. *)
Fixpoint starts_with (sub s : text) : bool :=
  match sub, s with
  | [], _ => true
  | a :: sub', b :: s' => (a =? b)%N && starts_with sub' s'
  | _ :: _, [] => false
  end.

(** [s.includes(sub)] *)
Fixpoint includes (s sub : text) : bool :=
  if starts_with sub s then true
  else
    match s with
    | _ :: s' => includes s' sub
    | [] => false
    end.

(** [Array.prototype.slice(start, stop)]: a negative index counts from the
    end, and both are clamped to the array. *)
Definition slice_index (len i : Z) : Z :=
  if i <? 0 then Z.max (len + i) 0 else Z.min i len.

Definition slice {A : Type} (l : list A) (start stop : Z) : list A :=
  let len := Z.of_nat (length l) in
  let from := slice_index len start in
  let to := slice_index len stop in
  take (Z.to_nat (to - from)) (drop (Z.to_nat from) l).

(** [Math.ceil(a / b)] for a positive [b]. *)
Definition ceil_div (a b : Z) : Z := - ((- a) / b).

Record Pagination : Type := mkPagination {
  page : Z;
  limit : Z;
  total : Z;
  totalPages : Z;
  hasNext : bool;
  hasPrev : bool
}.

Record Listing : Type := mkListing {
  items : Value;
  pagination : Pagination
}.

(** [req.query] after [parseInt]: an absent [limit] or [page] takes its
    default. *)
Record Query : Type := mkQuery {
  query_limit : option positive;
  query_page : option Z;
  query_q : option text
}.

(** Lines 220-237.  A string has a length and a [slice] of its own; any
    other value that is not an array has no [slice] to call. *)
Definition paginate (results : Value) (pageNum : Z) (limitNum : positive)
  : failure + Listing :=
  let window (len : Z) (cut : Z -> Z -> Value) :=
    let totalPages := ceil_div len (Zpos limitNum) in
    let startIndex := (pageNum - 1) * Zpos limitNum in
    let endIndex := startIndex + Zpos limitNum in
    inr (mkListing (cut startIndex endIndex)
           (mkPagination pageNum (Zpos limitNum) len totalPages
              (pageNum <? totalPages) (pageNum >? 1))) in
  match results with
  | JArr l => window (Z.of_nat (length l)) (fun a b => JArr (slice l a b))
  | JStr s => window (Z.of_nat (length s)) (fun a b => JStr (slice s a b))
  | _ => inl TypeError
  end.

Section Search.

(** [String.prototype.toLowerCase] *)
Variable toLowerCase : text -> text.

(** Line 216, the callback: [item.name.toLowerCase().includes(...)] throws
    unless [item.name] is a string. *)
Definition name_matches (q : text) (item : Value) : option bool :=
  match property (js "name") item with
  | Some (Some (JStr name)) =>
      Some (includes (toLowerCase name) (toLowerCase q))
  | _ => None
  end.

(** [results.filter(...)]: the first callback that throws ends it. *)
Fixpoint filter_by_name (q : text) (l : list Value) : option (list Value) :=
  match l with
  | [] => Some []
  | item :: rest =>
      match name_matches q item with
      | None => None
      | Some keep =>
          match filter_by_name q rest with
          | None => None
          | Some kept => Some (if keep then item :: kept else kept)
          end
      end
  end.

(** Lines 212-217: the search applies when [q] is a non-empty string. *)
Definition search (data : Value) (q : option text) : option Value :=
  match q with
  | None | Some [] => Some data
  | Some wanted =>
      match data with
      | JArr l => option_map JArr (filter_by_name wanted l)
      | _ => None
      end
  end.

(** Lines 210-238, after [readData] has answered [data]. *)
Definition list_items (query : Query) (data : Value) : failure + Listing :=
  match search data (query_q query) with
  | None => inl TypeError
  | Some results =>
      paginate results (default 1 (query_page query))
        (default 10%positive (query_limit query))
  end.

End Search.

(** Line 248, the callback: [i.id === parseInt(req.params.id)], where [None]
    stands for the [NaN] of an id that is no number. *)
Definition has_id (id : option Z) (item : Value) : option bool :=
  match property (js "id") item with
  | None => None
  | Some (Some (JNum x)) =>
      Some (match id with Some n => same_number x (int n) | None => false end)
  | Some _ => Some false
  end.

(** [data.find(...)]: [None] when a callback throws, [Some None] when no
    element is found. *)
Fixpoint find_by_id (id : option Z) (l : list Value)
  : option (option Value) :=
  match l with
  | [] => Some None
  | item :: rest =>
      match has_id id item with
      | None => None
      | Some true => Some (Some item)
      | Some false => find_by_id id rest
      end
  end.

(** Lines 247-254, after [readData] has answered [data]. *)
Definition get_item (id : option Z) (data : Value) : failure + Value :=
  match data with
  | JArr l =>
      match find_by_id id l with
      | None => inl TypeError
      | Some None => inl NotFound
      | Some (Some item) => inr item
      end
  | _ => inl TypeError
  end.

(** A [GET] handler: it awaits [readData], works on what it returns and
    answers with [res.json]. *)
Definition answer {A : Type} (handler : Value -> failure + A) (S : System)
  : System * reply A :=
  (run read S,
   match settled read S with
   | Some (Return (Some data)) =>
       match handler data with
       | inl err => Next err
       | inr body => Sent 200 body
       end
   | Some (Return None) => Next TypeError
   | Some (Throw e) => Next (Repository e)
   | None => NoReply
   end).

(** Lines 264-269, for a body that is an object.  [readData] returns the
    very array that [cachedData] holds, so [data.push(item)] extends the
    cached array too; [writeData] is then given that array. *)
Definition create_item (body : list (text * Value)) (now : Z) (S : System)
  : System * reply (list (text * Value)) :=
  let S1 := run read S in
  match settled read S with
  | Some (Return (Some (JArr l))) =>
      let item := set_member (js "id") (JNum (int now)) body in
      let data := JArr (l ++ [JObj item]) in
      let S2 :=
        mkSystem (store S1) (mkState data (lastFileMtime (cache S1)))
          (pending S1) (trace S1) in
      (run (write data) S2,
       match settled (write data) S2 with
       | Some (Return _) => Sent 201 item
       | Some (Throw e) => Next (Repository e)
       | None => NoReply
       end)
  | Some (Return _) => (S1, Next TypeError)
  | Some (Throw e) => (S1, Next (Repository e))
  | None => (S1, NoReply)
  end.

(** The items that a listing carries. *)
Definition listed (r : failure + Listing) : list Value :=
  match r with
  | inr (mkListing (JArr l) _) => l
  | _ => []
  end.

(** An item whose [name] is a string. *)
Definition has_name (item : Value) : bool :=
  match property (js "name") item with
  | Some (Some (JStr _)) => true
  | _ => false
  end.

(** An item that [find] passes over: it is not [null], and its [id] is not
    a number that is [===] the one looked for. *)
Definition passed_over (id : option Z) (item : Value) : Prop :=
  item <> JNull
  /\ forall (n : Z) (x : Number),
       id = Some n -> property (js "id") item = Some (Some (JNum x)) ->
       same_number x (int n) = false.

(** ASCII letters folded to lower case, for running the search. *)
Definition ascii_lower (u : N) : N :=
  if ((65 <=? u) && (u <=? 90))%N then (u + 32)%N else u.

Definition lower (s : text) : text := map ascii_lower s.

(** A catalogue of seven items. *)
Definition named (n : Z) (name : string) : Value :=
  JObj [(js "id", JNum (int n)); (js "name", JStr (js name))].

Definition catalogue : list Value :=
  [named 1 "Laptop Pro"; named 2 "Headphones"; named 3 "Monitor";
   named 4 "Desk lamp"; named 5 "Laptop stand"; named 6 "Mouse";
   named 7 "laptop bag"].

(** A process whose file holds the item list as [writeData] lays it out,
    and the same with the file read-only. *)
Definition shelf : System :=
  mkSystem (mkStore (Some (mkFile (stringify Scenarios.items) 5)) false 7)
    initial [] [].

Definition locked_shelf : System :=
  mkSystem (mkStore (Some (mkFile (stringify Scenarios.items) 5)) true 7)
    initial [] [].

(** Request bodies: one with a name, one without. *)
Definition mouse : list (text * Value) :=
  [(js "name", JStr (js "Mouse")); (js "price", JNum (int 25))].

Definition nameless : list (text * Value) := [(js "price", JNum (int 25))].

End ItemsRoutes.

(** ** The stats route

    [routes/stats.js]: a summary of the items, computed by [calculateStats]
    and kept in [cachedStats] for as long as [getLastModifiedTime] answers
    the object that [cachedStatsMtime] holds. *)

Module StatsRoute.
Import JSON Fs ItemRepository Sequences ItemsRoutes.

(** *** Date objects

    [cachedStatsMtime !== currentMtime] compares two [Date] objects, which
    are equal only when they are one object.  Every [fs.stat] answers a
    [Stats] with a [Date] of its own, so each assignment to [lastFileMtime]
    -- lines 21, 43, 61 and 75 of the repository -- stores an object that was
    never seen before.  The objects are numbered in the order in which they
    are stored. *)

(** Whether an event ends in one of these assignments. *)
Definition assigns_mtime (S : System) (e : event) : bool :=
  match e with
  | Resume i =>
      match pending S !! i with
      | Some readData_stat | Some writeData_stat =>
          match stat (store S) with
          | Ok _ => true
          | Err _ => false
          end
      | Some watchFile_stat =>
          match stat (store S) with
          | Ok stats => mtime_changed stats (lastFileMtime (cache S))
          | Err _ => false
          end
      | _ => false
      end
  | _ => false
  end.

(** The number of objects a schedule stores. *)
Fixpoint assignments (es : list event) (S : System) : nat :=
  match es with
  | [] => 0
  | e :: es' =>
      ((if assigns_mtime S e then 1 else 0) + assignments es' (step S e))%nat
  end.

(** The same for the calls of a process; [initFileWatcher] stores one when
    its [fs.stat] succeeds. *)
Definition call_dates (S : System) (c : call) : nat :=
  match c with
  | Load =>
      match stat (store S) with
      | Ok _ => 1
      | Err _ => 0
      end
  | Read => assignments read S
  | Write data => assignments (write data) S
  | Watch eventType => assignments (notify eventType) S
  end.

Section Stats.

(** [mean], of [utils/stats]: a function of the prices, which are members
    of items or [undefined]; [None] when it throws. *)
Variable Average : Type.
Variable mean : list (option Value) -> option Average.

Record Summary : Type := mkSummary {
  total : Z;
  averagePrice : Average
}.

(** [items.map(item => item.price)]: reading the price of [null] throws. *)
Fixpoint prices (items : list Value) : option (list (option Value)) :=
  match items with
  | [] => Some []
  | item :: rest =>
      match property (js "price") item with
      | None => None
      | Some price => option_map (cons price) (prices rest)
      end
  end.

(** [calculateStats], lines 286-291, after [readData] has answered
    [items]: anything but an array has no [map] to call. *)
Definition calculateStats_after_readData (items : Value)
  : failure + Summary :=
  match items with
  | JArr l =>
      match prices l with
      | None => inl TypeError
      | Some ps =>
          match mean ps with
          | None => inl MeanError
          | Some average => inr (mkSummary (Z.of_nat (length l)) average)
          end
      end
  | _ => inl TypeError
  end.

(** The process with the module state of [stats.js]; [dates] counts the
    objects stored in [lastFileMtime] so far, and [cachedStatsMtime]
    holds the number of an object, or [null]. *)
Record Server : Type := mkServer {
  process : System;
  dates : nat;
  cachedStats : option Summary;
  cachedStatsMtime : option nat
}.

(** Line 297: the object that [lastFileMtime] holds, if any. *)
Definition currentMtime (T : Server) : option nat :=
  match getLastModifiedTime (cache (process T)) with
  | Some _ => Some (dates T)
  | None => None
  end.

(** Lines 300-302: [cachedStats] once the test of the object is made. *)
Definition invalidated (T : Server) : option Summary :=
  match cachedStats T with
  | Some s =>
      if decide (cachedStatsMtime T = currentMtime T) then Some s else None
  | None => None
  end.

(** Lines 295-314, on an idle process.  A summary that is kept is sent as
    it is; otherwise [calculateStats] is awaited, and when it throws
    [cachedStats] is left at [null]. *)
Definition get_stats (T : Server) : Server * reply Summary :=
  match invalidated T with
  | Some s => (T, Sent 200 s)
  | None =>
      let after (kept : option Summary) (stamp : option nat) :=
        mkServer (run read (process T))
          (dates T + assignments read (process T)) kept stamp in
      match settled read (process T) with
      | Some (Return (Some items)) =>
          match calculateStats_after_readData items with
          | inr s => (after (Some s) (currentMtime T), Sent 200 s)
          | inl err => (after None (cachedStatsMtime T), Next err)
          end
      | Some (Return None) => (after None (cachedStatsMtime T), Next TypeError)
      | Some (Throw e) => (after None (cachedStatsMtime T), Next (Repository e))
      | None => (after None (cachedStatsMtime T), NoReply)
      end
  end.

(** What a server handles, one request after the other: a call of the
    repository made by any route, or [GET /api/stats]. *)
Inductive request : Type :=
| Repo (c : call)
| Stats.

Definition handle (T : Server) (r : request) : Server :=
  match r with
  | Repo c =>
      mkServer (perform (process T) c)
        (dates T + call_dates (process T) c) (cachedStats T)
        (cachedStatsMtime T)
  | Stats => fst (get_stats T)
  end.

Definition handle_all (rs : list request) (T : Server) : Server :=
  foldl handle T rs.

(** Another process replaces the file. *)
Definition replaced (st : Store) (T : Server) : Server :=
  mkServer (step (process T) (External st)) (dates T) (cachedStats T)
    (cachedStatsMtime T).

(** A server whose modules have just been loaded. *)
Definition boot_server (st : Store) : Server :=
  mkServer (boot st) (call_dates (mkSystem st initial [] []) Load) None None.

(** The summary is that of the items in cache, whenever it is current and
    the cache is populated; the cache agrees with the file, and the stamp
    of the summary is no object of the future. *)
Definition agrees (T : Server) : Prop :=
  coherent (process T)
  /\ (forall n : nat, cachedStatsMtime T = Some n -> (n <= dates T)%nat)
  /\ (forall s : Summary,
        cachedStats T = Some s ->
        cachedStatsMtime T = currentMtime T ->
        present (cache (process T)) = true ->
        calculateStats_after_readData (cachedData (cache (process T))) = inr s).

End Stats.

Arguments total {Average} _.
Arguments averagePrice {Average} _.
Arguments process {Average} _.
Arguments dates {Average} _.
Arguments cachedStats {Average} _.
Arguments cachedStatsMtime {Average} _.
Arguments currentMtime {Average} _.
Arguments invalidated {Average} _.
Arguments replaced {Average} _ _.

(** A stand-in for [mean], for running the route: the mean of integer
    prices, rounded down; it throws on anything else and on no price. *)
Definition whole (x : Number) : option Z :=
  match x with
  | Finite negative m e =>
      let sign := if negative then -1 else 1 in
      if 0 <=? e then Some (sign * (m * 2 ^ e))
      else if m mod 2 ^ (- e) =? 0 then Some (sign * (m / 2 ^ (- e)))
      else None
  | Infinite _ => None
  end.

Fixpoint sum_prices (ps : list (option Value)) : option Z :=
  match ps with
  | [] => Some 0
  | Some (JNum x) :: rest =>
      match whole x, sum_prices rest with
      | Some n, Some sum => Some (n + sum)
      | _, _ => None
      end
  | _ => None
  end.

Definition whole_mean (ps : list (option Value)) : option Z :=
  match ps with
  | [] => None
  | _ => option_map (fun sum => sum / Z.of_nat (length ps)) (sum_prices ps)
  end.

(** The file of the shelf, and requests made of a server. *)
Definition shelf_file : Store := store shelf.

Definition two_items : Value :=
  JArr [Scenarios.laptop; JObj ((js "id", JNum (int 2)) :: mouse)].

Definition stats_day : list request :=
  [Stats; Repo (Write two_items); Stats; Repo Read; Stats;
   Repo (Watch "change"); Stats].

End StatsRoute.

(** * The codec

    [JSON.parse] undoes [JSON.stringify] on every value of JSON, up to the
    sign of a zero, and the file gives back what [JSON.stringify] wrote. *)

Module Codec.
Import JSON.

Lemma skip_ws_blank (pre s : text) : blank pre -> skip_ws (pre ++ s) = skip_ws s.
Proof. induction 1 as [ | a pre Ha _ IH]; simpl; [done | by rewrite Ha]. Qed.

(** *** Digits *)

Lemma digit_of_digit_char (d : Z) :
  is_digit d = true -> digit_of (digit_char d) = Some d.
Proof.
  unfold is_digit, digit_of, digit_char. intros H.
  apply andb_true_iff in H as [H0 H1].
  apply Z.leb_le in H0. apply Z.ltb_lt in H1.
  assert (d = 0 \/ d = 1 \/ d = 2 \/ d = 3 \/ d = 4 \/ d = 5 \/ d = 6 \/ d = 7
          \/ d = 8 \/ d = 9) as Hc by lia.
  intuition (subst; reflexivity).
Qed.

Lemma digit_of_is_digit (u : N) (d : Z) :
  digit_of u = Some d -> is_digit d = true /\ u = digit_char d.
Proof.
  unfold digit_of, is_digit, digit_char.
  destruct ((48 <=? u) && (u <=? 57))%N eqn:H; [ | done].
  intros [= <-]. apply andb_true_iff in H as [H0 H1].
  apply N.leb_le in H0. apply N.leb_le in H1.
  split; [apply andb_true_iff; split; [apply Z.leb_le | apply Z.ltb_lt]; lia | ].
  lia.
Qed.

Lemma delimited_stops (rest : text) : delimited rest -> stops rest.
Proof. destruct rest; [done | ]. by intros [H _]. Qed.

Lemma read_digits_stop (rest : text) : stops rest -> read_digits rest = ([], rest).
Proof. destruct rest as [ | u r]; simpl; [done | ]. by intros ->. Qed.

Lemma read_digits_app (ds : list Z) (rest : text) :
  forallb is_digit ds = true ->
  stops rest ->
  read_digits (map digit_char ds ++ rest) = (ds, rest).
Proof.
  intros Hds Hrest. induction ds as [ | d ds IH]; simpl.
  - by apply read_digits_stop.
  - simpl in Hds. apply andb_true_iff in Hds as [Hd Hds].
    rewrite (digit_of_digit_char d Hd), (IH Hds). done.
Qed.

Lemma value_snoc (ds : list Z) (d : Z) : value (ds ++ [d]) = 10 * value ds + d.
Proof. unfold value. by rewrite foldl_app. Qed.

Lemma value_app (ds es : list Z) :
  value (ds ++ es) = value ds * 10 ^ Z.of_nat (length es) + value es.
Proof.
  induction es as [ | d es IH] using rev_ind.
  - rewrite app_nil_r. simpl. unfold value at 3. simpl. lia.
  - rewrite app_assoc, !value_snoc, IH, length_app. simpl.
    rewrite Nat2Z.inj_add, Z.pow_add_r by lia. simpl (Z.of_nat 1).
    rewrite Z.pow_1_r. lia.
Qed.

Lemma value_repeat_zero (j : nat) : value (repeat 0 j) = 0.
Proof.
  induction j as [ | j IH]; [done | ].
  change (repeat 0 (S j)) with ([0] ++ repeat 0 j).
  rewrite value_app, IH. unfold value. simpl. lia.
Qed.

Lemma value_zeros_after (ds : list Z) (j : nat) :
  value (ds ++ repeat 0 j) = value ds * 10 ^ Z.of_nat j.
Proof. rewrite value_app, value_repeat_zero, repeat_length. lia. Qed.

Lemma value_zeros_before (ds : list Z) (j : nat) :
  value (repeat 0 j ++ ds) = value ds.
Proof. rewrite value_app, value_repeat_zero. lia. Qed.

Lemma value_cons (d : Z) (ds : list Z) :
  value (d :: ds) = d * 10 ^ Z.of_nat (length ds) + value ds.
Proof.
  change (d :: ds) with ([d] ++ ds). rewrite value_app.
  unfold value at 1. simpl. lia.
Qed.

(** The digits of a number, written onto digits that follow. *)
Lemma digits_onto_spec (fuel : nat) (n : Z) (acc : list Z) :
  0 <= n < 2 ^ (Z.of_nat fuel + 1) ->
  forallb is_digit acc = true ->
  exists (d : Z) (ds : list Z),
    digits_onto fuel n acc = d :: ds
    /\ forallb is_digit (d :: ds) = true
    /\ (0 < n -> d <> 0)
    /\ (n = 0 -> d :: ds = 0 :: acc)
    /\ value (d :: ds) = n * 10 ^ Z.of_nat (length acc) + value acc.
Proof.
  revert n acc. induction fuel as [ | fuel IH]; intros n acc Hn Hacc.
  - simpl in Hn. exists n, acc. simpl.
    assert (n = 0 \/ n = 1) as [-> | ->] by lia; rewrite ?Hacc;
      (split; [done | ]; split; [done | ]; split; [lia | ];
       split; [done | apply value_cons]).
  - simpl digits_onto. destruct (Z.ltb_spec n 10) as [Hlt | Hge].
    + exists n, acc. simpl. rewrite Hacc.
      assert (is_digit n = true) as ->
        by (unfold is_digit; apply andb_true_iff; split;
            [apply Z.leb_le | apply Z.ltb_lt]; lia).
      split; [done | ]. split; [done | ]. split; [lia | ].
      split; [by intros -> | apply value_cons].
    + pose proof (Z.div_mod n 10 ltac:(lia)) as Hdm.
      pose proof (Z.mod_pos_bound n 10 ltac:(lia)) as Hm.
      assert (Hpow : 2 ^ (Z.of_nat (S fuel) + 1) = 2 * 2 ^ (Z.of_nat fuel + 1)).
      { rewrite <- Z.pow_succ_r by lia. f_equal. lia. }
      destruct (IH (n / 10) (n mod 10 :: acc)) as (d & ds & Heq & Hds & Hnz & _ & Hv).
      { split; [apply Z.div_pos; lia | ].
        apply Z.div_lt_upper_bound; lia. }
      { simpl. rewrite Hacc. unfold is_digit.
        rewrite andb_true_r. apply andb_true_iff; split;
          [apply Z.leb_le | apply Z.ltb_lt]; lia. }
      exists d, ds. split; [done | ]. split; [done | ].
      split; [ | split; [lia | ]].
      * intros _. apply Hnz. apply Z.div_str_pos. lia.
      * rewrite Hv, value_cons. simpl length.
        rewrite Nat2Z.inj_succ, Z.pow_succ_r by lia. lia.
Qed.

Lemma digits_of_spec (n : Z) :
  0 <= n ->
  exists (d : Z) (ds : list Z),
    digits_of n = d :: ds
    /\ forallb is_digit (d :: ds) = true
    /\ (0 < n -> d <> 0)
    /\ (n = 0 -> ds = [])
    /\ value (d :: ds) = n.
Proof.
  intros Hn. unfold digits_of.
  destruct (digits_onto_spec (Z.to_nat (Z.log2 n)) n []) as (d & ds & Heq & Hds & Hnz & Hz & Hv).
  - split; [done | ]. rewrite Z2Nat.id by apply Z.log2_nonneg.
    destruct (Z.eq_dec n 0) as [-> | ?]; [done | ].
    apply Z.log2_spec. lia.
  - done.
  - exists d, ds. split; [done | ]. split; [done | ]. split; [done | ].
    split.
    + intros H0. specialize (Hz H0). by injection Hz.
    + rewrite Hv. simpl. unfold value. simpl. lia.
Qed.

Lemma digits_of_value (n : Z) : 0 <= n -> value (digits_of n) = n.
Proof. intros H. by destruct (digits_of_spec n H) as (d & ds & -> & _ & _ & _ & ?). Qed.

Lemma digits_of_digits (n : Z) : 0 <= n -> forallb is_digit (digits_of n) = true.
Proof. intros H. by destruct (digits_of_spec n H) as (d & ds & -> & ? & _). Qed.

Lemma digits_of_significand (n : Z) : 0 < n -> significand (digits_of n) = true.
Proof.
  intros H. destruct (digits_of_spec n ltac:(lia)) as (d & ds & -> & Hds & Hnz & _).
  unfold significand. rewrite Hds. simpl. apply negb_true_iff, Z.eqb_neq. by apply Hnz.
Qed.

Lemma digits_of_cons (n : Z) : 0 <= n -> exists d ds, digits_of n = d :: ds.
Proof. intros H. destruct (digits_of_spec n H) as (d & ds & -> & _). eauto. Qed.

(** *** The Number value of a double is the double *)

Lemma log2_ratio_exact (a b m e : Z) :
  0 < m -> 0 < b -> ratio a b m e -> log2_ratio a b = Z.log2 m + e.
Proof.
  intros Hm Hb. unfold ratio, log2_ratio.
  destruct (Z.leb_spec 0 e) as [He | He].
  - intros ->. assert (0 < 2 ^ e) by (apply Z.pow_pos_nonneg; lia).
    assert (1 <= m * 2 ^ e) by nia.
    destruct (Z.leb_spec b (m * 2 ^ e * b)) as [_ | ?]; [ | nia].
    rewrite Z.div_mul by lia. rewrite Z.log2_mul_pow2 by lia. lia.
  - intros Heq. set (k := - e) in *. assert (Hk : 0 < k) by lia.
    assert (Hpk : 0 < 2 ^ k) by (apply Z.pow_pos_nonneg; lia).
    assert (Ha : 0 < a) by nia.
    pose proof (Z.log2_spec m Hm) as [Hj1 Hj2].
    pose proof (Z.log2_nonneg m) as Hj0.
    set (j := Z.log2 m) in *.
    destruct (Z.leb_spec b a) as [Hba | Hab].
    + assert (Hmk : 2 ^ k <= m) by nia.
      assert (Hdiv : a / b = m / 2 ^ k).
      { rewrite <- (Z.div_mul_cancel_r a b (2 ^ k)) by lia.
        rewrite Heq, (Z.mul_comm b), Z.div_mul_cancel_r by lia. done. }
      rewrite Hdiv, <- Z.shiftr_div_pow2 by lia.
      rewrite Z.log2_shiftr by lia. fold j.
      assert (k <= j).
      { destruct (Z.le_gt_cases k j) as [? | Hlt]; [done | ].
        assert (2 ^ (j + 1) <= 2 ^ k) by (apply Z.pow_le_mono_r; lia). lia. }
      lia.
    + assert (Hmk : m < 2 ^ k) by nia.
      assert (Hjk : j < k).
      { destruct (Z.lt_ge_cases j k) as [? | Hge]; [done | ].
        assert (2 ^ k <= 2 ^ j) by (apply Z.pow_le_mono_r; lia). lia. }
      assert (Hsplit1 : 2 ^ k = 2 ^ (k - j) * 2 ^ j).
      { rewrite <- Z.pow_add_r by lia. f_equal. lia. }
      assert (Hsplit2 : 2 ^ k = 2 ^ (k - j - 1) * 2 ^ (j + 1)).
      { rewrite <- Z.pow_add_r by lia. f_equal. lia. }
      assert (0 < 2 ^ (k - j)) by (apply Z.pow_pos_nonneg; lia).
      assert (0 < 2 ^ (k - j - 1)) by (apply Z.pow_pos_nonneg; lia).
      rewrite (Z.log2_up_unique ((b + a - 1) / a) (k - j)); [lia | lia | ].
      replace (Z.pred (k - j)) with (k - j - 1) by lia. split.
      * replace (Z.succ j) with (j + 1) in Hj2 by lia.
        assert (a * 2 ^ (k - j - 1) < b) by nia.
        assert (2 ^ (k - j - 1) + 1 <= (b + a - 1) / a); [ | lia].
        apply Z.div_le_lower_bound; [lia | ]. nia.
      * assert (b <= a * 2 ^ (k - j)) by nia.
        assert ((b + a - 1) / a < 2 ^ (k - j) + 1); [ | lia].
        apply Z.div_lt_upper_bound; [lia | ]. nia.
Qed.

Lemma nearest_exact (negative : bool) (a b m e : Z) :
  is_double m e = true -> 0 < m -> 0 < b -> ratio a b m e ->
  nearest negative a b = Finite negative m e.
Proof.
  intros Hd Hm Hb Hr. pose proof (log2_ratio_exact a b m e Hm Hb Hr) as Hlog.
  unfold is_double in Hd.
  repeat (apply andb_true_iff in Hd as [Hd ?]).
  repeat match goal with
         | H : (_ <=? _) = true |- _ => apply Z.leb_le in H
         | H : (_ <? _) = true |- _ => apply Z.ltb_lt in H
         end.
  assert (He : Z.max (Z.log2 m + e - 52) (-1074) = e).
  { match goal with H : _ || _ = true |- _ => apply orb_true_iff in H as [H | H] end.
    - apply Z.leb_le in H. rewrite (Z.log2_unique m 52); lia.
    - apply Z.eqb_eq in H.
      destruct (Z.le_gt_cases (2 ^ 52) m) as [Hn | Hs].
      + rewrite (Z.log2_unique m 52); lia.
      + assert (Z.log2 m < 52); [ | lia].
        apply Z.log2_lt_pow2; lia. }
  assert (Hscaled : exists n d, scaled a b e = (n, d) /\ 0 < d /\ n = m * d).
  { unfold scaled, ratio in *. destruct (Z.leb_spec 0 e).
    - assert (0 < 2 ^ e) by (apply Z.pow_pos_nonneg; lia).
      exists a, (b * 2 ^ e). split; [done | ]. split; [nia | lia].
    - by exists (a * 2 ^ (- e)), b. }
  destruct Hscaled as (n & d & Hs & Hdpos & ->).
  assert (Ha : a <> 0).
  { unfold ratio in Hr. destruct (Z.leb_spec 0 e).
    - assert (0 < 2 ^ e) by (apply Z.pow_pos_nonneg; lia). nia.
    - nia. }
  unfold nearest. destruct (Z.eqb_spec a 0) as [? | _]; [done | ].
  rewrite Hlog, He, Hs. unfold round_half_even.
  rewrite Z.div_mul, Z.mod_mul by lia.
  destruct (Z.ltb_spec (2 * 0) d) as [_ | ?]; [ | lia].
  destruct (Z.eqb_spec m (2 ^ 53)) as [? | _]; [lia | ].
  destruct (Z.ltb_spec 971 e) as [? | _]; [lia | done].
Qed.

#[local] Arguments nearest : simpl never.
#[local] Arguments nearest_decimal : simpl never.
#[local] Arguments Z.pow : simpl never.
#[local] Arguments Z.mul : simpl never.
#[local] Arguments Z.add : simpl never.
#[local] Arguments Z.sub : simpl never.
#[local] Arguments Z.of_nat : simpl never.
#[local] Arguments value : simpl never.

Lemma number_eqb_refl (x : Number) : number_eqb x x = true.
Proof.
  destruct x as [s m e | s]; simpl; rewrite ?Z.eqb_refl; by destruct s.
Qed.

Lemma number_eqb_eq (x y : Number) : number_eqb x y = true -> x = y.
Proof.
  destruct x as [s m e | s], y as [s' m' e' | s']; simpl; try done.
  - intros H. repeat (apply andb_true_iff in H as [H ?]).
    apply Bool.eqb_prop in H. f_equal; [done | by apply Z.eqb_eq ..].
  - intros H. apply Bool.eqb_prop in H. by f_equal.
Qed.

(** Every digit of a double denotes it. *)
Lemma every_digit_denotes (m e : Z) :
  is_double m e = true -> 0 < m -> denotes m e (every_digit m e) = true.
Proof.
  intros Hd Hm. unfold denotes, every_digit.
  destruct (Z.leb_spec 0 e) as [He | He]; cbn [fst snd].
  - assert (0 < 2 ^ e) by (apply Z.pow_pos_nonneg; lia).
    rewrite digits_of_significand by nia. rewrite digits_of_value by nia.
    rewrite Z.sub_diag. unfold nearest_decimal. simpl (0 <=? 0).
    cbv iota. rewrite Z.pow_0_r, Z.mul_1_r.
    rewrite (nearest_exact false _ 1 m e); [apply number_eqb_refl | done .. | ].
    unfold ratio. destruct (Z.leb_spec 0 e); lia.
  - assert (0 < 5 ^ (- e)) by (apply Z.pow_pos_nonneg; lia).
    rewrite digits_of_significand by nia. rewrite digits_of_value by nia.
    replace (Z.of_nat (length (digits_of (m * 5 ^ (- e)))) + e
             - Z.of_nat (length (digits_of (m * 5 ^ (- e))))) with e by lia.
    unfold nearest_decimal. destruct (Z.leb_spec 0 e) as [? | _]; [lia | ].
    rewrite (nearest_exact false _ _ m e); [apply number_eqb_refl | done .. | | ].
    + apply Z.pow_pos_nonneg; lia.
    + unfold ratio. destruct (Z.leb_spec 0 e) as [? | _]; [lia | ].
      change 10 with (5 * 2). rewrite Z.pow_mul_l. lia.
Qed.

Lemma shortest_denotes (m e : Z) :
  is_double m e = true -> 0 < m -> denotes m e (shortest m e) = true.
Proof.
  intros Hd Hm. unfold shortest. destruct (exact m e) as [a b].
  match goal with
  | |- context [List.find ?f ?l] => destruct (List.find f l) as [c | ] eqn:Hfind
  end.
  - by apply List.find_some in Hfind as [_ ?].
  - by apply every_digit_denotes.
Qed.

(** *** Number literals *)

Lemma repeat_zero_digits (j : nat) : repeat zero j = map digit_char (repeat 0 j).
Proof. induction j as [ | j IH]; [done | ]. simpl. by rewrite IH. Qed.

Lemma forallb_repeat_zero (j : nat) : forallb is_digit (repeat 0 j) = true.
Proof. by induction j. Qed.

Lemma parse_fraction_none (rest : text) :
  delimited rest -> parse_fraction rest = Some ([], rest).
Proof.
  destruct rest as [ | u r]; [done | ]. intros (_ & Hdot & _). simpl.
  by destruct (N.eqb_spec u dot).
Qed.

Lemma parse_exponent_none (rest : text) :
  delimited rest -> parse_exponent rest = Some (0, rest).
Proof.
  destruct rest as [ | u r]; [done | ]. intros (_ & _ & He & HE). simpl.
  destruct (N.eqb_spec u 101); [done | ]. by destruct (N.eqb_spec u 69).
Qed.

Lemma significand_cons (ds : list Z) :
  significand ds = true ->
  exists d ds', ds = d :: ds' /\ is_digit d = true /\ d <> 0
                /\ forallb is_digit ds' = true.
Proof.
  unfold significand. intros [Hds Hhd]%andb_true_iff.
  destruct ds as [ | d ds']; [done | ]. simpl in Hds.
  apply andb_true_iff in Hds as [? ?].
  apply negb_true_iff, Z.eqb_neq in Hhd. by exists d, ds'.
Qed.

(** The exponent part that [layout] writes. *)
Lemma parse_exponent_layout (x : Z) (rest : text) :
  x <> 0 -> stops rest ->
  parse_exponent
    (js (if x <? 0 then "e-" else "e+")
       ++ map digit_char (digits_of (Z.abs x)) ++ rest)
  = Some (x, rest).
Proof.
  intros Hx Hrest.
  pose proof (digits_of_digits (Z.abs x) ltac:(lia)) as Hds.
  pose proof (digits_of_value (Z.abs x) ltac:(lia)) as Hv.
  destruct (digits_of_cons (Z.abs x) ltac:(lia)) as (d & ds & Heq).
  destruct (Z.ltb_spec x 0); simpl;
    rewrite (read_digits_app _ rest Hds Hrest), Heq, <- Heq, Hv;
    do 2 f_equal; lia.
Qed.

Lemma read_digits_one (d : Z) (rest : text) :
  is_digit d = true -> stops rest ->
  read_digits (digit_char d :: rest) = ([d], rest).
Proof.
  intros Hd Hrest. apply (read_digits_app [d] rest); [ | done].
  simpl. by rewrite Hd.
Qed.

Lemma layout_reads (negative : bool) (ds : list Z) (n : Z) (rest : text) :
  significand ds = true ->
  delimited rest ->
  parse_unsigned negative (layout ds n ++ rest)
  = Some (nearest_decimal negative (value ds) (n - Z.of_nat (length ds)), rest).
Proof.
  intros Hsig Hrest.
  destruct (significand_cons ds Hsig) as (d & ds' & -> & Hd & Hd0 & Hds').
  assert (Hall : forallb is_digit (d :: ds') = true) by (simpl; by rewrite Hd).
  pose proof (delimited_stops rest Hrest) as Hstop.
  set (k := Z.of_nat (length (d :: ds'))).
  assert (Hk : k = Z.of_nat (length ds') + 1) by (unfold k; simpl length; lia).
  unfold layout. fold k.
  destruct ((k <=? n) && (n <=? 21)) eqn:Ha.
  { (* the digits and zeros *)
    apply andb_true_iff in Ha as [Hkn _]. apply Z.leb_le in Hkn.
    rewrite repeat_zero_digits, <- map_app.
    unfold parse_unsigned.
    rewrite read_digits_app;
      [ | by rewrite forallb_app, Hall, forallb_repeat_zero | done].
    assert (integer_digits ((d :: ds') ++ repeat 0 (Z.to_nat (n - k))) = true)
      as ->.
    { unfold integer_digits.
      rewrite forallb_app, Hall, forallb_repeat_zero. simpl.
      destruct (ds' ++ repeat 0 (Z.to_nat (n - k))); [done | ].
      by apply negb_true_iff, Z.eqb_neq. }
    rewrite parse_fraction_none by done. cbn [mbind option_bind].
    rewrite parse_exponent_none by done. cbn [mbind option_bind length].
    rewrite app_nil_r, value_zeros_after. do 2 f_equal.
    unfold nearest_decimal. simpl (0 <=? 0 - 0).
    destruct (Z.leb_spec 0 (n - k)) as [_ | ?]; [ | lia].
    rewrite Z2Nat.id by lia. cbv iota.
    by rewrite Z.pow_0_r, Z.mul_1_r. }
  destruct ((0 <? n) && (n <=? 21)) eqn:Hb.
  { (* a point among the digits *)
    apply andb_true_iff in Hb as [Hn Hn21]. apply Z.ltb_lt in Hn.
    assert (Hnk : n < k).
    { apply andb_false_iff in Ha as [Ha | Ha]; [ | congruence].
      by apply Z.leb_gt in Ha. }
    rewrite List.firstn_map, List.skipn_map, <- app_assoc.
    simpl ((dot :: _) ++ rest).
    unfold parse_unsigned.
    pose proof Hall as Hsplit.
    rewrite <- (take_drop (Z.to_nat n) (d :: ds')), forallb_app in Hsplit.
    apply andb_true_iff in Hsplit as [Htake Hdrop].
    rewrite read_digits_app; [ | done | simpl; by vm_compute].
    assert (Hn' : exists j, Z.to_nat n = S j) by (exists (Z.to_nat (n - 1)); lia).
    destruct Hn' as [j Hj].
    assert (integer_digits (take (Z.to_nat n) (d :: ds')) = true) as ->.
    { unfold integer_digits. rewrite Htake. rewrite Hj. simpl.
      destruct (take j ds'); [done | ].
      by apply negb_true_iff, Z.eqb_neq. }
    unfold parse_fraction. rewrite N.eqb_refl.
    rewrite read_digits_app by done.
    destruct (drop (Z.to_nat n) (d :: ds')) as [ | f fs] eqn:Hfs.
    { apply (f_equal length) in Hfs. rewrite length_drop in Hfs.
      simpl in Hfs. lia. }
    rewrite <- Hfs. cbn [mbind option_bind].
    rewrite parse_exponent_none by done. cbn [mbind option_bind].
    rewrite take_drop, length_drop. do 3 f_equal.
    unfold k. lia. }
  destruct ((-6 <? n) && (n <=? 0)) eqn:Hc.
  { (* zeros after the point *)
    apply andb_true_iff in Hc as [_ Hn]. apply Z.leb_le in Hn.
    rewrite repeat_zero_digits.
    rewrite <- map_app, <- !app_assoc.
    unfold parse_unsigned.
    change (js "0." ++ ?t) with (map digit_char [0] ++ dot :: t).
    rewrite read_digits_app; [ | done | simpl; by vm_compute].
    simpl (integer_digits [0]). cbv iota.
    unfold parse_fraction. rewrite N.eqb_refl.
    rewrite read_digits_app;
      [ | by rewrite forallb_app, forallb_repeat_zero, Hall | done].
    destruct (repeat 0 (Z.to_nat (- n)) ++ d :: ds') as [ | f fs] eqn:Hfs.
    { by destruct (repeat 0 (Z.to_nat (- n))). }
    rewrite <- Hfs. cbn [mbind option_bind].
    rewrite parse_exponent_none by done. cbn [mbind option_bind].
    change ([0] ++ ?l) with (repeat 0 1 ++ l).
    rewrite value_zeros_before, value_zeros_before.
    rewrite length_app, repeat_length. do 3 f_equal.
    unfold k. lia. }
  (* an exponent *)
  assert (Hx : n - 1 <> 0).
  { intros Hn1. assert (n = 1) as -> by lia.
    simpl in Hb. done. }
  set (exponent := js (if n - 1 <? 0 then "e-" else "e+")
                     ++ map digit_char (digits_of (Z.abs (n - 1)))).
  assert (Hexp : forall t, stops (exponent ++ t))
    by (intros t; unfold exponent; by destruct (n - 1 <? 0)).
  assert (Hfrac : forall t, parse_fraction (exponent ++ t)
                            = Some ([], exponent ++ t))
    by (intros t; unfold exponent; by destruct (n - 1 <? 0)).
  assert (Hone : integer_digits [d] = true)
    by (unfold integer_digits; simpl; by rewrite Hd).
  unfold parse_unsigned.
  destruct ds' as [ | d2 ds'']; cbn [map].
  - rewrite <- app_comm_cons.
    rewrite (read_digits_one d (exponent ++ rest)); [ | done | apply Hexp].
    rewrite Hone, Hfrac. cbn [mbind option_bind]. unfold exponent.
    rewrite <- app_assoc.
    rewrite (parse_exponent_layout (n - 1) rest Hx Hstop).
    cbn [mbind option_bind]. rewrite app_nil_r. do 3 f_equal.
    unfold k. simpl length. lia.
  - rewrite <- !app_comm_cons.
    rewrite (read_digits_one d); [ | done | done].
    rewrite Hone. unfold parse_fraction. rewrite N.eqb_refl.
    rewrite <- app_assoc.
    change (digit_char d2 :: map digit_char ds'' ++ ?t)
      with (map digit_char (d2 :: ds'') ++ t).
    rewrite (read_digits_app (d2 :: ds'') (exponent ++ rest));
      [ | done | apply Hexp].
    cbn [mbind option_bind]. unfold exponent. rewrite <- app_assoc.
    rewrite (parse_exponent_layout (n - 1) rest Hx Hstop).
    cbn [mbind option_bind]. do 3 f_equal.
    unfold k. simpl length. lia.
Qed.

Lemma layout_head (ds : list Z) (n : Z) :
  significand ds = true ->
  exists d t, layout ds n = digit_char d :: t /\ is_digit d = true.
Proof.
  intros Hsig.
  destruct (significand_cons ds Hsig) as (d & ds' & -> & Hd & Hd0 & Hds').
  unfold layout.
  destruct ((_ <=? n) && (n <=? 21)); [by eexists d, _ | ].
  destruct ((0 <? n) && (n <=? 21)) eqn:Hb.
  - apply andb_true_iff in Hb as [Hn _]. apply Z.ltb_lt in Hn.
    assert (exists j, Z.to_nat n = S j) as [j ->]
      by (exists (Z.to_nat (n - 1)); lia).
    by eexists d, _.
  - destruct ((-6 <? n) && (n <=? 0)); [by eexists 0, _ | ].
    cbn [map]. destruct (map digit_char ds'); by eexists d, _.
Qed.

Lemma nearest_sign (negative : bool) (a b : Z) :
  nearest negative a b
  = match nearest false a b with
    | Finite _ m e => Finite negative m e
    | Infinite _ => Infinite negative
    end.
Proof.
  unfold nearest. destruct (a =? 0); [done | ].
  destruct (scaled a b _) as [n d].
  destruct (round_half_even n d =? 2 ^ 53);
    match goal with |- context [971 <? ?e] => by destruct (971 <? e) end.
Qed.

Lemma nearest_decimal_sign (negative : bool) (D E m e : Z) :
  nearest_decimal false D E = Finite false m e ->
  nearest_decimal negative D E = Finite negative m e.
Proof.
  unfold nearest_decimal.
  destruct (0 <=? E); rewrite (nearest_sign negative); by intros ->.
Qed.

Lemma digit_char_cases (d : Z) :
  is_digit d = true ->
  let u := digit_char d in
  is_ws u = false /\ (u =? 45)%N = false /\ (u =? 110)%N = false
  /\ (u =? 116)%N = false /\ (u =? 102)%N = false /\ (u =? dquote)%N = false
  /\ (u =? 91)%N = false /\ (u =? 123)%N = false /\ (u =? 93)%N = false.
Proof.
  unfold is_digit. intros H. apply andb_true_iff in H as [H0 H1].
  apply Z.leb_le in H0. apply Z.ltb_lt in H1.
  assert (d = 0 \/ d = 1 \/ d = 2 \/ d = 3 \/ d = 4 \/ d = 5 \/ d = 6 \/ d = 7
          \/ d = 8 \/ d = 9) as Hc by lia.
  intuition (subst; done).
Qed.

(** A double that is written is read back, its zero positive. *)
Lemma number_text_reads (negative : bool) (m e : Z) (rest : text) :
  is_double m e = true ->
  delimited rest ->
  parse_number (number_text (Finite negative m e) ++ rest)
  = Some (Finite (negative && negb (m =? 0)) m e, rest).
Proof.
  intros Hd Hrest. unfold number_text.
  destruct (Z.eqb_spec m 0) as [-> | Hm].
  - assert (e = -1074) as ->.
    { unfold is_double in Hd. repeat (apply andb_true_iff in Hd as [Hd ?]).
      match goal with H : _ || _ = true |- _ => apply orb_true_iff in H as [H | H] end;
        [done | by apply Z.eqb_eq in H]. }
    rewrite andb_false_r.
    change (js "0" ++ rest) with (digit_char 0 :: rest).
    cbn [parse_number]. change (digit_char 0 =? 45)%N with false. cbv iota.
    unfold parse_unsigned.
    rewrite (read_digits_one 0 rest); [ | done | by apply delimited_stops].
    simpl (integer_digits [0]). cbv iota.
    rewrite parse_fraction_none by done. cbn [mbind option_bind].
    rewrite parse_exponent_none by done. done.
  - assert (Hpos : 0 < m).
    { unfold is_double in Hd. repeat (apply andb_true_iff in Hd as [Hd ?]).
      apply Z.leb_le in Hd. lia. }
    rewrite andb_true_r.
    pose proof (shortest_denotes m e Hd Hpos) as Hden.
    destruct (shortest m e) as [ds n]. unfold denotes in Hden. cbn [fst snd] in Hden.
    apply andb_true_iff in Hden as [Hsig Heq]. apply number_eqb_eq in Heq.
    destruct negative.
    + change ((js "-" ++ layout ds n) ++ rest)
        with (45%N :: layout ds n ++ rest).
      cbn [parse_number]. change (45 =? 45)%N with true. cbv iota.
      rewrite (layout_reads true ds n rest Hsig Hrest).
      by rewrite (nearest_decimal_sign true _ _ m e Heq).
    + destruct (layout_head ds n Hsig) as (d & t & Hl & Hdig).
      destruct (digit_char_cases d Hdig) as (_ & Hdash & _).
      pose proof (layout_reads false ds n rest Hsig Hrest) as H.
      rewrite app_nil_l. rewrite Hl in H |- *.
      rewrite <- app_comm_cons in H |- *.
      cbn [parse_number]. rewrite Hdash. by rewrite H, Heq.
Qed.

Lemma number_text_head (negative : bool) (m e : Z) :
  is_double m e = true ->
  exists u t, number_text (Finite negative m e) = u :: t
              /\ (u = 45%N \/ exists d, is_digit d = true /\ u = digit_char d).
Proof.
  intros Hd. unfold number_text. destruct (Z.eqb_spec m 0) as [-> | Hm].
  - exists 48%N, []. split; [done | ]. right. by exists 0.
  - assert (Hpos : 0 < m).
    { unfold is_double in Hd. repeat (apply andb_true_iff in Hd as [Hd ?]).
      apply Z.leb_le in Hd. lia. }
    pose proof (shortest_denotes m e Hd Hpos) as Hden.
    destruct (shortest m e) as [ds n]. unfold denotes in Hden. cbn [fst] in Hden.
    apply andb_true_iff in Hden as [Hsig _].
    destruct (layout_head ds n Hsig) as (d & t & -> & Hdig).
    destruct negative.
    + eexists _, _. split; [reflexivity | by left].
    + eexists _, _. split; [reflexivity | ]. right. by exists d.
Qed.

(** *** Strings *)

Lemma hex_of_hex_digit (n : N) : (n < 16)%N -> hex_of (hex_digit n) = Some n.
Proof.
  intros H. destruct n as [ | p]; [reflexivity | ].
  do 4 (destruct p as [p | p | ]; try reflexivity); lia.
Qed.

Lemma unicode_escape_hex (u : N) :
  (u < 65536)%N ->
  unicode_escape (hex_digit (u / 4096 mod 16)) (hex_digit (u / 256 mod 16))
    (hex_digit (u / 16 mod 16)) (hex_digit (u mod 16))
  = Some u.
Proof.
  intros Hu. unfold unicode_escape.
  rewrite !hex_of_hex_digit by (apply N.mod_lt; lia).
  f_equal.
  pose proof (N.div_mod u 16 ltac:(lia)) as H1.
  pose proof (N.div_mod (u / 16) 16 ltac:(lia)) as H2.
  pose proof (N.div_mod (u / 16 / 16) 16 ltac:(lia)) as H3.
  rewrite N.Div0.div_div in H2, H3. rewrite N.Div0.div_div in H3.
  change (16 * 16 * 16)%N with 4096%N in *. change (16 * 16)%N with 256%N in *.
  assert (u / 4096 < 16)%N by (apply N.Div0.div_lt_upper_bound; lia).
  rewrite (N.mod_small (u / 4096) 16) by lia.
  set (a := (u / 4096)%N) in *. set (b := (u / 256)%N) in *.
  set (c := (u / 16)%N) in *.
  set (b' := (b mod 16)%N) in *. set (c' := (c mod 16)%N) in *.
  set (d' := (u mod 16)%N) in *. lia.
Qed.

Lemma parse_chars_escape (u : N) (tail str rest : text) :
  (u < 65536)%N ->
  parse_chars tail = Some (str, rest) ->
  parse_chars (escape u ++ tail) = Some (u :: str, rest).
Proof.
  intros Hu H. unfold escape. simpl. by rewrite unicode_escape_hex, H.
Qed.

Lemma parse_chars_verbatim (u : N) (tail str rest : text) :
  (32 <= u)%N -> u <> 34%N -> u <> 92%N ->
  parse_chars tail = Some (str, rest) ->
  parse_chars (u :: tail) = Some (u :: str, rest).
Proof.
  intros H32 H34 H92 H. simpl.
  destruct (N.eqb_spec u dquote) as [? | _]; [done | ].
  destruct (N.eqb_spec u backslash) as [? | _]; [done | ].
  destruct (N.ltb_spec u 32) as [? | _]; [lia | ]. by rewrite H.
Qed.

Lemma parse_chars_quote_unit (u : N) (tail str rest : text) :
  parse_chars tail = Some (str, rest) ->
  parse_chars (quote_unit u ++ tail) = Some (u :: str, rest).
Proof.
  intros H. unfold quote_unit.
  destruct (N.eqb_spec u 34) as [-> | ?]; [simpl; by rewrite H | ].
  destruct (N.eqb_spec u 92) as [-> | ?]; [simpl; by rewrite H | ].
  destruct (N.eqb_spec u 8) as [-> | ?]; [simpl; by rewrite H | ].
  destruct (N.eqb_spec u 9) as [-> | ?]; [simpl; by rewrite H | ].
  destruct (N.eqb_spec u 10) as [-> | ?]; [simpl; by rewrite H | ].
  destruct (N.eqb_spec u 12) as [-> | ?]; [simpl; by rewrite H | ].
  destruct (N.eqb_spec u 13) as [-> | ?]; [simpl; by rewrite H | ].
  destruct ((u <? 32)%N || is_high u || is_low u) eqn:Hesc.
  - apply parse_chars_escape; [ | done].
    unfold is_high, is_low in Hesc.
    repeat match goal with
           | H : _ || _ = true |- _ => apply orb_true_iff in H as [H | H]
           | H : _ && _ = true |- _ => apply andb_true_iff in H as [? H]
           end;
      [apply N.ltb_lt in Hesc | apply N.leb_le in Hesc ..]; lia.
  - apply orb_false_iff in Hesc as [Hesc _].
    apply orb_false_iff in Hesc as [Hesc _]. apply N.ltb_ge in Hesc.
    by apply parse_chars_verbatim.
Qed.

Lemma parse_chars_quote (s rest : text) :
  parse_chars (quote_units s ++ dquote :: rest) = Some (s, rest).
Proof.
  assert (H : forall n s, (length s <= n)%nat ->
              parse_chars (quote_units s ++ dquote :: rest) = Some (s, rest));
    [ | by apply (H (length s))].
  clear s. induction n as [ | n IH]; intros s Hn.
  - destruct s; [done | simpl in Hn; lia].
  - destruct s as [ | u [ | v s]]; [done | | ].
    + simpl quote_units. by apply parse_chars_quote_unit.
    + change (quote_units (u :: v :: s))
        with (if is_high u && is_low v then u :: v :: quote_units s
              else quote_unit u ++ quote_units (v :: s)).
      destruct (is_high u && is_low v) eqn:Hpair.
      * apply andb_true_iff in Hpair as [Hu Hv].
        unfold is_high in Hu. unfold is_low in Hv.
        apply andb_true_iff in Hu as [Hu _]. apply N.leb_le in Hu.
        apply andb_true_iff in Hv as [Hv _]. apply N.leb_le in Hv.
        rewrite <- !app_comm_cons.
        apply parse_chars_verbatim; [lia .. | ].
        apply parse_chars_verbatim; [lia .. | ].
        apply IH. simpl in Hn. lia.
      * rewrite <- app_assoc. apply parse_chars_quote_unit.
        apply IH. simpl in Hn |- *. lia.
Qed.

(** *** Property keys *)

Lemma member_fresh (k : text) (acc : list (text * Value)) :
  k ∉ map fst acc -> member k acc = None.
Proof.
  induction acc as [ | [k' v'] acc IH]; simpl; [done | ].
  intros Hk. apply not_elem_of_cons in Hk as [Hne Hk].
  destruct (decide (k = k')) as [? | _]; [done | by apply IH].
Qed.

Lemma ordered_from_prefix (last : Z) (named : bool) (xs ys : list text) :
  ordered_from last named (xs ++ ys) = true -> ordered_from last named xs = true.
Proof.
  revert last named. induction xs as [ | k xs IH]; intros last named; [done | ].
  simpl. destruct (array_index k) as [i | ]; [ | apply IH].
  intros H. apply andb_true_iff in H as [H1 H2]. rewrite H1. by apply IH in H2.
Qed.

(** An index after ordered keys: these are indices too, and smaller. *)
Lemma ordered_from_last_index (last : Z) (named : bool) (ks : list text)
    (k : text) (i : Z) :
  ordered_from last named (ks ++ [k]) = true ->
  array_index k = Some i ->
  last < i /\ named = false.
Proof.
  revert last named. induction ks as [ | k' ks IH]; intros last named; simpl.
  - intros H Hi. rewrite Hi in H.
    apply andb_true_iff in H as [H _]. apply andb_true_iff in H as [Hn Hl].
    apply Z.ltb_lt in Hl. by destruct named.
  - intros H Hi. destruct (array_index k') as [i' | ].
    + apply andb_true_iff in H as [H H2]. apply andb_true_iff in H as [Hn Hl].
      apply Z.ltb_lt in Hl. destruct (IH _ _ H2 Hi) as [? _].
      split; [lia | by destruct named].
    + by destruct (IH _ _ H Hi).
Qed.

Lemma insert_index_last (last : Z) (named : bool) (acc : list (text * Value))
    (k : text) (v : Value) (i : Z) :
  ordered_from last named (map fst acc ++ [k]) = true ->
  array_index k = Some i ->
  insert_index i k v acc = acc ++ [(k, v)].
Proof.
  revert last named. induction acc as [ | [k' v'] acc IH]; intros last named;
    [done | ].
  simpl. intros H Hi. destruct (array_index k') as [i' | ].
  - apply andb_true_iff in H as [_ H2].
    destruct (ordered_from_last_index _ _ _ _ _ H2 Hi) as [Hlt _].
    destruct (Z.ltb_spec i' i) as [_ | ?]; [ | lia].
    by rewrite (IH _ _ H2 Hi).
  - by destruct (ordered_from_last_index _ _ _ _ _ H Hi).
Qed.

(** A member under a new key, one that comes after the keys of the object,
    goes to its end. *)
Lemma set_member_fresh (k : text) (v : Value) (acc : list (text * Value)) :
  k ∉ map fst acc ->
  ordered (map fst acc ++ [k]) = true ->
  set_member k v acc = acc ++ [(k, v)].
Proof.
  intros Hk Hord. unfold set_member. rewrite (member_fresh k acc Hk).
  destruct (array_index k) as [i | ] eqn:Hi; [ | done].
  by apply (insert_index_last (-1) false).
Qed.

(** *** Arrays and objects *)

Lemma blank_inner (indent : text) : blank indent -> blank (nl :: indent).
Proof. intros H. by constructor. Qed.

Lemma blank_indent (indent : text) : blank indent -> blank (indent ++ js "  ").
Proof. intros H. apply Forall_app. split; [done | ]. by repeat constructor. Qed.

Lemma join_single (sep p : text) : join sep [p] = p.
Proof. done. Qed.

Lemma join_cons (sep p q : text) (ps : list text) :
  join sep (p :: q :: ps) = p ++ sep ++ join sep (q :: ps).
Proof. done. Qed.

#[local] Arguments join : simpl never.
#[local] Arguments quote : simpl never.
#[local] Arguments number_text : simpl never.

(** The code units of a literal, computed. *)
Ltac units :=
  repeat match goal with
         | |- context [js (String ?a ?s)] =>
             let t := eval vm_compute in (js (String a s)) in
             change (js (String a s)) with t
         | H : context [js (String ?a ?s)] |- _ =>
             let t := eval vm_compute in (js (String a s)) in
             change (js (String a s)) with t in H
         end.

Lemma json_number_head (x : Number) :
  json (JNum x) = true ->
  exists u t, number_text x = u :: t
              /\ (u = 45%N \/ exists d, is_digit d = true /\ u = digit_char d).
Proof.
  destruct x as [s m e | s]; simpl; [ | done]. apply number_text_head.
Qed.

Lemma number_head_cases (u : N) :
  (u = 45%N \/ exists d, is_digit d = true /\ u = digit_char d) ->
  is_ws u = false /\ (u =? 110)%N = false /\ (u =? 116)%N = false
  /\ (u =? 102)%N = false /\ (u =? dquote)%N = false
  /\ (u =? 91)%N = false /\ (u =? 123)%N = false /\ (u =? 93)%N = false.
Proof.
  intros [-> | (d & Hd & ->)]; [done | ].
  destruct (digit_char_cases d Hd) as (? & _ & ? & ? & ? & ? & ? & ? & ?).
  done.
Qed.

(** A serialized value starts with a character that is neither blank nor
    a closing bracket. *)
Lemma serialize_head (indent : text) (v : Value) :
  json v = true ->
  exists a t, serialize indent v = a :: t
              /\ is_ws a = false /\ (a =? 93)%N = false.
Proof.
  intros Hj.
  destruct v as [ | [] | x | s | [ | i items] | [ | m ms]];
    try (eexists _, _; split; [reflexivity | done]).
  destruct (json_number_head x Hj) as (a & t & Heq & Ha).
  destruct (number_head_cases a Ha) as (? & _ & _ & _ & _ & _ & _ & ?).
  exists a, t. simpl. by rewrite Heq.
Qed.

Lemma quote_app (s rest : text) :
  quote s ++ rest = dquote :: quote_units s ++ dquote :: rest.
Proof. unfold quote. simpl. by rewrite <- app_assoc. Qed.

(** The items of a serialized array, each on its line. *)
Lemma parse_elements_serialize (items : list Value) :
  Forall reads_back items ->
  forallb json items = true ->
  items <> [] ->
  forall (fuel : nat) (inner outer rest : text),
    blank inner -> blank outer ->
    (sum_list_with (fun i => S (weight i)) items <= fuel)%nat ->
    parse_elements fuel
      (nl :: inner
         ++ join (js "," ++ nl :: inner) (map (serialize inner) items)
         ++ nl :: outer ++ js "]" ++ rest)
    = Some (map positive_zeros items, rest).
Proof.
  induction 1 as [ | i items Hi Hitems IH]; [done | ].
  intros Hd _ fuel inner outer rest Hin Hout Hfuel. units.
  simpl in Hd. apply andb_true_iff in Hd as [Hdi Hds].
  destruct fuel as [ | fuel]; [simpl in Hfuel; lia | ].
  destruct items as [ | i2 items]; simpl in Hfuel.
  - pose proof (Hi Hdi fuel inner (nl :: inner)
                  (nl :: outer ++ 93%N :: rest) Hin
                  (blank_inner _ Hin) ltac:(lia) ltac:(done)) as Hv.
    simpl in Hv |- *. rewrite join_single, Hv.
    simpl. rewrite skip_ws_blank by done. done.
  - specialize (IH Hds ltac:(done) fuel inner outer rest Hin Hout
                  ltac:(simpl; lia)).
    simpl in IH |- *. rewrite join_cons, <- !app_assoc. simpl.
    match goal with
    | |- context [parse_value fuel (nl :: inner ++ serialize inner i ++ ?r)] =>
        pose proof (Hi Hdi fuel inner (nl :: inner) r Hin
                      (blank_inner _ Hin) ltac:(lia) ltac:(done)) as Hv
    end.
    simpl in Hv. rewrite Hv. simpl. by rewrite IH.
Qed.

Lemma skip_to_member (k : text) (inner body : text) :
  blank inner ->
  skip_ws (nl :: inner ++ (quote k ++ body))
  = dquote :: quote_units k ++ dquote :: body.
Proof.
  intros Hin.
  change (nl :: inner ++ (quote k ++ body))
    with ((nl :: inner) ++ (quote k ++ body)).
  rewrite skip_ws_blank by by apply blank_inner.
  by rewrite quote_app.
Qed.

Lemma map_fst_read_member (ms : list (text * Value)) :
  map fst (map read_member ms) = map fst ms.
Proof. induction ms as [ | m ms IH]; simpl; [done | by rewrite IH]. Qed.

(** The members of a serialized object, each on its line, added to the
    members [acc] read so far. *)
Lemma parse_members_serialize (ms : list (text * Value)) :
  Forall (fun m => reads_back (snd m)) ms ->
  forallb (fun m => json (snd m)) ms = true ->
  ms <> [] ->
  forall (fuel : nat) (acc : list (text * Value)) (inner outer rest : text),
    blank inner -> blank outer ->
    NoDup (map fst acc ++ map fst ms) ->
    ordered (map fst acc ++ map fst ms) = true ->
    (sum_list_with (fun m => S (weight (snd m))) ms <= fuel)%nat ->
    parse_members fuel acc
      (nl :: inner
         ++ join (js "," ++ nl :: inner)
              (map (fun m => quote (fst m) ++ js ": "
                               ++ serialize inner (snd m)) ms)
         ++ nl :: outer ++ js "}" ++ rest)
    = Some (acc ++ map read_member ms, rest).
Proof.
  induction 1 as [ | [k v] ms Hv Hms IH]; [done | ].
  intros Hd _ fuel acc inner outer rest Hin Hout Hnd Hord Hfuel. units.
  simpl in Hd, Hv. apply andb_true_iff in Hd as [Hdv Hds].
  destruct fuel as [ | fuel]; [simpl in Hfuel; lia | ].
  assert (Hfresh : k ∉ map fst acc).
  { apply NoDup_app in Hnd as (_ & Hdisj & _).
    intros Hk. apply (Hdisj k Hk). simpl. by left. }
  assert (Hlast : ordered (map fst acc ++ [k]) = true).
  { cbn [map fst] in Hord.
    change (k :: map fst ms) with ([k] ++ map fst ms) in Hord.
    rewrite app_assoc in Hord. by apply ordered_from_prefix in Hord. }
  destruct ms as [ | m2 ms]; simpl in Hfuel.
  - cbn [map fst snd]. rewrite join_single, <- !app_assoc.
    cbn [parse_members].
    rewrite skip_to_member by done.
    change (dquote =? dquote)%N with true. cbn iota.
    rewrite parse_chars_quote. simpl.
    pose proof (Hv Hdv fuel inner [32%N]
                  (nl :: outer ++ 125%N :: rest) Hin
                  ltac:(by repeat constructor) ltac:(lia) ltac:(done)) as H.
    simpl in H. rewrite H. simpl.
    rewrite set_member_fresh by done.
    rewrite skip_ws_blank by done. done.
  - cbn [map fst snd]. rewrite join_cons, <- !app_assoc.
    cbn [parse_members].
    rewrite skip_to_member by done.
    change (dquote =? dquote)%N with true. cbn iota.
    rewrite parse_chars_quote. simpl.
    match goal with
    | |- context [parse_value fuel (32%N :: serialize inner v ++ ?r)] =>
        pose proof (Hv Hdv fuel inner [32%N] r Hin
                      ltac:(by repeat constructor) ltac:(lia) ltac:(done)) as H
    end.
    simpl in H. rewrite H. simpl.
    rewrite set_member_fresh by done.
    specialize (IH Hds ltac:(done) fuel (acc ++ [(k, positive_zeros v)])
                  inner outer rest Hin Hout).
    rewrite <- app_assoc in IH. apply IH.
    + rewrite map_app, <- app_assoc. exact Hnd.
    + rewrite map_app, <- app_assoc. exact Hord.
    + simpl. lia.
Qed.

Lemma join_head (sep p : text) (ps : list text) :
  exists t, join sep (p :: ps) = p ++ t.
Proof.
  destruct ps as [ | q ps].
  - exists []. by rewrite join_single, app_nil_r.
  - eexists. by rewrite join_cons.
Qed.

Lemma parse_value_bracket (fuel : nat) (pre r : text) :
  blank pre ->
  parse_value (S fuel) (pre ++ 91%N :: r)
  = match skip_ws r with
    | b :: r' =>
        if (b =? 93)%N then Some (JArr [], r')
        else '(items, r'') ← parse_elements fuel r; Some (JArr items, r'')
    | [] => None
    end.
Proof. intros H. cbn [parse_value]. by rewrite skip_ws_blank. Qed.

Lemma parse_value_brace (fuel : nat) (pre r : text) :
  blank pre ->
  parse_value (S fuel) (pre ++ 123%N :: r)
  = match skip_ws r with
    | b :: r' =>
        if (b =? 125)%N then Some (JObj [], r')
        else '(ms, r'') ← parse_members fuel [] r; Some (JObj ms, r'')
    | [] => None
    end.
Proof. intros H. cbn [parse_value]. by rewrite skip_ws_blank. Qed.

(** Every value of JSON is read back from its serialization. *)
Lemma serialize_reads_back (v : Value) : reads_back v.
Proof.
  induction v as [ | b | x | s | items IH | ms IH] using Value_nested_ind;
    intros Hd fuel indent pre rest Hind Hpre Hfuel Hrest;
    (destruct fuel as [ | fuel]; [simpl in Hfuel; lia | ]).
  - cbn [parse_value serialize]. rewrite skip_ws_blank by done. done.
  - cbn [parse_value serialize]. rewrite skip_ws_blank by done.
    by destruct b.
  - destruct (json_number_head x Hd) as (a & t & Heq & Ha).
    destruct (number_head_cases a Ha)
      as (Hws & Hn & Ht & Hf & Hq & Hb & Hc & _).
    destruct x as [neg m e | neg]; [ | done]. simpl in Hd.
    cbn [parse_value serialize]. rewrite skip_ws_blank by done.
    pose proof (number_text_reads neg m e rest Hd Hrest) as Hnum.
    rewrite Heq in Hnum |- *. rewrite <- app_comm_cons in Hnum |- *.
    cbn [skip_ws]. rewrite Hws, Hn, Ht, Hf, Hq, Hb, Hc.
    by rewrite Hnum.
  - cbn [parse_value serialize]. rewrite skip_ws_blank by done.
    rewrite quote_app. simpl. by rewrite parse_chars_quote.
  - destruct items as [ | i items].
    { cbn [parse_value serialize]. rewrite skip_ws_blank by done. done. }
    set (inner := indent ++ js "  ").
    assert (Hinner : blank inner) by by apply blank_indent.
    assert (Htext : serialize indent (JArr (i :: items)) ++ rest
                    = 91%N :: nl :: inner
                        ++ join (js "," ++ nl :: inner)
                             (map (serialize inner) (i :: items))
                        ++ nl :: indent ++ js "]" ++ rest).
    { cbn [serialize]. fold inner. simpl.
      repeat (rewrite <- app_assoc; simpl). done. }
    rewrite Htext. change (pre ++ 91%N :: ?r) with (pre ++ 91%N :: r).
    rewrite parse_value_bracket by done.
    assert (Hji : json i = true).
    { simpl in Hd. by apply andb_true_iff in Hd as [? _]. }
    destruct (serialize_head inner i Hji) as (a & t & Ha & Hws & Hclose).
    destruct (join_head (js "," ++ nl :: inner) (serialize inner i)
                (map (serialize inner) items)) as [t' Ht'].
    assert (Hskip : skip_ws (nl :: inner
                      ++ join (js "," ++ nl :: inner)
                           (map (serialize inner) (i :: items))
                      ++ nl :: indent ++ js "]" ++ rest)
                    = a :: t ++ t' ++ nl :: indent ++ js "]" ++ rest).
    { change (nl :: inner ++ ?x) with ((nl :: inner) ++ x).
      rewrite skip_ws_blank by by apply blank_inner.
      cbn [map]. rewrite Ht', Ha. simpl. by rewrite Hws, <- app_assoc. }
    rewrite Hskip, Hclose.
    rewrite (parse_elements_serialize (i :: items) IH); try done.
    simpl in Hfuel |- *. lia.
  - destruct ms as [ | [k v] ms].
    { cbn [parse_value serialize]. rewrite skip_ws_blank by done. done. }
    set (inner := indent ++ js "  ").
    assert (Hinner : blank inner) by by apply blank_indent.
    simpl in Hd. apply andb_true_iff in Hd as [Hnd Hd].
    apply andb_true_iff in Hnd as [Hnd Hord].
    apply bool_decide_eq_true in Hnd.
    assert (Htext : serialize indent (JObj ((k, v) :: ms)) ++ rest
                    = 123%N :: nl :: inner
                        ++ join (js "," ++ nl :: inner)
                             (map (fun m => quote (fst m) ++ js ": "
                                              ++ serialize inner (snd m))
                                  ((k, v) :: ms))
                        ++ nl :: indent ++ js "}" ++ rest).
    { cbn [serialize]. fold inner. simpl.
      repeat (rewrite <- app_assoc; simpl). done. }
    rewrite Htext, parse_value_brace by done.
    match goal with
    | |- context [skip_ws (nl :: inner ++ ?j ++ ?r)] =>
        assert (Hskip : exists body, skip_ws (nl :: inner ++ j ++ r)
                                     = dquote :: body)
    end.
    { destruct (join_head (js "," ++ nl :: inner)
                  (quote k ++ js ": " ++ serialize inner v)
                  (map (fun m => quote (fst m) ++ js ": "
                                   ++ serialize inner (snd m)) ms))
        as [t' Ht'].
      eexists. cbn [map fst snd]. rewrite Ht', <- !app_assoc.
      by rewrite skip_to_member. }
    destruct Hskip as [body Hskip]. rewrite Hskip.
    change (dquote =? 125)%N with false. cbv iota.
    rewrite (parse_members_serialize ((k, v) :: ms) IH); try done.
    simpl in Hfuel |- *. lia.
Qed.

(** *** The recursion depth suffices *)
Lemma join_length {A : Type} (f : A -> text) (g : A -> nat) (sep : text)
    (l : list A) :
  Forall (fun x => (g x <= length (f x))%nat) l ->
  (1 <= length sep)%nat ->
  (sum_list_with (fun x => S (g x)) l <= S (length (join sep (map f l))))%nat.
Proof.
  intros Hl Hsep. induction Hl as [ | x l Hx Hl IH]; [simpl; lia | ].
  destruct l as [ | y l].
  - simpl. rewrite join_single. lia.
  - cbn [map] in IH |- *. rewrite join_cons, !length_app.
    cbn [sum_list_with] in IH |- *. lia.
Qed.

(** The serialization of a value is at least as long as the value is
    deep, so the recursion depth [JSON.parse] allows itself is enough. *)
Lemma weight_le_length (v : Value) (indent : text) :
  json v = true -> (weight v <= length (serialize indent v))%nat.
Proof.
  revert indent.
  induction v as [ | b | x | s | items IH | ms IH] using Value_nested_ind;
    intros indent Hj.
  - simpl. lia.
  - destruct b; simpl; lia.
  - destruct (json_number_head x Hj) as (a & t & Heq & _).
    simpl. rewrite Heq. simpl. lia.
  - unfold serialize, quote. simpl. lia.
  - destruct items as [ | i items]; [simpl; lia | ].
    cbn [serialize weight].
    set (inner := indent ++ js "  ").
    pose proof (join_length (serialize inner) weight (js "," ++ nl :: inner)
                  (i :: items)) as H.
    rewrite !length_app. simpl length. rewrite !length_app.
    cbn [json] in Hj. rewrite forallb_forall in Hj.
    assert (Hitems : Forall (fun x => (weight x <= length (serialize inner x))%nat)
                       (i :: items)).
    { rewrite Forall_forall in IH |- *. intros x Hx. apply IH; [done | ].
      apply Hj. by apply list_elem_of_In. }
    specialize (H Hitems ltac:(simpl; lia)).
    simpl length in H. lia.
  - destruct ms as [ | m ms]; [simpl; lia | ].
    cbn [serialize weight].
    set (inner := indent ++ js "  ").
    pose proof (join_length
                  (fun m => quote (fst m) ++ js ": " ++ serialize inner (snd m))
                  (fun m => weight (snd m)) (js "," ++ nl :: inner)
                  (m :: ms)) as H.
    rewrite !length_app. simpl length. rewrite !length_app.
    cbn [json] in Hj. apply andb_true_iff in Hj as [_ Hj].
    rewrite forallb_forall in Hj.
    assert (Hms : Forall (fun m : text * Value =>
                    (weight (snd m)
                     <= length (quote (fst m) ++ js ": "
                                  ++ serialize inner (snd m)))%nat) (m :: ms)).
    { rewrite Forall_forall in IH |- *. intros x Hx.
      rewrite !length_app.
      specialize (IH x Hx inner (Hj x ltac:(by apply list_elem_of_In))). lia. }
    specialize (H Hms ltac:(simpl; lia)).
    simpl length in H. lia.
Qed.

(** [JSON.parse(JSON.stringify(v, null, 2))] is [v] with positive zeros. *)
Lemma parse_stringify_json (v : Value) :
  json v = true -> parse (stringify v) = Some (positive_zeros v).
Proof.
  intros Hd. unfold parse, stringify.
  pose proof (serialize_reads_back v Hd
                (2 * length (serialize [] v) + 2)%nat [] [] []
                ltac:(constructor) ltac:(constructor)) as H.
  simpl app in H. rewrite app_nil_r in H. rewrite H; [done | | done].
  pose proof (weight_le_length v [] Hd). lia.
Qed.


Lemma positive_zeros_serializable (v : Value) :
  serializable v = true -> positive_zeros v = v.
Proof.
  induction v as [ | b | x | s | items IH | ms IH] using Value_nested_ind;
    try done.
  - destruct x as [neg m e | neg]; simpl; [ | done].
    intros [_ H]%andb_true_iff. destruct neg; [ | done].
    simpl in H |- *. apply negb_true_iff in H. by rewrite H.
  - simpl. intros H. f_equal. rewrite forallb_forall in H.
    induction IH as [ | x l Hx _ IHl]; [done | ]. simpl.
    rewrite Hx by (apply H; by left). f_equal. apply IHl.
    intros y Hy. apply H. by right.
  - simpl. intros [_ H]%andb_true_iff. f_equal. rewrite forallb_forall in H.
    induction IH as [ | [k x] l Hx _ IHl]; [done | ]. simpl in *.
    rewrite Hx by (apply (H (k, x)); by left). f_equal. apply IHl.
    intros y Hy. apply H. by right.
Qed.


Lemma same_number_refl_zeros (s : bool) (m e : Z) :
  same_number (Finite s m e) (Finite (s && negb (m =? 0)) m e) = true.
Proof.
  simpl. destruct (m =? 0) eqn:Hm; [done | ].
  rewrite andb_true_r, !Z.eqb_refl. by destruct s.
Qed.

(** A value and the value with positive zeros are equal by [===]. *)
Lemma equal_positive_zeros (v : Value) : equal v (positive_zeros v) = true.
Proof.
  induction v as [ | b | x | s | items IH | ms IH] using Value_nested_ind.
  - done.
  - by destruct b.
  - destruct x as [neg m e | neg]; [apply same_number_refl_zeros | ].
    simpl. by destruct neg.
  - simpl. by apply bool_decide_eq_true.
  - simpl. induction IH as [ | x l Hx _ IHl]; [done | ].
    simpl. by rewrite Hx, IHl.
  - simpl. induction IH as [ | [k x] l Hx _ IHl]; [done | ].
    simpl in *. rewrite Hx, IHl. by rewrite bool_decide_eq_true_2.
Qed.

(** *** The encoding of the file

    What [JSON.stringify] writes holds no surrogate on its own, so the file
    gives it back as it was written. *)

Lemma paired_app (s t : text) : paired s -> paired t -> paired (s ++ t).
Proof.
  induction 1 as [ | u s Hu Hl Hs IH | u v s Hu Hv Hs IH]; intros Ht; simpl;
    [done | apply paired_unit; auto | apply paired_pair; auto].
Qed.

Lemma paired_plain (s : text) :
  Forall (fun u => (u < 55296)%N) s -> paired s.
Proof.
  induction 1 as [ | u s Hu Hs IH]; [constructor | ].
  constructor; [ | | done].
  - unfold is_high. apply andb_false_iff. left. apply N.leb_gt. lia.
  - unfold is_low. apply andb_false_iff. left. apply N.leb_gt. lia.
Qed.

Lemma plain_check (s : text) :
  forallb (fun u => (u <? 55296)%N) s = true ->
  Forall (fun u => (u < 55296)%N) s.
Proof.
  intros H. apply Forall_forall. intros u Hu.
  rewrite forallb_forall in H. apply list_elem_of_In in Hu.
  apply N.ltb_lt. by apply H.
Qed.

(** A literal holds no surrogate. *)
Ltac plain := apply plain_check; vm_compute; reflexivity.

Lemma utf8_paired (s : text) : paired s -> Fs.utf8 s = s.
Proof.
  induction 1 as [ | u s Hu Hl Hs IH | u v s Hu Hv Hs IH]; [done | | ].
  - destruct s as [ | v s]; simpl; rewrite Hu, Hl; simpl; [done | ].
    simpl in IH. by rewrite IH.
  - simpl. rewrite Hu, Hv. simpl. by rewrite IH.
Qed.

Lemma plain_digits (ds : list Z) :
  Forall (fun d => d < 10) ds ->
  Forall (fun u => (u < 55296)%N) (map digit_char ds).
Proof.
  intros H. apply Forall_map. eapply Forall_impl; [exact H | ].
  intros d Hd. simpl in Hd. unfold digit_char. lia.
Qed.

Lemma is_digit_below (ds : list Z) :
  forallb is_digit ds = true -> Forall (fun d => d < 10) ds.
Proof.
  intros H. apply Forall_forall. intros d Hd.
  rewrite forallb_forall in H. apply list_elem_of_In in Hd.
  specialize (H d Hd). unfold is_digit in H. lia.
Qed.

Lemma digits_of_below (n : Z) : Forall (fun d => d < 10) (digits_of n).
Proof.
  destruct (Z.le_gt_cases 0 n) as [Hn | Hn].
  - by apply is_digit_below, digits_of_digits.
  - unfold digits_of. rewrite Z.log2_nonpos by lia. simpl.
    constructor; [lia | constructor].
Qed.

Lemma shortest_below (m e : Z) :
  Forall (fun d => d < 10) (fst (shortest m e)).
Proof.
  unfold shortest. destruct (exact m e) as [a b].
  destruct (List.find _ _) as [c | ] eqn:Hfind.
  - apply find_some in Hfind as [_ Hc]. unfold denotes in Hc.
    apply andb_true_iff in Hc as [Hc _]. unfold significand in Hc.
    apply andb_true_iff in Hc as [Hc _]. by apply is_digit_below.
  - unfold every_digit. destruct (0 <=? e); simpl; apply digits_of_below.
Qed.

Lemma plain_repeat (u : N) (n : nat) :
  (u < 55296)%N -> Forall (fun u => (u < 55296)%N) (repeat u n).
Proof. intros Hu. induction n; simpl; by constructor. Qed.

Lemma plain_layout (ds : list Z) (n : Z) :
  Forall (fun d => d < 10) ds -> Forall (fun u => (u < 55296)%N) (layout ds n).
Proof.
  intros Hds. pose proof (plain_digits ds Hds) as Hcs. unfold layout.
  assert (Hzero : (zero < 55296)%N) by reflexivity.
  assert (Hdot : (dot < 55296)%N) by reflexivity.
  assert (Hexp : forall (b : bool) (x : Z),
            Forall (fun u => (u < 55296)%N)
              (js (if b then "e-" else "e+") ++ map digit_char (digits_of x))).
  { intros b x. apply Forall_app. split; [ | apply plain_digits, digits_of_below].
    destruct b; plain. }
  cbv zeta. destruct (_ && _).
  { apply Forall_app. split; [done | by apply plain_repeat]. }
  destruct (_ && _).
  { apply Forall_app. split; [by apply Forall_take | ].
    constructor; [done | by apply Forall_drop]. }
  destruct (_ && _).
  { apply Forall_app. split; [plain | ].
    apply Forall_app. split; [by apply plain_repeat | done]. }
  destruct Hcs as [ | c cs Hc Hcs]; [constructor | ].
  destruct Hcs as [ | c' cs Hc' Hcs].
  - constructor; [done | apply Hexp].
  - constructor; [done | ]. constructor; [done | ].
    change (Forall (fun u => (u < 55296)%N)
              ((c' :: cs) ++ js (if n - 1 <? 0 then "e-" else "e+")
                 ++ map digit_char (digits_of (Z.abs (n - 1))))).
    apply Forall_app. split; [by constructor | apply Hexp].
Qed.

Lemma paired_number_text (x : Number) : paired (number_text x).
Proof.
  apply paired_plain. unfold number_text.
  destruct x as [negative m e | negative]; [ | plain].
  destruct (m =? 0); [plain | ].
  apply Forall_app. split.
  - destruct negative; [plain | constructor].
  - pose proof (shortest_below m e) as H.
    destruct (shortest m e) as [ds n]. by apply plain_layout.
Qed.

Lemma paired_escape (u : N) : paired (escape u).
Proof.
  assert (H : forall n, (n < 16)%N -> (hex_digit n < 55296)%N).
  { intros n Hn. unfold hex_digit. destruct (n <? 10)%N; lia. }
  apply paired_plain. unfold escape. units. simpl.
  repeat constructor; apply H; by apply N.mod_lt.
Qed.

Lemma paired_quote_unit (u : N) : paired (quote_unit u).
Proof.
  unfold quote_unit.
  destruct (u =? 34)%N; [apply paired_plain; plain | ].
  destruct (u =? 92)%N; [apply paired_plain; plain | ].
  destruct (u =? 8)%N; [apply paired_plain; plain | ].
  destruct (u =? 9)%N; [apply paired_plain; plain | ].
  destruct (u =? 10)%N; [apply paired_plain; plain | ].
  destruct (u =? 12)%N; [apply paired_plain; plain | ].
  destruct (u =? 13)%N; [apply paired_plain; plain | ].
  destruct ((u <? 32)%N || is_high u || is_low u) eqn:H;
    [apply paired_escape | ].
  apply orb_false_iff in H as [H Hl]. apply orb_false_iff in H as [_ Hh].
  apply paired_unit; [done | done | constructor].
Qed.

Lemma paired_quote_units (s : text) : paired (quote_units s).
Proof.
  assert (H : forall n s, (length s <= n)%nat -> paired (quote_units s));
    [ | by apply (H (length s))].
  clear s. induction n as [ | n IH]; intros s Hn.
  - destruct s; [constructor | simpl in Hn; lia].
  - destruct s as [ | u [ | v s]]; [constructor | apply paired_quote_unit | ].
    change (quote_units (u :: v :: s))
      with (if is_high u && is_low v then u :: v :: quote_units s
            else quote_unit u ++ quote_units (v :: s)).
    destruct (is_high u && is_low v) eqn:Hpair.
    + apply andb_true_iff in Hpair as [Hu Hv].
      constructor; [done | done | ]. apply IH. simpl in Hn. lia.
    + apply paired_app; [apply paired_quote_unit | ].
      apply IH. simpl in Hn |- *. lia.
Qed.

Lemma paired_quote (s : text) : paired (quote s).
Proof.
  assert (Hq : paired [dquote]) by (apply paired_plain; plain).
  unfold quote. apply (paired_app [dquote]); [done | ].
  by apply paired_app; [apply paired_quote_units | ].
Qed.

Lemma paired_join (sep : text) (parts : list text) :
  paired sep -> Forall paired parts -> paired (join sep parts).
Proof.
  intros Hsep. induction 1 as [ | p ps Hp Hps IH]; [constructor | ].
  destruct ps as [ | q ps]; [by rewrite join_single | ].
  rewrite join_cons. by repeat apply paired_app.
Qed.

Lemma paired_serialize (v : Value) :
  forall indent : text, paired indent -> paired (serialize indent v).
Proof.
  assert (Hnl : forall t, paired t -> paired (nl :: t)).
  { intros t Ht. by apply (paired_app [nl]);
      [apply paired_plain; plain | ]. }
  assert (Hlit : forall s : string,
            Forall (fun u => (u < 55296)%N) (js s) -> paired (js s))
    by (intros s; apply paired_plain).
  induction v as [ | b | x | s | items IH | ms IH] using Value_nested_ind;
    intros indent Hind.
  - apply Hlit. plain.
  - destruct b; apply Hlit; plain.
  - apply paired_number_text.
  - apply paired_quote.
  - destruct items as [ | i items];
      [apply Hlit; plain | ].
    assert (Hinner : paired (indent ++ js "  ")).
    { apply paired_app; [done | ]. apply Hlit. plain. }
    cbn [serialize]. set (inner := indent ++ js "  ") in *.
    apply paired_app; [apply Hlit; plain | ].
    apply Hnl. apply paired_app; [done | ].
    apply paired_app.
    + apply paired_join.
      * apply paired_app; [apply Hlit; plain | ].
        by apply Hnl.
      * apply Forall_map. eapply Forall_impl; [exact IH | ].
        intros w Hw. by apply Hw.
    + apply Hnl. apply paired_app; [done | ].
      apply Hlit. plain.
  - destruct ms as [ | m ms];
      [apply Hlit; plain | ].
    assert (Hinner : paired (indent ++ js "  ")).
    { apply paired_app; [done | ]. apply Hlit. plain. }
    cbn [serialize]. set (inner := indent ++ js "  ") in *.
    apply paired_app; [apply Hlit; plain | ].
    apply Hnl. apply paired_app; [done | ].
    apply paired_app.
    + apply paired_join.
      * apply paired_app; [apply Hlit; plain | ].
        by apply Hnl.
      * apply Forall_map. eapply Forall_impl; [exact IH | ].
        intros [k w] Hw. cbn [fst snd] in *.
        apply paired_app; [apply paired_quote | ].
        apply paired_app; [apply Hlit; plain | ].
        by apply Hw.
    + apply Hnl. apply paired_app; [done | ].
      apply Hlit. plain.
Qed.

(** The file gives back what [JSON.stringify] wrote. *)
Lemma utf8_stringify (v : Value) : Fs.utf8 (stringify v) = stringify v.
Proof. apply utf8_paired, paired_serialize. constructor. Qed.

End Codec.

(** * Properties *)

Module Properties.
Import JSON Fs ItemRepository Scenarios.

Arguments parse : simpl never.
Arguments stringify : simpl never.

(** The file after [fs.writeFile] of what [JSON.stringify] made. *)
Lemma writeFile_stringify (data : Value) (st : Store) :
  writeFile (stringify data) st
  = if read_only st then (Err EACCES, st)
    else (Ok tt,
          mkStore (Some (mkFile (stringify data) (clock st)))
            (read_only st) (clock st)).
Proof. unfold writeFile. by rewrite Codec.utf8_stringify. Qed.

(** ** Runs and traces *)

Lemma run_app (es1 es2 : list event) (S : System) :
  run (es1 ++ es2) S = run es2 (run es1 S).
Proof. unfold run. apply foldl_app. Qed.

Lemma step_trace (S : System) (e : event) :
  exists t, trace (step S e) = trace S ++ t.
Proof.
  destruct e as [ | data | ty | i | st]; simpl; unfold start.
  - destruct (readData (cache S)) as [c [f | r]]; simpl; eauto.
    exists []. by rewrite app_nil_r.
  - exists []. by rewrite app_nil_r.
  - destruct (watchFile_callback ty (cache S)) as [c [f | r]]; simpl; eauto.
    exists []. by rewrite app_nil_r.
  - destruct (pending S !! i) as [f | ]; [ | exists []; by rewrite app_nil_r].
    destruct (resume f (store S)) as [st t].
    destruct (t (cache S)) as [c [f' | r]]; simpl; eauto.
  - exists []. by rewrite app_nil_r.
Qed.

Lemma run_trace (es : list event) (S : System) :
  exists t, trace (run es S) = trace S ++ t.
Proof.
  revert S. induction es as [ | e es IH]; intros S; simpl.
  - exists []. by rewrite app_nil_r.
  - destruct (step_trace S e) as [t1 H1].
    destruct (IH (step S e)) as [t2 H2].
    exists (t1 ++ t2). unfold run in *. simpl. rewrite H2, H1.
    by rewrite app_assoc.
Qed.

Lemma trace_emitted (es : list event) (S : System) :
  trace (run es S) = trace S ++ emitted es S.
Proof.
  unfold emitted. destruct (run_trace es S) as [t H].
  rewrite H. by rewrite drop_app_length.
Qed.

Lemma emitted_intro (es : list event) (S : System) (t : list obs) :
  trace (run es S) = trace S ++ t -> emitted es S = t.
Proof. intros H. unfold emitted. rewrite H. apply drop_app_length. Qed.

Lemma emitted_app (es1 es2 : list event) (S : System) :
  emitted (es1 ++ es2) S = emitted es1 S ++ emitted es2 (run es1 S).
Proof.
  apply emitted_intro. rewrite run_app.
  rewrite (trace_emitted es2), (trace_emitted es1). by rewrite app_assoc.
Qed.

(** ** One call at a time *)

(** A read that finds the cache populated. *)
Lemma read_hit (S : System) :
  pending S = [] ->
  present (cache S) = true ->
  run read S =
    mkSystem (store S) (cache S) []
      (trace S ++ [Settled ReadData (Return (Some (cachedData (cache S))))]).
Proof.
  intros Hidle Hp. unfold present in Hp.
  unfold run, read. simpl. unfold start, readData. rewrite Hp. simpl.
  by rewrite Hidle.
Qed.

(** A read that finds it empty, by what the file answers. *)
Lemma read_miss (S : System) :
  pending S = [] ->
  present (cache S) = false ->
  run read S =
    match readFile (store S) with
    | Err e =>
        mkSystem (store S) (cache S) []
          (trace S ++ [Access ReadFile; Settled ReadData (Throw (IOError e))])
    | Ok raw =>
        match parse raw with
        | None =>
            mkSystem (store S) (cache S) []
              (trace S ++ [Access ReadFile; Settled ReadData (Throw SyntaxError)])
        | Some v =>
            match stat (store S) with
            | Ok stats =>
                mkSystem (store S) (mkState v (Some (mtime stats))) []
                  (trace S ++ [Access ReadFile; Access Stat;
                               Settled ReadData (Return (Some v))])
            | Err e =>
                mkSystem (store S) (mkState v (lastFileMtime (cache S))) []
                  (trace S ++ [Access ReadFile; Access Stat;
                               Settled ReadData (Throw (IOError e))])
            end
        end
    end.
Proof.
  intros Hidle Hp. unfold present in Hp.
  unfold run, read. simpl. unfold start, readData. rewrite Hp, Hidle. simpl.
  unfold readData_after_readFile.
  destruct (readFile (store S)) as [raw | e]; simpl; [ | done].
  destruct (parse raw) as [v | ]; simpl; [ | done].
  unfold readData_after_stat.
  destruct (stat (store S)) as [stats | e]; simpl;
    by rewrite <- app_assoc.
Qed.

(** A write, by what the file answers. *)
Lemma write_run (S : System) (data : Value) :
  pending S = [] ->
  run (write data) S =
    match writeFile (stringify data) (store S) with
    | (Err e, st) =>
        mkSystem st (cache S) []
          (trace S ++ [Access (WriteFile (stringify data));
                       Settled WriteData (Throw (IOError e))])
    | (Ok _, st) =>
        match stat st with
        | Ok stats =>
            mkSystem st (mkState JNull (Some (mtime stats))) []
              (trace S ++ [Access (WriteFile (stringify data)); Access Stat;
                           Settled WriteData (Return None)])
        | Err e =>
            mkSystem st (mkState JNull (lastFileMtime (cache S))) []
              (trace S ++ [Access (WriteFile (stringify data)); Access Stat;
                           Settled WriteData (Throw (IOError e))])
        end
    end.
Proof.
  intros Hidle. unfold run, write. simpl. unfold start, writeData.
  rewrite Hidle. simpl.
  destruct (writeFile (stringify data) (store S)) as [[u | e] st]; simpl;
    [ | done].
  unfold writeData_after_stat.
  destruct (stat st) as [stats | e]; simpl; by rewrite <- app_assoc.
Qed.

(** A change notification, by what the file answers. *)
Lemma notify_change_run (S : System) :
  pending S = [] ->
  run (notify "change") S =
    mkSystem (store S)
      (match stat (store S) with
       | Ok stats =>
           if mtime_changed stats (lastFileMtime (cache S))
           then mkState JNull (Some (mtime stats))
           else cache S
       | Err _ => mkState JNull (lastFileMtime (cache S))
       end)
      []
      (trace S ++ [Access Stat; Settled WatchCallback (Return None)]).
Proof.
  intros Hidle. unfold run, notify. simpl. unfold start. simpl.
  rewrite Hidle. simpl. unfold watchFile_after_stat.
  destruct (stat (store S)) as [stats | e]; simpl; [ | done].
  by destruct (mtime_changed stats (lastFileMtime (cache S))).
Qed.

(** In this model of the file, what can be read can be inspected. *)
Lemma readFile_stat (st : Store) (raw : text) :
  readFile st = Ok raw -> exists stats, stat st = Ok stats.
Proof.
  unfold readFile, stat. destruct (file st) as [f | ]; [eauto | done].
Qed.

(** The first resumption of a read that found the cache empty, the file
    being in state [st1] when it is read. *)
Lemma read_first_turn (S : System) (st1 : Store) :
  pending S = [] ->
  present (cache S) = false ->
  run [Call_readData; External st1; Resume 0] S =
    match readFile st1 with
    | Err e =>
        mkSystem st1 (cache S) []
          (trace S ++ [Access ReadFile; Settled ReadData (Throw (IOError e))])
    | Ok raw =>
        match parse raw with
        | None =>
            mkSystem st1 (cache S) []
              (trace S ++ [Access ReadFile; Settled ReadData (Throw SyntaxError)])
        | Some v =>
            mkSystem st1 (mkState v (lastFileMtime (cache S))) [readData_stat]
              (trace S ++ [Access ReadFile])
        end
    end.
Proof.
  intros Hidle Hp. unfold present in Hp.
  unfold run. simpl. unfold start, readData. rewrite Hp, Hidle. simpl.
  unfold readData_after_readFile.
  destruct (readFile st1) as [raw | e]; simpl; [ | done].
  by destruct (parse raw) as [v | ].
Qed.

(** The first resumption of a write, the file being in state [st1] when
    it is written. *)
Lemma write_first_turn (S : System) (data : Value) (st1 : Store) :
  pending S = [] ->
  run [Call_writeData data; External st1; Resume 0] S =
    match writeFile (stringify data) st1 with
    | (Err e, st) =>
        mkSystem st (cache S) []
          (trace S ++ [Access (WriteFile (stringify data));
                       Settled WriteData (Throw (IOError e))])
    | (Ok _, st) =>
        mkSystem st (mkState JNull (lastFileMtime (cache S))) [writeData_stat]
          (trace S ++ [Access (WriteFile (stringify data))])
    end.
Proof.
  intros Hidle. unfold run. simpl. unfold start, writeData.
  rewrite Hidle. simpl.
  by destruct (writeFile (stringify data) st1) as [[u | e] st].
Qed.

(** ** Sequential behaviour: calls that do not overlap *)

Section Sequential.

Variable S : System.
Hypothesis idle : pending S = [].

(** C1 (write-then-read coherence).  For every collection [C] of JSON --
    its numbers any doubles, its strings any strings, its objects as
    JavaScript holds them -- if [writeData C] succeeds then the next
    [readData], with nothing touching the file in between, goes to the file
    and returns what [JSON.parse] reads back of what [JSON.stringify] wrote:
    a value equal to [C], by [===] on the numbers, and the very [C] unless
    it holds a negative zero, which is written [0] and read back positive. *)
Theorem write_then_read_coherence (C : Value) :
  json C = true ->
  In (Settled WriteData (Return None)) (emitted (write C) S) ->
  emitted read (run (write C) S) =
    [Access ReadFile; Access Stat;
     Settled ReadData (Return (Some (positive_zeros C)))]
  /\ equal C (positive_zeros C) = true
  /\ (serializable C = true -> positive_zeros C = C).
Proof.
  intros Hjson Hok. pose proof (Codec.parse_stringify_json C Hjson) as Hrt.
  split; [ | split; [apply Codec.equal_positive_zeros
                    | apply Codec.positive_zeros_serializable]].
  unfold emitted in Hok. rewrite (write_run S C idle) in *.
  rewrite writeFile_stringify in *.
  destruct (read_only (store S)); simpl in *.
  - rewrite drop_app_length in Hok. simpl in Hok. intuition congruence.
  - apply emitted_intro. rewrite read_miss by done. simpl.
    rewrite Hrt. simpl. by rewrite <- app_assoc.
Qed.

(** C2 (cache short-circuit).  With [cachedData] present, [readData]
    returns it without any access to the file and without changing the
    module state; so does the call after it, and the two return the
    identical value.  When the first of two consecutive reads is the one
    that loads -- it returns a truthy value, as every array is -- the
    second is served from the cache in the same way. *)
Theorem cache_short_circuit :
  (present (cache S) = true ->
     emitted read S = [Settled ReadData (Return (Some (cachedData (cache S))))]
     /\ store (run read S) = store S
     /\ cache (run read S) = cache S
     /\ emitted (read ++ read) S =
          [Settled ReadData (Return (Some (cachedData (cache S))));
           Settled ReadData (Return (Some (cachedData (cache S))))])
  /\ (forall v : Value,
        In (Settled ReadData (Return (Some v))) (emitted read S) ->
        truthy v = true ->
        emitted read (run read S) = [Settled ReadData (Return (Some v))]
        /\ store (run read (run read S)) = store (run read S)
        /\ cache (run read (run read S)) = cache (run read S)).
Proof.
  split.
  - intros Hp. pose proof (read_hit S idle Hp) as H1.
    assert (Hp1 : present (cache (run read S)) = true) by by rewrite H1.
    assert (Hi1 : pending (run read S) = []) by by rewrite H1.
    pose proof (read_hit _ Hi1 Hp1) as H2.
    assert (E1 : emitted read S =
                 [Settled ReadData (Return (Some (cachedData (cache S))))])
      by (apply emitted_intro; by rewrite H1).
    repeat split; try by rewrite H1.
    + done.
    + rewrite emitted_app, E1.
      rewrite (emitted_intro read (run read S)
                 [Settled ReadData (Return (Some (cachedData (cache S))))]);
        [done | ].
      rewrite H2. by rewrite H1.
  - intros v Hin Hv.
    assert (Hc : pending (run read S) = [] /\
                 present (cache (run read S)) = true /\
                 cachedData (cache (run read S)) = v).
    { destruct (present (cache S)) eqn:Hp.
      - pose proof (read_hit S idle Hp) as H1.
        rewrite (emitted_intro _ _ _ (f_equal trace H1)) in Hin.
        simpl in Hin. destruct Hin as [Hin | []].
        injection Hin as <-. rewrite H1. simpl. by rewrite Hp.
      - pose proof (read_miss S idle Hp) as H1.
        destruct (readFile (store S)) as [raw | e].
        2:{ rewrite (emitted_intro _ _ _ (f_equal trace H1)) in Hin.
            simpl in Hin. intuition congruence. }
        destruct (parse raw) as [w | ].
        2:{ rewrite (emitted_intro _ _ _ (f_equal trace H1)) in Hin.
            simpl in Hin. intuition congruence. }
        destruct (stat (store S)) as [stats | e];
          rewrite (emitted_intro _ _ _ (f_equal trace H1)) in Hin;
          simpl in Hin; [ | intuition congruence].
        destruct Hin as [Hin | [Hin | [Hin | []]]]; try congruence.
        injection Hin as <-. rewrite H1. simpl. unfold present. simpl.
        by rewrite Hv. }
    destruct Hc as (Hi1 & Hp1 & Hv1).
    pose proof (read_hit _ Hi1 Hp1) as H2. rewrite Hv1 in H2.
    repeat split; try by rewrite H2.
    apply emitted_intro. by rewrite H2.
Qed.

(** C3, amended (failed reads).  Whenever [readData] fails because the
    file cannot be read or its content is malformed, the module state is
    left as it was, with [cachedData] absent; the next [readData] goes to
    the file again and, the file being repaired by then, returns the
    repaired content. *)
Theorem failed_read_leaves_cache_empty (st1 : Store) (e : Error) :
  In (Settled ReadData (Throw e))
     (emitted [Call_readData; External st1; Resume 0] S) ->
  let S1 := run [Call_readData; External st1; Resume 0] S in
  cache S1 = cache S
  /\ present (cache S1) = false
  /\ pending S1 = []
  /\ (e = SyntaxError \/ exists err, e = IOError err /\ readFile st1 = Err err)
  /\ forall (st2 : Store) (raw : text) (v : Value),
       readFile st2 = Ok raw ->
       parse raw = Some v ->
       emitted (External st2 :: read) S1 =
         [Access ReadFile; Access Stat; Settled ReadData (Return (Some v))].
Proof.
  intros Hin S1.
  destruct (present (cache S)) eqn:Hp.
  { exfalso. unfold emitted, run in Hin. simpl in Hin.
    unfold start, readData in Hin. unfold present in Hp.
    rewrite Hp in Hin. simpl in Hin. rewrite idle in Hin. simpl in Hin.
    rewrite drop_app_length in Hin. simpl in Hin. intuition congruence. }
  pose proof (read_first_turn S st1 idle Hp) as H1. fold S1 in H1.
  unfold emitted in Hin. fold S1 in Hin.
  assert (Hretry : cache S1 = cache S -> pending S1 = [] ->
            forall (st2 : Store) (raw : text) (v : Value),
              readFile st2 = Ok raw ->
              parse raw = Some v ->
              emitted (External st2 :: read) S1 =
                [Access ReadFile; Access Stat;
                 Settled ReadData (Return (Some v))]).
  { intros Hc Hi st2 raw v Hraw Hv.
    destruct (readFile_stat st2 raw Hraw) as [stats Hstat].
    apply emitted_intro.
    change (run (External st2 :: read) S1)
      with (run read (step S1 (External st2))).
    rewrite read_miss; simpl; [ | done | by rewrite Hc].
    rewrite Hraw, Hv, Hstat. done. }
  destruct (readFile st1) as [raw | err] eqn:Hr.
  - destruct (parse raw) as [v | ].
    + exfalso. rewrite H1 in Hin. simpl in Hin.
      rewrite drop_app_length in Hin. simpl in Hin. intuition congruence.
    + rewrite H1 in Hin. simpl in Hin. rewrite drop_app_length in Hin.
      simpl in Hin.
      destruct Hin as [Hin | [Hin | []]]; [congruence | ].
      injection Hin as <-.
      assert (Hc : cache S1 = cache S) by by rewrite H1.
      assert (Hi : pending S1 = []) by by rewrite H1.
      split; [exact Hc | ]. split; [by rewrite Hc | ]. split; [exact Hi | ].
      split; [by left | by apply Hretry].
  - rewrite H1 in Hin. simpl in Hin. rewrite drop_app_length in Hin.
    simpl in Hin.
    destruct Hin as [Hin | [Hin | []]]; [congruence | ].
    injection Hin as <-.
    assert (Hc : cache S1 = cache S) by by rewrite H1.
    assert (Hi : pending S1 = []) by by rewrite H1.
    split; [exact Hc | ]. split; [by rewrite Hc | ]. split; [exact Hi | ].
    split; [right; by exists err | by apply Hretry].
Qed.

(** C4, amended (failed writes).  If the write to the file fails, the
    module state -- [cachedData] and [lastFileMtime] -- is exactly what it
    was before the call: a failed store write invalidates nothing. *)
Theorem failed_store_write_leaves_cache (data : Value) (st1 : Store)
    (e : Error) :
  In (Settled WriteData (Throw e))
     (emitted [Call_writeData data; External st1; Resume 0] S) ->
  let S1 := run [Call_writeData data; External st1; Resume 0] S in
  cache S1 = cache S
  /\ pending S1 = []
  /\ store S1 = st1
  /\ exists err, e = IOError err
                 /\ fst (writeFile (stringify data) st1) = Err err.
Proof.
  intros Hin S1. unfold emitted in Hin. fold S1 in Hin.
  pose proof (write_first_turn S data st1 idle) as H1. fold S1 in H1.
  rewrite writeFile_stringify in H1 |- *.
  destruct (read_only st1); rewrite H1 in Hin |- *; simpl in Hin |- *;
    rewrite drop_app_length in Hin; simpl in Hin.
  - destruct Hin as [Hin | [Hin | []]]; [congruence | ].
    injection Hin as <-. repeat split. by exists EACCES.
  - intuition congruence.
Qed.

(** C6 (external-change invalidation).  From a primed cache whose token
    is [m]: once another process has replaced the content of the file, the
    modification time has moved to [m' <> m] and the [change] notification
    has been handled, the next [readData] reloads from the file and returns
    the new content, not the cached one. *)
Theorem external_change_invalidation (st' : Store) (raw' : text)
    (m m' : Z) (v' : Value) :
  present (cache S) = true ->
  lastFileMtime (cache S) = Some m ->
  file st' = Some (mkFile raw' m') ->
  m' <> m ->
  parse raw' = Some v' ->
  emitted (External st' :: notify "change" ++ read) S =
    [Access Stat; Settled WatchCallback (Return None);
     Access ReadFile; Access Stat; Settled ReadData (Return (Some v'))]
  /\ cache (run (External st' :: notify "change" ++ read) S)
     = mkState v' (Some m').
Proof.
  intros Hp Htok Hfile Hne Hv.
  change (External st' :: notify "change" ++ read)
    with ([External st'] ++ notify "change" ++ read).
  set (S0 := run [External st'] S).
  assert (Hi0 : pending S0 = []) by exact idle.
  assert (Hstat : stat (store S0) = Ok (mkStats m'))
    by (unfold stat; simpl; by rewrite Hfile).
  assert (Hread : readFile (store S0) = Ok raw')
    by (unfold readFile; simpl; by rewrite Hfile).
  assert (Hch : mtime_changed (mkStats m') (lastFileMtime (cache S0)) = true).
  { simpl. rewrite Htok. simpl. apply negb_true_iff. by apply Z.eqb_neq. }
  pose proof (notify_change_run S0 Hi0) as Hn.
  rewrite Hstat, Hch in Hn.
  set (S1 := run (notify "change") S0) in *.
  assert (Hi1 : pending S1 = []) by by rewrite Hn.
  assert (Hp1 : present (cache S1) = false) by by rewrite Hn.
  pose proof (read_miss S1 Hi1 Hp1) as Hr.
  assert (Hs1 : store S1 = store S0) by by rewrite Hn.
  rewrite Hs1, Hread, Hv, Hstat in Hr.
  assert (Hrun : run ([External st'] ++ notify "change" ++ read) S
                 = run read S1) by by rewrite !run_app.
  split.
  - apply emitted_intro. rewrite Hrun, Hr. simpl.
    rewrite Hn. simpl. by rewrite <- app_assoc.
  - by rewrite Hrun, Hr.
Qed.

(** C7 (duplicate-notification idempotence).  A [change] notification that
    finds the modification time of the file equal to the recorded token
    changes nothing in the module state: nothing is invalidated, and the
    next [readData] does exactly what it would have done without the
    notification. *)
Theorem duplicate_notification_is_noop (stats : Stats) :
  stat (store S) = Ok stats ->
  lastFileMtime (cache S) = Some (mtime stats) ->
  let S1 := run (notify "change") S in
  cache S1 = cache S
  /\ store S1 = store S
  /\ pending S1 = []
  /\ emitted (notify "change") S =
       [Access Stat; Settled WatchCallback (Return None)]
  /\ emitted read S1 = emitted read S
  /\ cache (run read S1) = cache (run read S).
Proof.
  intros Hstat Htok S1.
  pose proof (notify_change_run S idle) as Hn. fold S1 in Hn.
  assert (Hsame : mtime_changed stats (lastFileMtime (cache S)) = false).
  { rewrite Htok. simpl. by rewrite Z.eqb_refl. }
  rewrite Hstat, Hsame in Hn.
  assert (Hc : cache S1 = cache S) by by rewrite Hn.
  assert (Hs : store S1 = store S) by by rewrite Hn.
  assert (Hi : pending S1 = []) by by rewrite Hn.
  assert (He : emitted (notify "change") S =
               [Access Stat; Settled WatchCallback (Return None)])
    by (apply emitted_intro; fold S1; by rewrite Hn).
  assert (Hboth : emitted read S1 = emitted read S /\
                  cache (run read S1) = cache (run read S)).
  { destruct (present (cache S)) eqn:Hp.
    - assert (Hp1 : present (cache S1) = true) by by rewrite Hc.
      pose proof (read_hit S idle Hp) as R0.
      pose proof (read_hit S1 Hi Hp1) as R1.
      split.
      + rewrite (emitted_intro _ _ _ (f_equal trace R1)).
        rewrite (emitted_intro _ _ _ (f_equal trace R0)). by rewrite Hc.
      + by rewrite R1, R0.
    - assert (Hp1 : present (cache S1) = false) by by rewrite Hc.
      pose proof (read_miss S idle Hp) as R0.
      pose proof (read_miss S1 Hi Hp1) as R1.
      rewrite Hs, Hc in R1.
      destruct (readFile (store S)) as [raw | e].
      2:{ split; [ | by rewrite R1, R0].
          rewrite (emitted_intro _ _ _ (f_equal trace R1)).
          by rewrite (emitted_intro _ _ _ (f_equal trace R0)). }
      destruct (parse raw) as [v | ].
      2:{ split; [ | by rewrite R1, R0].
          rewrite (emitted_intro _ _ _ (f_equal trace R1)).
          by rewrite (emitted_intro _ _ _ (f_equal trace R0)). }
      destruct (stat (store S)) as [st0 | e].
      + split; [ | by rewrite R1, R0].
        rewrite (emitted_intro _ _ _ (f_equal trace R1)).
        by rewrite (emitted_intro _ _ _ (f_equal trace R0)).
      + split; [ | by rewrite R1, R0].
        rewrite (emitted_intro _ _ _ (f_equal trace R1)).
        by rewrite (emitted_intro _ _ _ (f_equal trace R0)). }
  destruct Hboth. done.
Qed.

(** C8 (failed inspection in the watcher).  If [fs.stat] fails while a
    [change] notification is handled, the callback clears [cachedData]
    whatever it held and leaves [lastFileMtime] at its last value; the
    callback settles normally, so the failure reaches no caller; and the
    next [readData] has to go to the file. *)
Theorem watcher_inspection_failure_clears_cache (e : errno) :
  stat (store S) = Err e ->
  let S1 := run (notify "change") S in
  cache S1 = mkState JNull (lastFileMtime (cache S))
  /\ emitted (notify "change") S =
       [Access Stat; Settled WatchCallback (Return None)]
  /\ pending S1 = []
  /\ forall st2 : Store,
       exists t, emitted (External st2 :: read) S1 = Access ReadFile :: t.
Proof.
  intros Hstat S1.
  pose proof (notify_change_run S idle) as Hn. fold S1 in Hn.
  rewrite Hstat in Hn.
  assert (Hc : cache S1 = mkState JNull (lastFileMtime (cache S)))
    by by rewrite Hn.
  assert (Hi : pending S1 = []) by by rewrite Hn.
  split; [exact Hc | ].
  split; [apply emitted_intro; fold S1; by rewrite Hn | ].
  split; [exact Hi | ].
  intros st2. set (S2 := step S1 (External st2)).
  assert (Hi2 : pending S2 = []) by exact Hi.
  assert (Hp2 : present (cache S2) = false).
  { change (present (cache S1) = false). by rewrite Hc. }
  pose proof (read_miss S2 Hi2 Hp2) as Hr.
  change (store S2) with st2 in Hr. change (trace S2) with (trace S1) in Hr.
  change (cache S2) with (cache S1) in Hr.
  destruct (readFile st2) as [raw | err];
    [destruct (parse raw) as [v | ];
       [destruct (stat st2) as [stats | err] | ] | ];
    eexists; apply emitted_intro;
    change (run (External st2 :: read) S1) with (run read S2);
    rewrite Hr; reflexivity.
Qed.

End Sequential.

(** C9 (falsy content).  If the content of the file decodes to a falsy
    value -- [null], [false], [0] or the empty string -- no [readData] ever
    finds the cache populated: each of any number of consecutive calls
    reads and decodes the file again. *)
Theorem falsy_content_is_never_cached (raw : text) (v : Value) (n : nat)
    (S : System) :
  pending S = [] ->
  present (cache S) = false ->
  readFile (store S) = Ok raw ->
  parse raw = Some v ->
  truthy v = false ->
  emitted (concat (replicate n read)) S =
    concat (replicate n [Access ReadFile; Access Stat;
                         Settled ReadData (Return (Some v))])
  /\ present (cache (run (concat (replicate n read)) S)) = false.
Proof.
  revert S. induction n as [ | n IH]; intros S Hidle Hp Hraw Hv Hf.
  - split; [ | exact Hp]. apply emitted_intro. simpl. by rewrite app_nil_r.
  - destruct (readFile_stat _ _ Hraw) as [stats Hstat].
    pose proof (read_miss S Hidle Hp) as H1.
    rewrite Hraw, Hv, Hstat in H1.
    assert (Hi1 : pending (run read S) = []) by by rewrite H1.
    assert (Hp1 : present (cache (run read S)) = false) by by rewrite H1.
    assert (Hs1 : readFile (store (run read S)) = Ok raw) by by rewrite H1.
    destruct (IH (run read S) Hi1 Hp1 Hs1 Hv Hf) as [IHe IHp].
    change (concat (replicate (Datatypes.S n) read))
      with (read ++ concat (replicate n read)).
    split.
    + rewrite emitted_app, IHe.
      rewrite (emitted_intro _ _ _ (f_equal trace H1)). done.
    + by rewrite run_app.
Qed.

(** C10 (other event types).  The callback acts on [change] only: for a
    notification of any other type, [rename] among them, it settles at once
    and the module state -- [cachedData] and [lastFileMtime] -- the file and
    the pending calls are left as they were. *)
Theorem other_event_types_are_ignored (S : System) (eventType : string) :
  eventType <> "change"%string ->
  step S (Notify eventType) =
    mkSystem (store S) (cache S) (pending S)
      (trace S ++ [Settled WatchCallback (Return None)]).
Proof.
  intros Hty. simpl. unfold start, watchFile_callback.
  destruct (String.eqb_spec eventType "change") as [Heq | Hne]; [ | done].
  by destruct Hty.
Qed.

(** ** Interleaving: which step updates which field *)

(** C5, amended (how the two fields are updated).  [cachedData] changes
    only in the step that completes the file read of [readData], the file
    write of [writeData], or the inspection of the watcher callback;
    [lastFileMtime] changes only in a step that completes an [fs.stat]; no
    step that makes a call, and no change to the file, touches either.
    The two are set in one and the same step by the watcher callback, when
    the inspected time differs from the token.  [readData] and [writeData]
    set [cachedData] first and stay suspended at their [fs.stat] with
    [lastFileMtime] still at its old value; the later step that completes
    that [fs.stat] sets [lastFileMtime] to the time it answers, leaves
    [cachedData] as it finds it, and ends the call. *)
Theorem cache_field_updates (S : System) (e : event) :
  (cachedData (cache (step S e)) <> cachedData (cache S) ->
     exists (i : nat) (f : frame),
       e = Resume i /\ pending S !! i = Some f /\
       (f = readData_readFile
        \/ (exists written, f = writeData_writeFile written)
        \/ f = watchFile_stat))
  /\ (lastFileMtime (cache (step S e)) <> lastFileMtime (cache S) ->
     exists (i : nat) (f : frame),
       e = Resume i /\ pending S !! i = Some f /\
       (f = readData_stat \/ f = writeData_stat \/ f = watchFile_stat))
  /\ (forall (i : nat) (stats : Stats),
        e = Resume i ->
        pending S !! i = Some watchFile_stat ->
        stat (store S) = Ok stats ->
        mtime_changed stats (lastFileMtime (cache S)) = true ->
        cache (step S e) = mkState JNull (Some (mtime stats)))
  /\ (forall (i : nat) (raw : text) (v : Value),
        e = Resume i ->
        pending S !! i = Some readData_readFile ->
        readFile (store S) = Ok raw ->
        parse raw = Some v ->
        cache (step S e) = mkState v (lastFileMtime (cache S))
        /\ pending (step S e) !! i = Some readData_stat)
  /\ (forall (i : nat) (written : text) (st : Store),
        e = Resume i ->
        pending S !! i = Some (writeData_writeFile written) ->
        writeFile written (store S) = (Ok tt, st) ->
        cache (step S e) = mkState JNull (lastFileMtime (cache S))
        /\ pending (step S e) !! i = Some writeData_stat)
  /\ (forall (i : nat) (f : frame) (stats : Stats),
        e = Resume i ->
        pending S !! i = Some f ->
        f = readData_stat \/ f = writeData_stat ->
        stat (store S) = Ok stats ->
        cache (step S e) = mkState (cachedData (cache S)) (Some (mtime stats))
        /\ pending (step S e) = delete i (pending S)).
Proof.
  split; [ | split; [ | split; [ | split; [ | split]]]].
  - destruct e as [ | data | ty | i | st]; simpl; unfold start.
    + unfold readData. by destruct (truthy (cachedData (cache S))).
    + done.
    + unfold watchFile_callback. by destruct (String.eqb ty "change").
    + destruct (pending S !! i) as [f | ] eqn:Hf; [ | done].
      intros Hne. exists i, f. split; [done | ]. split; [done | ].
      destruct f; eauto; exfalso; revert Hne; simpl.
      * unfold readData_after_stat. by destruct (stat (store S)).
      * unfold writeData_after_stat. by destruct (stat (store S)).
    + done.
  - destruct e as [ | data | ty | i | st]; simpl; unfold start.
    + unfold readData. by destruct (truthy (cachedData (cache S))).
    + done.
    + unfold watchFile_callback. by destruct (String.eqb ty "change").
    + destruct (pending S !! i) as [f | ] eqn:Hf; [ | done].
      intros Hne. exists i, f. split; [done | ]. split; [done | ].
      destruct f; eauto; exfalso; revert Hne; simpl.
      * unfold readData_after_readFile.
        destruct (readFile (store S)) as [raw | err]; [ | done].
        by destruct (parse raw).
      * by destruct (writeFile written (store S)) as [[u | err] st].
    + done.
  - intros i stats -> Hf Hstat Hch. simpl. rewrite Hf. simpl.
    unfold watchFile_after_stat. by rewrite Hstat, Hch.
  - intros i raw v -> Hf Hraw Hv. simpl. rewrite Hf. simpl.
    unfold readData_after_readFile. rewrite Hraw, Hv. simpl.
    split; [done | ]. apply list_lookup_insert_eq.
    by apply lookup_lt_Some with readData_readFile.
  - intros i written st -> Hf Hw. simpl. rewrite Hf. simpl.
    rewrite Hw. simpl.
    split; [done | ]. apply list_lookup_insert_eq.
    by apply lookup_lt_Some with (writeData_writeFile written).
  - intros i f stats -> Hf [-> | ->] Hstat; simpl; rewrite Hf; simpl.
    + unfold readData_after_stat. by rewrite Hstat.
    + unfold writeData_after_stat. by rewrite Hstat.
Qed.

(** ** Runs of the scenarios *)

(** C3 as stated fails when the inspection after the read is the step that
    fails.  The file is read and decoded, then removed before [fs.stat]
    answers: [readData] throws, yet [cachedData] holds the decoded array.
    The file is then put back with other content, and the next [readData]
    returns the old array without going to the file. *)
Lemma read_inspection_failure_keeps_cache :
  emitted read_then_removed seeded =
    [Access ReadFile; Access Stat; Settled ReadData (Throw (IOError ENOENT))]
  /\ cache (run read_then_removed seeded) = mkState (JArr [JNum (int 1)]) None
  /\ present (cache (run read_then_removed seeded)) = true
  /\ readFile repaired = Ok (js "[2]")
  /\ parse (js "[2]") = Some (JArr [JNum (int 2)])
  /\ emitted (External repaired :: read) (run read_then_removed seeded) =
       [Settled ReadData (Return (Some (JArr [JNum (int 1)])))].
Proof. vm_compute. repeat split. Qed.

(** C4 as stated fails when the write succeeds and the inspection after it
    fails: [writeData] throws an I/O error, and [cachedData], populated
    before the call, has been cleared. *)
Lemma write_inspection_failure_clears_cache :
  emitted write_then_removed primed =
    [Access (WriteFile (stringify items)); Access Stat;
     Settled WriteData (Throw (IOError ENOENT))]
  /\ cache primed = mkState (JArr [JNum (int 1)]) (Some 5)
  /\ cache (run write_then_removed primed) = mkState JNull (Some 5)
  /\ cache (run write_then_removed primed) <> cache primed.
Proof. vm_compute. repeat split. discriminate. Qed.

(** C5 as stated fails in [readData]: after the step that completes the
    file read the call is suspended with [cachedData] set and
    [lastFileMtime] not yet; a call made at that point is served the new
    data while [getLastModifiedTime] still answers the old token; the token
    follows only when the call is resumed. *)
Lemma read_updates_fields_in_separate_steps :
  pending (run read_until_stat seeded) = [readData_stat]
  /\ cachedData (cache seeded) = JNull
  /\ cachedData (cache (run read_until_stat seeded)) = JArr [JNum (int 1)]
  /\ getLastModifiedTime (cache seeded) = None
  /\ getLastModifiedTime (cache (run read_until_stat seeded)) = None
  /\ emitted [Call_readData] (run read_until_stat seeded) =
       [Settled ReadData (Return (Some (JArr [JNum (int 1)])))]
  /\ getLastModifiedTime (cache (run [Resume 0] (run read_until_stat seeded)))
     = Some 5.
Proof. vm_compute. repeat split. Qed.

(** C5, amended, at the read of the seeded process: the step that
    completes the file read sets [cachedData] alone and leaves the call
    suspended at [fs.stat]; the step that completes the [fs.stat] sets
    [lastFileMtime] and ends the call. *)
Lemma cache_field_updates_at_seeded :
  pending (step seeded Call_readData) !! 0%nat = Some readData_readFile
  /\ (cache (step (step seeded Call_readData) (Resume 0))
      = mkState (JArr [JNum (int 1)]) None
      /\ pending (step (step seeded Call_readData) (Resume 0)) !! 0%nat
         = Some readData_stat)
  /\ stat (store (run read_until_stat seeded)) = Ok (mkStats 5)
  /\ cache (step (run read_until_stat seeded) (Resume 0))
     = mkState (JArr [JNum (int 1)]) (Some 5)
  /\ pending (step (run read_until_stat seeded) (Resume 0)) = [].
Proof.
  assert (Hv : parse (js "[1]") = Some (JArr [JNum (int 1)]))
    by (vm_compute; reflexivity).
  split; [reflexivity | ]. split.
  - exact (proj1 (proj2 (proj2 (proj2
             (cache_field_updates (step seeded Call_readData) (Resume 0)))))
             0%nat (js "[1]") (JArr [JNum (int 1)]) eq_refl eq_refl eq_refl Hv).
  - split; [reflexivity | ].
    exact (proj2 (proj2 (proj2 (proj2 (proj2
             (cache_field_updates (run read_until_stat seeded) (Resume 0))))))
             0%nat readData_stat (mkStats 5) eq_refl eq_refl
             (or_introl eq_refl) eq_refl).
Defined.

(** C1 at the scenario: items with a price of 49.99, a count of 15e20,
    a weight of 1.2e-7 and a name outside ASCII are written, then read
    back; and the same with a negative zero for a price. *)
Lemma write_then_read_coherence_at_priced :
  json priced = true
  /\ In (Settled WriteData (Return None)) (emitted (write priced) seeded)
  /\ map number_text
       [nearest_decimal false 4999 (-2); nearest_decimal false 15 20;
        nearest_decimal false 12 (-8); nearest_decimal true 5 (-1)]
     = [js "49.99"; js "1.5e+21"; js "1.2e-7"; js "-0.5"]
  /\ emitted read (run (write priced) seeded) =
       [Access ReadFile; Access Stat; Settled ReadData (Return (Some priced))]
  /\ emitted read (run (write zeroed) seeded) =
       [Access ReadFile; Access Stat;
        Settled ReadData
          (Return (Some (JArr [laptop;
                               JObj [(js "id", JNum (int 3));
                                     (js "price", JNum (int 0))]])))].
Proof.
  assert (H1 : json priced = true) by (vm_compute; reflexivity).
  assert (H2 : In (Settled WriteData (Return None))
                  (emitted (write priced) seeded))
    by (vm_compute; tauto).
  assert (H3 : In (Settled WriteData (Return None))
                  (emitted (write zeroed) seeded))
    by (vm_compute; tauto).
  split; [exact H1 | ]. split; [exact H2 | ].
  split; [vm_compute; reflexivity | ]. split.
  - exact (proj1 (write_then_read_coherence seeded eq_refl priced H1 H2)).
  - exact (proj1 (write_then_read_coherence seeded eq_refl zeroed eq_refl H3)).
Defined.

(** C2 at the primed process, and at two reads of the seeded one. *)
Lemma cache_short_circuit_at_primed :
  pending primed = []
  /\ present (cache primed) = true
  /\ emitted (read ++ read) primed =
       [Settled ReadData (Return (Some (JArr [JNum (int 1)])));
        Settled ReadData (Return (Some (JArr [JNum (int 1)])))]
  /\ emitted read (run read seeded) =
       [Settled ReadData (Return (Some (JArr [JNum (int 1)])))].
Proof.
  assert (H : In (Settled ReadData (Return (Some (JArr [JNum (int 1)]))))
                 (emitted read seeded))
    by (vm_compute; tauto).
  split; [reflexivity | ]. split; [reflexivity | ]. split.
  - exact (proj2 (proj2 (proj2
      (proj1 (cache_short_circuit primed eq_refl) eq_refl)))).
  - exact (proj1
      (proj2 (cache_short_circuit seeded eq_refl) (JArr [JNum (int 1)]) H eq_refl)).
Defined.

(** C3, amended, at the malformed file, repaired before the next read. *)
Lemma failed_read_leaves_cache_empty_at_malformed :
  In (Settled ReadData (Throw SyntaxError)) (emitted read_malformed seeded)
  /\ cache (run read_malformed seeded) = cache seeded
  /\ emitted (External repaired :: read) (run read_malformed seeded) =
       [Access ReadFile; Access Stat;
        Settled ReadData (Return (Some (JArr [JNum (int 2)])))].
Proof.
  assert (H : In (Settled ReadData (Throw SyntaxError))
                 (emitted read_malformed seeded))
    by (vm_compute; tauto).
  pose proof (failed_read_leaves_cache_empty
                seeded eq_refl malformed SyntaxError H) as (Hc & _ & _ & _ & Hr).
  split; [exact H | ]. split; [exact Hc | ].
  apply (Hr repaired (js "[2]") (JArr [JNum (int 2)])); vm_compute; reflexivity.
Defined.

(** C4, amended, at the file that cannot be written. *)
Lemma failed_store_write_leaves_cache_at_locked :
  In (Settled WriteData (Throw (IOError EACCES))) (emitted write_locked primed)
  /\ cache (run write_locked primed) = cache primed.
Proof.
  assert (H : In (Settled WriteData (Throw (IOError EACCES)))
                 (emitted write_locked primed))
    by (vm_compute; tauto).
  split; [exact H | ].
  exact (proj1 (failed_store_write_leaves_cache
                  primed eq_refl items locked (IOError EACCES) H)).
Defined.

(** C6 at the primed process, the file rewritten at time 9. *)
Lemma external_change_invalidation_at_primed :
  present (cache primed) = true
  /\ lastFileMtime (cache primed) = Some 5
  /\ file repaired = Some (mkFile (js "[2]") 9)
  /\ 9 <> 5
  /\ parse (js "[2]") = Some (JArr [JNum (int 2)])
  /\ emitted (External repaired :: notify "change" ++ read) primed =
       [Access Stat; Settled WatchCallback (Return None);
        Access ReadFile; Access Stat;
        Settled ReadData (Return (Some (JArr [JNum (int 2)])))].
Proof.
  assert (Hne : 9 <> 5) by lia.
  assert (Hv : parse (js "[2]") = Some (JArr [JNum (int 2)])) by (vm_compute; reflexivity).
  repeat (split; [first [reflexivity | exact Hne | exact Hv] | ]).
  exact (proj1 (external_change_invalidation primed eq_refl repaired
                  (js "[2]") 5 9 (JArr [JNum (int 2)])
                  eq_refl eq_refl eq_refl Hne Hv)).
Defined.

(** C7 at the second of two notifications for one change of the file. *)
Lemma duplicate_notification_is_noop_at_second :
  pending notified_once = []
  /\ stat (store notified_once) = Ok (mkStats 9)
  /\ lastFileMtime (cache notified_once) = Some 9
  /\ cache (run (notify "change") notified_once) = cache notified_once
  /\ emitted read (run (notify "change") notified_once)
     = emitted read notified_once.
Proof.
  pose proof (duplicate_notification_is_noop notified_once eq_refl (mkStats 9)
                eq_refl eq_refl) as (Hc & _ & _ & _ & He & _).
  split; [reflexivity | ]. split; [reflexivity | ]. split; [reflexivity | ].
  split; [exact Hc | exact He].
Defined.

(** C8 at the primed process whose file is gone. *)
Lemma watcher_inspection_failure_clears_cache_at_orphaned :
  stat (store orphaned) = Err ENOENT
  /\ cache (run (notify "change") orphaned) = mkState JNull (Some 5)
  /\ emitted (notify "change") orphaned =
       [Access Stat; Settled WatchCallback (Return None)].
Proof.
  pose proof (watcher_inspection_failure_clears_cache orphaned eq_refl ENOENT
                eq_refl) as (Hc & He & _).
  split; [reflexivity | ]. split; [exact Hc | exact He].
Defined.

(** C9 at the file holding [0], read three times. *)
Lemma falsy_content_is_never_cached_at_zero :
  pending zero = []
  /\ present (cache zero) = false
  /\ readFile (store zero) = Ok (js "0")
  /\ parse (js "0") = Some (JNum (int 0))
  /\ truthy (JNum (int 0)) = false
  /\ emitted (concat (replicate 3 read)) zero =
       concat (replicate 3 [Access ReadFile; Access Stat;
                            Settled ReadData (Return (Some (JNum (int 0))))]).
Proof.
  assert (Hv : parse (js "0") = Some (JNum (int 0))) by (vm_compute; reflexivity).
  repeat (split; [first [reflexivity | exact Hv] | ]).
  exact (proj1 (falsy_content_is_never_cached (js "0") (JNum (int 0)) 3 zero
                  eq_refl eq_refl eq_refl Hv eq_refl)).
Defined.

(** C10 at a [rename] notification. *)
Lemma other_event_types_are_ignored_at_rename :
  "rename"%string <> "change"%string
  /\ step primed (Notify "rename") =
       mkSystem (store primed) (cache primed) (pending primed)
         (trace primed ++ [Settled WatchCallback (Return None)]).
Proof.
  assert (Hne : "rename"%string <> "change"%string) by discriminate.
  split; [exact Hne | ].
  exact (other_event_types_are_ignored primed "rename"%string Hne).
Defined.

End Properties.

(** * Sequences of calls: properties *)

Module SequenceProperties.
Import JSON Fs ItemRepository Scenarios Sequences Properties.

(** A notification of any type but [change], handled on an idle process. *)
Lemma notify_other_run (S : System) (ty : string) :
  pending S = [] ->
  ty <> "change"%string ->
  run (notify ty) S =
    mkSystem (store S) (cache S) []
      (trace S ++ [Settled WatchCallback (Return None)]).
Proof.
  intros Hidle Hty. unfold run, notify. simpl. unfold start, watchFile_callback.
  destruct (String.eqb_spec ty "change") as [Heq | _]; [by destruct Hty | ].
  simpl. by rewrite Hidle.
Qed.

Lemma settled_intro (es : list event) (S : System) (t : list obs) (o : op)
    (r : completion) :
  trace (run es S) = trace S ++ t ++ [Settled o r] ->
  settled es S = Some r.
Proof.
  intros H. unfold settled. rewrite (emitted_intro es S _ H).
  by rewrite last_snoc.
Qed.

(** Each call keeps the cache in agreement with the file. *)
Lemma perform_coherent (S : System) (c : call) :
  coherent S -> coherent (perform S c).
Proof.
  intros [Hidle Hcoh]. destruct c as [ | | data | ty]; unfold perform.
  - split; [done | ]. unfold load, initFileWatcher_after_stat, stat. simpl.
    destruct (file (store S)) as [f | ] eqn:Hf; simpl; [ | done].
    intros Hp. destruct (Hcoh Hp) as (f' & Hf' & Hparse & _).
    injection Hf' as <-. by exists f.
  - destruct (present (cache S)) eqn:Hp.
    + rewrite (read_hit S Hidle Hp). split; [done | ]. simpl.
      intros _. by apply Hcoh.
    + rewrite (read_miss S Hidle Hp). unfold readFile, stat.
      destruct (file (store S)) as [f | ] eqn:Hf;
        [ | split; [done | simpl; congruence]].
      destruct (parse (content f)) as [v | ] eqn:Hv;
        [ | split; [done | simpl; congruence]].
      split; [done | ]. simpl. intros _. exists f. by rewrite Hf.
  - rewrite (write_run S data Hidle). rewrite writeFile_stringify.
    destruct (read_only (store S)); simpl; (split; [done | ]); simpl.
    + exact Hcoh.
    + done.
  - destruct (String.eqb_spec ty "change") as [-> | Hne].
    + rewrite (notify_change_run S Hidle). split; [done | ]. simpl.
      destruct (stat (store S)) as [stats | e]; [ | done].
      destruct (mtime_changed stats (lastFileMtime (cache S))); [done | ].
      by apply Hcoh.
    + rewrite (notify_other_run S ty Hidle Hne). by split.
Qed.

Lemma perform_all_coherent (cs : list call) (S : System) :
  coherent S -> coherent (perform_all cs S).
Proof.
  revert S. induction cs as [ | c cs IH]; intros S H; [done | ].
  simpl. apply IH. by apply perform_coherent.
Qed.

(** What a read finds when the cache agrees with the file. *)
Lemma coherent_read (S : System) (v : Value) :
  coherent S ->
  settled read S = Some (Return (Some v)) ->
  exists f : File, file (store S) = Some f /\ parse (content f) = Some v.
Proof.
  intros [Hidle Hcoh] Hs. unfold settled in Hs.
  destruct (present (cache S)) eqn:Hp.
  - rewrite (emitted_intro _ _ _ (f_equal trace (read_hit S Hidle Hp))) in Hs.
    simpl in Hs. injection Hs as <-.
    destruct (Hcoh eq_refl) as (f & Hf & Hparse & _). by exists f.
  - pose proof (read_miss S Hidle Hp) as H. unfold readFile, stat in H.
    destruct (file (store S)) as [f | ] eqn:Hf.
    2:{ rewrite (emitted_intro _ _ _ (f_equal trace H)) in Hs. done. }
    destruct (parse (content f)) as [w | ] eqn:Hw.
    2:{ rewrite (emitted_intro _ _ _ (f_equal trace H)) in Hs. done. }
    rewrite (emitted_intro _ _ _ (f_equal trace H)) in Hs. simpl in Hs.
    injection Hs as <-. by exists f.
Qed.

(** A call that is not a write leaves the file as it is. *)
Lemma perform_store (S : System) (c : call) :
  pending S = [] -> is_write c = false -> store (perform S c) = store S.
Proof.
  intros Hidle Hc. destruct c as [ | | data | ty]; try done; unfold perform.
  - destruct (present (cache S)) eqn:Hp.
    + by rewrite (read_hit S Hidle Hp).
    + rewrite (read_miss S Hidle Hp).
      destruct (readFile (store S)) as [raw | e]; [ | done].
      destruct (parse raw); [ | done]. by destruct (stat (store S)).
  - destruct (String.eqb_spec ty "change") as [-> | Hne].
    + by rewrite (notify_change_run S Hidle).
    + by rewrite (notify_other_run S ty Hidle Hne).
Qed.

Lemma perform_all_store (cs : list call) (S : System) :
  coherent S ->
  Forall (fun c => is_write c = false) cs ->
  store (perform_all cs S) = store S.
Proof.
  revert S. induction cs as [ | c cs IH]; intros S Hcoh Hcs; [done | ].
  apply Forall_cons in Hcs as [Hc Hcs]. simpl.
  rewrite IH; [ | by apply perform_coherent | done].
  apply perform_store; [by destruct Hcoh | done].
Qed.

(** X1 (the cache agrees with the file).  From a state in which the cache
    agrees with the file -- the freshly loaded module is one -- and as long
    as no other process touches the file, any sequence of calls made one
    after the other leaves the cache either empty or equal to the decoded
    content of the file, with [lastFileMtime] its modification time; a
    [readData] that then returns a value returns the decoded content of the
    file as it is at that moment. *)
Theorem cache_agrees_with_file (cs : list call) (S : System) :
  coherent S ->
  coherent (perform_all cs S)
  /\ forall v : Value,
       settled read (perform_all cs S) = Some (Return (Some v)) ->
       exists f : File,
         file (store (perform_all cs S)) = Some f
         /\ parse (content f) = Some v.
Proof.
  intros H. pose proof (perform_all_coherent cs S H) as H'.
  split; [exact H' | ]. intros v. by apply coherent_read.
Qed.

(** A read on a process whose cache agrees with a decodable file returns
    the decoded content. *)
Lemma coherent_read_settles (S : System) (f : File) (v : Value) :
  coherent S ->
  file (store S) = Some f ->
  parse (content f) = Some v ->
  settled read S = Some (Return (Some v)).
Proof.
  intros [Hidle Hcoh] Hf Hv.
  destruct (present (cache S)) eqn:Hp.
  - destruct (Hcoh eq_refl) as (f' & Hf' & Hparse & _).
    assert (f' = f) as -> by congruence.
    assert (cachedData (cache S) = v) as <- by congruence.
    apply (settled_intro read S [] ReadData). by rewrite (read_hit S Hidle Hp).
  - apply (settled_intro read S [Access ReadFile; Access Stat] ReadData).
    rewrite (read_miss S Hidle Hp). unfold readFile, stat. by rewrite Hf, Hv.
Qed.

(** X2 (the last write wins).  After a successful [writeData d] of any
    value of JSON, and with no other process touching the file, a
    [readData] returns [d] -- with a negative zero read back positive --
    however many reads and notifications were handled in between, and
    wherever the [fs.stat] of [initFileWatcher] answered. *)
Theorem last_write_wins (S : System) (d : Value) (cs : list call) :
  coherent S ->
  read_only (store S) = false ->
  json d = true ->
  Forall (fun c => is_write c = false) cs ->
  settled read (perform_all cs (perform S (Write d)))
  = Some (Return (Some (positive_zeros d))).
Proof.
  intros Hcoh Hrw Hser Hcs.
  pose proof (perform_coherent S (Write d) Hcoh) as H1.
  pose proof (perform_all_coherent cs _ H1) as H2.
  pose proof (perform_all_store cs _ H1 Hcs) as Hst.
  assert (Hfile : file (store (perform S (Write d)))
                  = Some (mkFile (stringify d) (clock (store S)))).
  { unfold perform. rewrite (write_run S d (proj1 Hcoh)). rewrite writeFile_stringify.
    by rewrite Hrw. }
  apply (coherent_read_settles _ (mkFile (stringify d) (clock (store S))));
    [done | by rewrite Hst | ].
  by apply Codec.parse_stringify_json.
Qed.

(** The calls in flight stay reads and notifications when only reading
    events are scheduled. *)
Lemma reading_step (S : System) (e : event) :
  reading e = true ->
  no_write_pending S ->
  store (step S e) = store S /\ no_write_pending (step S e).
Proof.
  unfold no_write_pending. intros He Hp.
  destruct e as [ | data | ty | i | st]; try done; simpl; unfold start.
  - unfold readData. destruct (truthy (cachedData (cache S))); simpl;
      (split; [done | ]); [done | ].
    apply Forall_app. split; [done | by repeat constructor].
  - unfold watchFile_callback. destruct (String.eqb ty "change"); simpl;
      (split; [done | ]); [ | done].
    apply Forall_app. split; [done | by repeat constructor].
  - destruct (pending S !! i) as [f | ] eqn:Hf; [ | done].
    pose proof (Forall_lookup_1 _ _ _ _ Hp Hf) as Hnw.
    destruct f; try done; simpl.
    + unfold readData_after_readFile.
      destruct (readFile (store S)) as [raw | err]; simpl.
      * destruct (parse raw); simpl; (split; [done | ]).
        -- by apply Forall_insert.
        -- by apply Forall_delete.
      * split; [done | by apply Forall_delete].
    + unfold readData_after_stat.
      destruct (stat (store S)); simpl; (split; [done | by apply Forall_delete]).
    + unfold watchFile_after_stat.
      destruct (stat (store S)) as [stats | err]; simpl.
      * destruct (mtime_changed stats (lastFileMtime (cache S))); simpl;
          (split; [done | by apply Forall_delete]).
      * split; [done | by apply Forall_delete].
Qed.

(** X3 (reads never write).  Whatever the interleaving of [readData] calls,
    notifications and resumptions, and as long as no [writeData] is in
    flight, the file is left exactly as it was: content, modification time
    and all. *)
Theorem reads_never_write (es : list event) (S : System) :
  forallb reading es = true ->
  no_write_pending S ->
  store (run es S) = store S.
Proof.
  revert S. induction es as [ | e es IH]; intros S Hes Hp; [done | ].
  simpl in Hes. apply andb_true_iff in Hes as [He Hes].
  destruct (reading_step S e He Hp) as [Hst Hp'].
  change (run (e :: es) S) with (run es (step S e)).
  rewrite IH by done. exact Hst.
Qed.

(** X4 (a process recognises the notification of its own write).  After a
    successful [writeData], the file holds exactly the serialized data,
    [getLastModifiedTime] answers the modification time of the file, and the
    [change] notification that the write gives rise to changes nothing in
    the module state. *)
Theorem own_write_notification_is_noop (S : System) (d : Value) :
  pending S = [] ->
  settled (write d) S = Some (Return None) ->
  exists f : File,
    file (store (run (write d) S)) = Some f
    /\ content f = stringify d
    /\ getLastModifiedTime (cache (run (write d) S)) = Some (modified f)
    /\ cache (run (notify "change") (run (write d) S))
       = cache (run (write d) S)
    /\ store (run (notify "change") (run (write d) S))
       = store (run (write d) S).
Proof.
  intros Hidle Hs. unfold settled in Hs.
  pose proof (write_run S d Hidle) as Hw. rewrite writeFile_stringify in Hw.
  destruct (read_only (store S)).
  { rewrite (emitted_intro _ _ _ (f_equal trace Hw)) in Hs. done. }
  assert (Hw' : run (write d) S =
                mkSystem
                  (mkStore (Some (mkFile (stringify d) (clock (store S))))
                     false (clock (store S)))
                  (mkState JNull (Some (clock (store S)))) []
                  (trace S ++ [Access (WriteFile (stringify d)); Access Stat;
                               Settled WriteData (Return None)]))
    by (rewrite Hw; reflexivity).
  exists (mkFile (stringify d) (clock (store S))).
  assert (Hi1 : pending (run (write d) S) = []) by by rewrite Hw'.
  rewrite (notify_change_run _ Hi1). rewrite Hw'. simpl.
  by rewrite Z.eqb_refl.
Qed.

(** X5 (a replaced file goes unnoticed).  When another process replaces
    the file and the notification arrives with any type but [change] -- as
    [rename] does for a replacement by renaming -- a populated cache keeps
    answering [readData] with the old data, whatever the file now holds, and
    the file is not read. *)
Theorem replaced_file_goes_unnoticed (S : System) (st' : Store) (ty : string) :
  pending S = [] ->
  present (cache S) = true ->
  ty <> "change"%string ->
  emitted (External st' :: notify ty ++ read) S =
    [Settled WatchCallback (Return None);
     Settled ReadData (Return (Some (cachedData (cache S))))].
Proof.
  intros Hidle Hp Hty.
  change (External st' :: notify ty ++ read)
    with ([External st'] ++ notify ty ++ read).
  set (S0 := run [External st'] S).
  assert (Hi0 : pending S0 = []) by exact Hidle.
  pose proof (notify_other_run S0 ty Hi0 Hty) as Hn.
  set (S1 := run (notify ty) S0) in *.
  assert (Hi1 : pending S1 = []) by by rewrite Hn.
  assert (Hp1 : present (cache S1) = true) by by rewrite Hn.
  pose proof (read_hit S1 Hi1 Hp1) as Hr.
  apply emitted_intro. rewrite !run_app. fold S0. fold S1.
  rewrite Hr, Hn. simpl. by rewrite <- app_assoc.
Qed.

(** The freshly loaded module agrees with the file: nothing is cached. *)
Lemma boot_coherent (st : Store) : coherent (boot st).
Proof.
  split; [done | ]. unfold boot, load, initFileWatcher_after_stat. simpl.
  by destruct (stat st).
Qed.

(** X1 at a freshly loaded process that reads, is notified, writes and
    reads. *)
Lemma cache_agrees_with_file_at_busy_day :
  coherent (boot on_disk)
  /\ coherent (perform_all busy_day (boot on_disk))
  /\ cachedData (cache (perform_all busy_day (boot on_disk))) = items.
Proof.
  split; [exact (boot_coherent on_disk) | ].
  split; [ | vm_compute; reflexivity].
  exact (proj1 (cache_agrees_with_file busy_day (boot on_disk)
                  (boot_coherent on_disk))).
Defined.

(** X2 at the priced items, written to the seeded file and read after a
    quiet night. *)
Lemma last_write_wins_at_priced :
  read_only (store (boot on_disk)) = false
  /\ json priced = true
  /\ Forall (fun c => is_write c = false) quiet_night
  /\ settled read
       (perform_all quiet_night (perform (boot on_disk) (Write priced)))
     = Some (Return (Some priced)).
Proof.
  assert (Hq : Forall (fun c => is_write c = false) quiet_night)
    by (repeat constructor).
  split; [reflexivity | ]. split; [reflexivity | ]. split; [exact Hq | ].
  exact (last_write_wins (boot on_disk) priced quiet_night
           (boot_coherent on_disk) eq_refl eq_refl Hq).
Defined.

(** X3 at two overlapping reads and a notification. *)
Lemma reads_never_write_at_overlapping_reads :
  forallb reading overlapping_reads = true
  /\ no_write_pending seeded
  /\ store (run overlapping_reads seeded) = on_disk
  /\ pending (run overlapping_reads seeded) = [].
Proof.
  assert (Hp : no_write_pending seeded) by constructor.
  split; [reflexivity | ]. split; [exact Hp | ].
  split; [ | vm_compute; reflexivity].
  exact (reads_never_write overlapping_reads seeded eq_refl Hp).
Defined.

(** X4 at the item list written to the seeded file. *)
Lemma own_write_notification_is_noop_at_items :
  settled (write items) seeded = Some (Return None)
  /\ exists f : File,
       file (store (run (write items) seeded)) = Some f
       /\ content f = stringify items
       /\ getLastModifiedTime (cache (run (write items) seeded))
          = Some (modified f)
       /\ cache (run (notify "change") (run (write items) seeded))
          = cache (run (write items) seeded)
       /\ store (run (notify "change") (run (write items) seeded))
          = store (run (write items) seeded).
Proof.
  assert (H : settled (write items) seeded = Some (Return None))
    by (vm_compute; reflexivity).
  split; [exact H | ].
  exact (own_write_notification_is_noop seeded items eq_refl H).
Defined.

(** X5 at the primed process, the file replaced by renaming. *)
Lemma replaced_file_goes_unnoticed_at_primed :
  present (cache primed) = true
  /\ "rename"%string <> "change"%string
  /\ readFile repaired = Ok (js "[2]")
  /\ emitted (External repaired :: notify "rename" ++ read) primed =
       [Settled WatchCallback (Return None);
        Settled ReadData (Return (Some (JArr [JNum (int 1)])))].
Proof.
  assert (Hne : "rename"%string <> "change"%string) by discriminate.
  split; [reflexivity | ]. split; [exact Hne | ]. split; [reflexivity | ].
  exact (replaced_file_goes_unnoticed primed repaired "rename"%string
           eq_refl eq_refl Hne).
Defined.

End SequenceProperties.

(** * The items routes: properties *)

Module ItemsRouteProperties.
Import JSON Fs ItemRepository Sequences ItemsRoutes Properties.
Import SequenceProperties.

(** ** Pages *)

Lemma ceil_div_bounds (a b : Z) :
  0 <= a -> 0 < b ->
  0 <= ceil_div a b /\ a <= ceil_div a b * b /\ (ceil_div a b - 1) * b < a + 1
  /\ (0 < a -> (ceil_div a b - 1) * b < a).
Proof.
  intros Ha Hb. unfold ceil_div.
  pose proof (Z.div_mod (- a) b ltac:(lia)) as Hdm.
  pose proof (Z.mod_pos_bound (- a) b Hb) as Hm.
  nia.
Qed.

(** The window of a page from the first on: [limit] items after those of
    the pages before it. *)
Lemma slice_page {A : Type} (l : list A) (k : Z) (p : positive) :
  1 <= k ->
  slice l ((k - 1) * Zpos p) ((k - 1) * Zpos p + Zpos p)
  = take (Pos.to_nat p) (drop (Z.to_nat ((k - 1) * Zpos p)) l).
Proof.
  intros Hk. unfold slice, slice_index.
  set (len := Z.of_nat (length l)). set (s := (k - 1) * Z.pos p).
  assert (Hs : 0 <= s) by (unfold s; nia).
  destruct (Z.ltb_spec s 0) as [? | _]; [lia | ].
  destruct (Z.ltb_spec (s + Z.pos p) 0) as [? | _]; [lia | ].
  destruct (Z.le_gt_cases len s) as [Hge | Hlt].
  - rewrite !Z.min_r by lia.
    rewrite (drop_ge l (Z.to_nat s)) by (unfold len in Hge; lia).
    rewrite (drop_ge l (Z.to_nat len)) by (unfold len; lia).
    by rewrite !take_nil.
  - rewrite (Z.min_l s len) by lia.
    destruct (Z.le_gt_cases (s + Z.pos p) len) as [Hfit | Hcut].
    + rewrite Z.min_l by lia. f_equal. lia.
    + rewrite Z.min_r by lia.
      rewrite !take_ge; [done | | ]; rewrite length_drop; unfold len in *; lia.
Qed.

(** The pages of [p] items laid end to end. *)
Lemma chunks_take {A : Type} (l : list A) (p n : nat) :
  concat (map (fun j => take p (drop (j * p) l)) (seq 0 n)) = take (n * p) l.
Proof.
  induction n as [ | n IH]; [done | ].
  rewrite seq_S, map_app, concat_app, IH. simpl. rewrite app_nil_r.
  rewrite take_take_drop. f_equal. lia.
Qed.

Section Listing.

Variable toLowerCase : text -> text.

Lemma list_items_page (l kept : list Value) (lim : positive) (k : Z)
    (q : option text) :
  search toLowerCase (JArr l) q = Some (JArr kept) ->
  list_items toLowerCase (mkQuery (Some lim) (Some k) q) (JArr l)
  = inr (mkListing
           (JArr (slice kept ((k - 1) * Zpos lim) ((k - 1) * Zpos lim + Zpos lim)))
           (mkPagination k (Zpos lim) (Z.of_nat (length kept))
              (ceil_div (Z.of_nat (length kept)) (Zpos lim))
              (k <? ceil_div (Z.of_nat (length kept)) (Zpos lim))
              (k >? 1))).
Proof. intros Hs. unfold list_items. simpl. by rewrite Hs. Qed.

(** X6 (the pages partition the results).  For a positive limit, the
    pages from the first to the last reported one ([totalPages]), laid end
    to end, are exactly the results of the search, each item once and in
    the order of the file. *)
Theorem pages_partition_results (l kept : list Value) (lim : positive)
    (q : option text) :
  search toLowerCase (JArr l) q = Some (JArr kept) ->
  concat
    (map (fun k : nat =>
            listed (list_items toLowerCase
                      (mkQuery (Some lim) (Some (Z.of_nat k)) q) (JArr l)))
       (seq 1 (Z.to_nat (ceil_div (Z.of_nat (length kept)) (Zpos lim)))))
  = kept.
Proof.
  intros Hs.
  set (n := Z.to_nat (ceil_div (Z.of_nat (length kept)) (Zpos lim))).
  pose proof (ceil_div_bounds (Z.of_nat (length kept)) (Zpos lim)
                ltac:(lia) ltac:(lia)) as (Hn0 & Hcover & _).
  rewrite <- seq_shift, map_map.
  rewrite (map_ext _ (fun j => take (Pos.to_nat lim)
                                 (drop (j * Pos.to_nat lim) kept))).
  - rewrite chunks_take. apply take_ge. unfold n. nia.
  - intros j. rewrite (list_items_page l kept lim _ q Hs). simpl.
    rewrite slice_page by lia. do 2 f_equal. nia.
Qed.

(** X7 (what a page holds).  For a positive limit and a page from the
    first on, the listing holds the [limit] results that follow those of
    the pages before it -- never more than [limit] -- and reports the number
    of results; [hasNext] is set exactly when the next page holds an item,
    [hasPrev] exactly when the page is not the first, and a page past
    [totalPages] is empty. *)
Theorem page_window (l kept : list Value) (lim : positive) (k : Z)
    (q : option text) :
  search toLowerCase (JArr l) q = Some (JArr kept) ->
  1 <= k ->
  exists L : Listing,
    list_items toLowerCase (mkQuery (Some lim) (Some k) q) (JArr l) = inr L
    /\ items L = JArr (take (Pos.to_nat lim)
                         (drop (Z.to_nat ((k - 1) * Zpos lim)) kept))
    /\ (length (take (Pos.to_nat lim)
                  (drop (Z.to_nat ((k - 1) * Zpos lim)) kept))
        <= Pos.to_nat lim)%nat
    /\ total (pagination L) = Z.of_nat (length kept)
    /\ (hasNext (pagination L) = true <->
        listed (list_items toLowerCase
                  (mkQuery (Some lim) (Some (k + 1)) q) (JArr l)) <> [])
    /\ (hasPrev (pagination L) = true <-> 1 < k)
    /\ (totalPages (pagination L) < k -> items L = JArr []).
Proof.
  intros Hs Hk.
  pose proof (ceil_div_bounds (Z.of_nat (length kept)) (Zpos lim)
                ltac:(lia) ltac:(lia)) as (Hn0 & Hcover & Hlow & Hlast).
  eexists. split; [by apply list_items_page | ]. simpl.
  rewrite slice_page by done.
  split; [done | ]. split; [rewrite length_take; lia | ]. split; [done | ].
  split; [ | split].
  - rewrite (list_items_page l kept lim (k + 1) q Hs). simpl.
    rewrite slice_page by lia.
    replace (k + 1 - 1) with k by lia.
    rewrite Z.ltb_lt. split.
    + intros Hlt Hnil. apply take_nil_inv in Hnil as [Hp | Hd]; [lia | ].
      apply drop_nil_inv in Hd.
      set (N := ceil_div (Z.of_nat (length kept)) (Z.pos lim)) in *.
      assert (k * Z.pos lim <= (N - 1) * Z.pos lim) by nia.
      assert (1 * Z.pos lim <= (N - 1) * Z.pos lim) by nia.
      assert (0 < Z.of_nat (length kept)) by lia.
      specialize (Hlast ltac:(done)). lia.
    + intros Hne.
      destruct (Z.lt_ge_cases k
                  (ceil_div (Z.of_nat (length kept)) (Z.pos lim)))
        as [? | Hge]; [done | ].
      destruct Hne. rewrite drop_ge; [by rewrite take_nil | nia].
  - rewrite Z.gtb_gt. lia.
  - intros Hpast. rewrite drop_ge; [by rewrite take_nil | nia].
Qed.

End Listing.

Lemma listed_paginate (l : list Value) (k : Z) (lim : positive) :
  listed (paginate (JArr l) k lim)
  = slice l ((k - 1) * Zpos lim) ((k - 1) * Zpos lim + Zpos lim).
Proof. reflexivity. Qed.

(** X8 (the pages before the first).  Page 0 lists nothing.  A negative
    page lists items too: counted from the end of the results, page [-k]
    holds what page [k + 1] of the reversed results holds. *)
Theorem pages_before_the_first (l : list Value) (lim : positive) (k : Z) :
  k <= 0 ->
  listed (paginate (JArr l) k lim)
  = if k =? 0 then []
    else rev (listed (paginate (JArr (rev l)) (1 - k) lim)).
Proof.
  intros Hk. rewrite !listed_paginate.
  destruct (Z.eqb_spec k 0) as [-> | Hne].
  - unfold slice, slice_index.
    destruct (Z.ltb_spec ((0 - 1) * Z.pos lim) 0) as [_ | ?]; [ | lia].
    destruct (Z.ltb_spec ((0 - 1) * Z.pos lim + Z.pos lim) 0) as [? | _];
      [lia | ].
    replace (Z.to_nat _) with 0%nat by lia. done.
  - rewrite (slice_page (rev l) (1 - k) lim) by lia.
    replace (1 - k - 1) with (- k) by lia.
    unfold slice, slice_index.
    set (len := Z.of_nat (length l)).
    destruct (Z.ltb_spec ((k - 1) * Z.pos lim) 0) as [_ | ?]; [ | nia].
    destruct (Z.ltb_spec ((k - 1) * Z.pos lim + Z.pos lim) 0) as [_ | ?];
      [ | nia].
    set (m := Z.to_nat (- k * Z.pos lim)).
    rewrite skipn_rev, firstn_rev, rev_involutive.
    rewrite length_take, take_drop_commute.
    assert (Hfrom : Z.to_nat (Z.max (len + (k - 1) * Z.pos lim) 0)
                    = (length l - m - Pos.to_nat lim)%nat)
      by (unfold len, m; lia).
    rewrite Hfrom.
    replace (Z.to_nat (Z.max (len + ((k - 1) * Z.pos lim + Z.pos lim)) 0
                       - Z.max (len + (k - 1) * Z.pos lim) 0))
      with ((length l - m) - (length l - m - Pos.to_nat lim))%nat
      by (unfold len, m; lia).
    replace (Init.Nat.min (length l - m) (length l)) with (length l - m)%nat
      by lia.
    f_equal. f_equal. lia.
Qed.

(** ** Search *)

Section SearchProperties.

Variable toLowerCase : text -> text.

Lemma has_name_matches (q : text) (item : Value) :
  name_matches toLowerCase q item
  = if has_name item
    then Some (match property (js "name") item with
               | Some (Some (JStr name)) =>
                   includes (toLowerCase name) (toLowerCase q)
               | _ => false
               end)
    else None.
Proof.
  unfold name_matches, has_name.
  by destruct (property (js "name") item) as [[[] | ] | ].
Qed.

Lemma filter_by_name_named (q : text) (l : list Value) :
  forallb has_name l = true ->
  filter_by_name toLowerCase q l
  = Some (filter (fun i => name_matches toLowerCase q i = Some true) l).
Proof.
  induction l as [ | i l IH]; [done | ]. simpl.
  intros [Hi Hl]%andb_true_iff. rewrite (IH Hl).
  destruct (name_matches toLowerCase q i) as [[] | ] eqn:Hm.
  - by rewrite filter_cons_True.
  - rewrite filter_cons_False; [done | ]. by rewrite Hm.
  - rewrite has_name_matches, Hi in Hm. done.
Qed.

Lemma filter_by_name_nameless (q : text) (l : list Value) :
  forallb has_name l = false -> filter_by_name toLowerCase q l = None.
Proof.
  induction l as [ | i l IH]; [done | ]. simpl.
  rewrite has_name_matches.
  destruct (has_name i); [ | done]. simpl. intros Hl. by rewrite (IH Hl).
Qed.

Lemma search_text (q : text) (l : list Value) :
  q <> [] ->
  search toLowerCase (JArr l) (Some q)
  = option_map JArr (filter_by_name toLowerCase q l).
Proof.
  intros Hq. unfold search. by destruct q.
Qed.

Lemma starts_with_spec (sub s : text) :
  starts_with sub s = true <-> exists after, s = sub ++ after.
Proof.
  revert s. induction sub as [ | a sub IH]; intros s; simpl.
  - split; [by exists s | done].
  - destruct s as [ | b s]; [split; [done | by intros [after ?]] | ].
    rewrite andb_true_iff, N.eqb_eq, IH. split.
    + intros [-> [after ->]]. by exists after.
    + intros [after [= -> ->]]. split; [done | by exists after].
Qed.

(** [s.includes(sub)] holds exactly when [sub] occurs in [s]. *)
Lemma includes_spec (s sub : text) :
  includes s sub = true <-> exists before after, s = before ++ sub ++ after.
Proof.
  split.
  - induction s as [ | a s IH]; simpl.
    + destruct (starts_with sub []) eqn:H; [ | done].
      apply starts_with_spec in H as [after ->]. intros _. by exists [], after.
    + destruct (starts_with sub (a :: s)) eqn:H.
      * apply starts_with_spec in H as [after ->]. intros _. by exists [], after.
      * intros Hi. destruct (IH Hi) as (before & after & ->).
        by exists (a :: before), after.
  - intros (before & after & ->).
    induction before as [ | b before IH].
    + assert (H : starts_with sub (sub ++ after) = true)
        by (apply starts_with_spec; by exists after).
      simpl. destruct (sub ++ after); simpl; by rewrite H.
    + simpl. rewrite IH. by destruct (starts_with sub _).
Qed.

(** The callback keeps an item exactly when its lower-cased name holds the
    lower-cased [q]. *)
Lemma name_matches_spec (q : text) (item : Value) :
  name_matches toLowerCase q item = Some true
  <-> exists name before after : text,
        property (js "name") item = Some (Some (JStr name))
        /\ toLowerCase name = before ++ toLowerCase q ++ after.
Proof.
  unfold name_matches. split.
  - destruct (property (js "name") item) as [[[] | ] | ]; try done.
    intros [= H]. apply includes_spec in H as (before & after & H).
    by eexists _, before, after.
  - intros (name & before & after & -> & H). f_equal.
    apply includes_spec. by exists before, after.
Qed.

(** X9 (what a search keeps).  For a non-empty [q], and when every item
    has a string for a name, the results of the search are items of the
    file in the order of the file, and an item is among them exactly when
    the lower-cased [q] occurs in its lower-cased name: somewhere in it,
    at the start, in the middle or at the end. *)
Theorem search_keeps_matching_names (q : text) (l : list Value) :
  q <> [] ->
  forallb has_name l = true ->
  exists kept : list Value,
    search toLowerCase (JArr l) (Some q) = Some (JArr kept)
    /\ sublist kept l
    /\ forall item : Value,
         item ∈ kept
         <-> item ∈ l
             /\ exists name before after : text,
                  property (js "name") item = Some (Some (JStr name))
                  /\ toLowerCase name = before ++ toLowerCase q ++ after.
Proof.
  intros Hq Hl. eexists. split.
  - by rewrite (search_text q l Hq), (filter_by_name_named q l Hl).
  - split; [apply sublist_filter | ]. intros item.
    rewrite list_elem_of_filter, name_matches_spec. tauto.
Qed.

(** X10 (one nameless item breaks every search).  For a non-empty [q] the
    handler throws a [TypeError] -- whatever the page and the limit -- exactly
    when some item of the file has no string for a name, be it an item that
    matches or not; without [q] the same file is listed. *)
Theorem nameless_item_breaks_search (q : text) (l : list Value)
    (lim : option positive) (pg : option Z) :
  q <> [] ->
  (list_items toLowerCase (mkQuery lim pg (Some q)) (JArr l) = inl TypeError
   <-> forallb has_name l = false)
  /\ exists L : Listing,
       list_items toLowerCase (mkQuery lim pg None) (JArr l) = inr L.
Proof.
  intros Hq. split; [ | by eexists].
  unfold list_items. cbn [query_q]. rewrite (search_text q l Hq).
  destruct (forallb has_name l) eqn:Hl.
  - by rewrite (filter_by_name_named q l Hl).
  - by rewrite (filter_by_name_nameless q l Hl).
Qed.

End SearchProperties.

(** ** One item *)

Lemma has_id_cases (id : option Z) (item : Value) :
  match has_id id item with
  | None => item = JNull
  | Some true =>
      exists (n : Z) (x : Number),
        id = Some n /\ property (js "id") item = Some (Some (JNum x))
        /\ same_number x (int n) = true
  | Some false => passed_over id item
  end.
Proof.
  unfold has_id, passed_over.
  destruct item as [ | b | x | s | vs | ms]; simpl;
    try (split; [done | by intros]); try done.
  destruct (member (js "id") ms) as [[ | b | x | s | vs | ms'] | ];
    try (split; [done | by intros]).
  destruct id as [n | ]; [ | split; [done | by intros]].
  destruct (same_number x (int n)) eqn:Hx.
  - by exists n, x.
  - split; [done | ]. by intros k y [= ->] [= ->].
Qed.

(** X11 (the item of an id).  [GET /api/items/:id] answers the first item
    of the file whose [id] is a number [===] the one asked for, whatever
    follows it; it answers 404 exactly when every item is passed over, as
    all are for an id that is no number; and it throws a [TypeError]
    exactly when a [null] item comes before any match. *)
Theorem get_item_first_match (l : list Value) (id : option Z) :
  match get_item id (JArr l) with
  | inr item =>
      exists (n : Z) (x : Number) (before after : list Value),
        id = Some n /\ l = before ++ item :: after
        /\ property (js "id") item = Some (Some (JNum x))
        /\ same_number x (int n) = true
        /\ Forall (passed_over id) before
  | inl NotFound => Forall (passed_over id) l
  | inl TypeError =>
      exists before after : list Value,
        l = before ++ JNull :: after /\ Forall (passed_over id) before
  | inl _ => False
  end.
Proof.
  unfold get_item. induction l as [ | i l IH]; simpl; [done | ].
  pose proof (has_id_cases id i) as Hi.
  destruct (has_id id i) as [[] | ].
  - destruct Hi as (n & x & -> & Hp & Hx). by exists n, x, [], l.
  - destruct (find_by_id id l) as [[item | ] | ].
    + destruct IH as (n & x & before & after & -> & -> & Hp & Hx & Hb).
      exists n, x, (i :: before), after. repeat split; [done | done | ].
      by apply Forall_cons.
    + by apply Forall_cons.
    + destruct IH as (before & after & -> & Hb).
      exists (i :: before), after. split; [done | by apply Forall_cons].
  - subst i. by exists [], l.
Qed.

(** ** A new item *)

(** A read that returns: the process is idle again, the file is as it
    was, and the value returned is the one [cachedData] holds. *)
Lemma read_settled (S : System) (v : Value) :
  pending S = [] ->
  settled read S = Some (Return (Some v)) ->
  pending (run read S) = [] /\ store (run read S) = store S
  /\ cachedData (cache (run read S)) = v.
Proof.
  intros Hidle Hs. unfold settled in Hs.
  destruct (present (cache S)) eqn:Hp.
  - pose proof (read_hit S Hidle Hp) as H.
    rewrite (emitted_intro _ _ _ (f_equal trace H)) in Hs. simpl in Hs.
    injection Hs as <-. by rewrite H.
  - pose proof (read_miss S Hidle Hp) as H.
    destruct (readFile (store S)) as [raw | e].
    2:{ rewrite (emitted_intro _ _ _ (f_equal trace H)) in Hs. done. }
    destruct (parse raw) as [w | ].
    2:{ rewrite (emitted_intro _ _ _ (f_equal trace H)) in Hs. done. }
    destruct (stat (store S)) as [stats | e].
    2:{ rewrite (emitted_intro _ _ _ (f_equal trace H)) in Hs. done. }
    rewrite (emitted_intro _ _ _ (f_equal trace H)) in Hs. simpl in Hs.
    injection Hs as <-. by rewrite H.
Qed.




(** The process as [POST] leaves it when the write is started: the item
    is in the array that [cachedData] holds. *)
Lemma create_item_run (body : list (text * Value)) (now : Z) (S : System)
    (l : list Value) :
  pending S = [] ->
  settled read S = Some (Return (Some (JArr l))) ->
  exists S2 : System,
    pending S2 = [] /\ store S2 = store S
    /\ cachedData (cache S2) = JArr (l ++ [JObj (set_member (js "id") (JNum (int now)) body)])
    /\ create_item body now S
       = (run (write (cachedData (cache S2))) S2,
          match settled (write (cachedData (cache S2))) S2 with
          | Some (Return _) => Sent 201 (set_member (js "id") (JNum (int now)) body)
          | Some (Throw e) => Next (Repository e)
          | None => NoReply
          end).
Proof.
  intros Hidle Hs. destruct (read_settled S _ Hidle Hs) as (Hi1 & Hst1 & _).
  eexists (mkSystem _ (mkState _ _) _ _).
  split; [exact Hi1 | ]. split; [exact Hst1 | ]. split; [reflexivity | ].
  unfold create_item. by rewrite Hs.
Qed.


(** X13 (a failed write leaves a phantom item).  When the file cannot be
    written, [POST /api/items] passes the error on and the file is as it
    was; but the item has been pushed onto the very array that [cachedData]
    holds, so the next [readData] -- and with it every route -- answers a
    list that ends with the item, without reading the file. *)
Theorem failed_post_leaves_phantom_item (S : System) (l : list Value)
    (body : list (text * Value)) (now : Z) :
  pending S = [] ->
  settled read S = Some (Return (Some (JArr l))) ->
  read_only (store S) = true ->
  snd (create_item body now S) = Next (Repository (IOError EACCES))
  /\ store (fst (create_item body now S)) = store S
  /\ emitted read (fst (create_item body now S))
     = [Settled ReadData
          (Return (Some (JArr (l ++ [JObj (set_member (js "id") (JNum (int now)) body)]))))].
Proof.
  intros Hidle Hs Hro.
  destruct (create_item_run body now S l Hidle Hs)
    as (S2 & Hi2 & Hst2 & Hc2 & ->).
  set (item := set_member (js "id") (JNum (int now)) body) in *.
  pose proof (write_run S2 (cachedData (cache S2)) Hi2) as Hw.
  rewrite writeFile_stringify in Hw. rewrite Hst2, Hro in Hw.
  set (data := cachedData (cache S2)) in *.
  assert (Hi3 : pending (run (write data) S2) = []) by by rewrite Hw.
  assert (Hc3 : cache (run (write data) S2) = cache S2) by by rewrite Hw.
  assert (Hp3 : present (cache (run (write data) S2)) = true).
  { rewrite Hc3. unfold present. fold data. by rewrite Hc2. }
  cbn [fst snd].
  rewrite (settled_intro (write data) S2 [Access (WriteFile (stringify data))]
             WriteData (Throw (IOError EACCES))) by (by rewrite Hw).
  split; [done | ]. split; [by rewrite Hw | ].
  apply emitted_intro. rewrite (read_hit _ Hi3 Hp3), Hc3. fold data.
  by rewrite Hc2.
Qed.

Section Nameless.

Variable toLowerCase : text -> text.


End Nameless.

(** ** The properties at work *)

(** X6 at the catalogue searched for [LAP], two items to the page. *)
Lemma pages_partition_results_at_catalogue :
  search lower (JArr catalogue) (Some (js "LAP"))
  = Some (JArr [named 1 "Laptop Pro"; named 5 "Laptop stand";
                named 7 "laptop bag"])
  /\ concat
       (map (fun k : nat =>
               listed (list_items lower
                         (mkQuery (Some 2%positive) (Some (Z.of_nat k))
                            (Some (js "LAP")))
                         (JArr catalogue)))
          (seq 1 2))
     = [named 1 "Laptop Pro"; named 5 "Laptop stand"; named 7 "laptop bag"].
Proof.
  assert (H : search lower (JArr catalogue) (Some (js "LAP"))
              = Some (JArr [named 1 "Laptop Pro"; named 5 "Laptop stand";
                            named 7 "laptop bag"]))
    by (vm_compute; reflexivity).
  split; [exact H | ].
  exact (pages_partition_results lower catalogue _ 2%positive
           (Some (js "LAP")) H).
Defined.

(** X7 at the second page of the same search. *)
Lemma page_window_at_catalogue :
  search lower (JArr catalogue) (Some (js "LAP"))
  = Some (JArr [named 1 "Laptop Pro"; named 5 "Laptop stand";
                named 7 "laptop bag"])
  /\ 1 <= 2
  /\ listed (list_items lower
               (mkQuery (Some 2%positive) (Some 2) (Some (js "LAP")))
               (JArr catalogue))
     = [named 7 "laptop bag"]
  /\ exists L : Listing,
       list_items lower (mkQuery (Some 2%positive) (Some 2) (Some (js "LAP")))
         (JArr catalogue) = inr L
       /\ items L = JArr (take (Pos.to_nat 2)
                            (drop (Z.to_nat ((2 - 1) * 2))
                               [named 1 "Laptop Pro"; named 5 "Laptop stand";
                                named 7 "laptop bag"]))
       /\ (length (take (Pos.to_nat 2)
                     (drop (Z.to_nat ((2 - 1) * 2))
                        [named 1 "Laptop Pro"; named 5 "Laptop stand";
                         named 7 "laptop bag"]))
           <= Pos.to_nat 2)%nat
       /\ total (pagination L) = 3
       /\ (hasNext (pagination L) = true <->
           listed (list_items lower
                     (mkQuery (Some 2%positive) (Some (2 + 1))
                        (Some (js "LAP")))
                     (JArr catalogue)) <> [])
       /\ (hasPrev (pagination L) = true <-> 1 < 2)
       /\ (totalPages (pagination L) < 2 -> items L = JArr []).
Proof.
  assert (H : search lower (JArr catalogue) (Some (js "LAP"))
              = Some (JArr [named 1 "Laptop Pro"; named 5 "Laptop stand";
                            named 7 "laptop bag"]))
    by (vm_compute; reflexivity).
  assert (Hk : 1 <= 2) by lia.
  split; [exact H | ]. split; [exact Hk | ].
  split; [vm_compute; reflexivity | ].
  exact (page_window lower catalogue _ 2%positive 2 (Some (js "LAP")) H Hk).
Defined.

(** X8 at the catalogue, three items to the page, page -1. *)
Lemma pages_before_the_first_at_catalogue :
  -1 <= 0
  /\ listed (paginate (JArr catalogue) (-1) 3)
     = [named 2 "Headphones"; named 3 "Monitor"; named 4 "Desk lamp"]
  /\ listed (paginate (JArr catalogue) (-1) 3)
     = rev (listed (paginate (JArr (rev catalogue)) (1 - -1) 3)).
Proof.
  assert (Hk : -1 <= 0) by lia.
  split; [exact Hk | ]. split; [vm_compute; reflexivity | ].
  exact (pages_before_the_first catalogue 3%positive (-1) Hk).
Defined.

(** X9 at the catalogue searched for [LAP]. *)
Lemma search_keeps_matching_names_at_catalogue :
  js "LAP" <> []
  /\ forallb has_name catalogue = true
  /\ search lower (JArr catalogue) (Some (js "LAP"))
     = Some (JArr [named 1 "Laptop Pro"; named 5 "Laptop stand";
                   named 7 "laptop bag"])
  /\ exists kept : list Value,
       search lower (JArr catalogue) (Some (js "LAP")) = Some (JArr kept)
       /\ sublist kept catalogue
       /\ forall item : Value,
            item ∈ kept
            <-> item ∈ catalogue
                /\ exists name before after : text,
                     property (js "name") item = Some (Some (JStr name))
                     /\ lower name = before ++ lower (js "LAP") ++ after.
Proof.
  assert (Hq : js "LAP" <> []) by discriminate.
  split; [exact Hq | ]. split; [reflexivity | ].
  split; [vm_compute; reflexivity | ].
  exact (search_keeps_matching_names lower (js "LAP") catalogue Hq eq_refl).
Defined.

(** X10 at the catalogue with a nameless item put first. *)
Lemma nameless_item_breaks_search_at_catalogue :
  js "LAP" <> []
  /\ list_items lower (mkQuery None None (Some (js "LAP")))
       (JArr (JObj nameless :: catalogue))
     = inl TypeError
  /\ ((list_items lower (mkQuery None None (Some (js "LAP")))
         (JArr (JObj nameless :: catalogue)) = inl TypeError
       <-> forallb has_name (JObj nameless :: catalogue) = false)
      /\ exists L : Listing,
           list_items lower (mkQuery None None None)
             (JArr (JObj nameless :: catalogue)) = inr L).
Proof.
  assert (Hq : js "LAP" <> []) by discriminate.
  split; [exact Hq | ]. split; [vm_compute; reflexivity | ].
  exact (nameless_item_breaks_search lower (js "LAP")
           (JObj nameless :: catalogue) None None Hq).
Defined.


(** X13 at the locked shelf. *)
Lemma failed_post_leaves_phantom_item_at_locked_shelf :
  settled read locked_shelf = Some (Return (Some (JArr [Scenarios.laptop])))
  /\ read_only (store locked_shelf) = true
  /\ snd (create_item mouse 1700 locked_shelf)
     = Next (Repository (IOError EACCES))
  /\ store (fst (create_item mouse 1700 locked_shelf)) = store locked_shelf
  /\ emitted read (fst (create_item mouse 1700 locked_shelf))
     = [Settled ReadData
          (Return (Some (JArr ([Scenarios.laptop]
                               ++ [JObj (set_member (js "id") (JNum (int 1700)) mouse)]))))].
Proof.
  assert (Hs : settled read locked_shelf
               = Some (Return (Some (JArr [Scenarios.laptop]))))
    by (vm_compute; reflexivity).
  split; [exact Hs | ]. split; [reflexivity | ].
  exact (failed_post_leaves_phantom_item locked_shelf [Scenarios.laptop] mouse
           1700 eq_refl Hs eq_refl).
Defined.


End ItemsRouteProperties.

(** * The stats route: properties *)

Module StatsRouteProperties.
Import JSON Fs ItemRepository Sequences ItemsRoutes StatsRoute Properties.
Import SequenceProperties ItemsRouteProperties.

#[local] Arguments run : simpl never.

(** ** The objects stored by one call *)

Lemma assignments_read_hit (S : System) :
  pending S = [] ->
  present (cache S) = true ->
  assignments read S = 0%nat.
Proof.
  intros Hidle Hp. unfold present in Hp. unfold read. simpl.
  unfold start, readData. rewrite Hp. simpl. by rewrite Hidle.
Qed.

Lemma assignments_read_miss (S : System) :
  pending S = [] ->
  present (cache S) = false ->
  assignments read S =
    match readFile (store S) with
    | Err _ => 0%nat
    | Ok raw =>
        match parse raw with
        | None => 0%nat
        | Some _ =>
            match stat (store S) with
            | Ok _ => 1%nat
            | Err _ => 0%nat
            end
        end
    end.
Proof.
  intros Hidle Hp. unfold present in Hp. unfold read. simpl.
  unfold start, readData. rewrite Hp, Hidle. simpl.
  unfold readData_after_readFile.
  destruct (readFile (store S)) as [raw | e]; simpl; [ | done].
  destruct (parse raw) as [v | ]; simpl; [ | done].
  by destruct (stat (store S)).
Qed.

Lemma assignments_write (S : System) (data : Value) :
  pending S = [] ->
  assignments (write data) S = if read_only (store S) then 0%nat else 1%nat.
Proof.
  intros Hidle. unfold write. simpl. unfold start, writeData.
  rewrite Hidle. simpl. unfold writeFile.
  by destruct (read_only (store S)).
Qed.

Lemma assignments_notify_change (S : System) :
  pending S = [] ->
  assignments (notify "change") S =
    match stat (store S) with
    | Ok stats =>
        if mtime_changed stats (lastFileMtime (cache S)) then 1%nat else 0%nat
    | Err _ => 0%nat
    end.
Proof.
  intros Hidle. unfold notify. simpl. unfold start. simpl.
  rewrite Hidle. simpl.
  destruct (stat (store S)) as [stats | e]; [ | done].
  by destruct (mtime_changed stats (lastFileMtime (cache S))).
Qed.

Lemma assignments_notify_other (S : System) (ty : string) :
  pending S = [] ->
  ty <> "change"%string ->
  assignments (notify ty) S = 0%nat.
Proof.
  intros Hidle Hty. unfold notify. simpl. unfold start, watchFile_callback.
  destruct (String.eqb_spec ty "change") as [Heq | _]; [by destruct Hty | ].
  simpl. by rewrite Hidle.
Qed.

(** Every change of [lastFileMtime] is counted: an event that stores no
    object leaves [lastFileMtime] as it was. *)
Lemma unassigned_step (S : System) (e : event) :
  assigns_mtime S e = false ->
  lastFileMtime (cache (step S e)) = lastFileMtime (cache S).
Proof.
  destruct e as [ | data | ty | i | st]; simpl; unfold start.
  - unfold readData. by destruct (truthy (cachedData (cache S))).
  - done.
  - unfold watchFile_callback. by destruct (String.eqb ty "change").
  - destruct (pending S !! i) as [f | ]; [ | done].
    destruct f; simpl.
    + unfold readData_after_readFile.
      destruct (readFile (store S)) as [raw | err]; simpl; [ | done].
      by destruct (parse raw).
    + unfold readData_after_stat. by destruct (stat (store S)).
    + unfold writeFile. by destruct (read_only (store S)).
    + unfold writeData_after_stat. by destruct (stat (store S)).
    + unfold watchFile_after_stat.
      destruct (stat (store S)) as [stats | err]; simpl; [ | done].
      by destruct (mtime_changed stats (lastFileMtime (cache S))).
  - done.
Qed.

#[local] Arguments assignments : simpl never.

(** A call either stores no object and leaves a cache that is populated as
    it was, or stores one. *)
Lemma perform_cases (S : System) (c : call) :
  pending S = [] ->
  (call_dates S c = 0%nat
   /\ (present (cache (perform S c)) = true -> cache (perform S c) = cache S))
  \/ (call_dates S c = 1%nat
      /\ exists t : Z, lastFileMtime (cache (perform S c)) = Some t).
Proof.
  intros Hidle. destruct c as [ | | data | ty]; unfold call_dates, perform.
  - unfold load, initFileWatcher_after_stat. simpl.
    destruct (stat (store S)) as [stats | e]; [right | left]; eauto.
  - destruct (present (cache S)) eqn:Hp.
    + rewrite (assignments_read_hit S Hidle Hp), (read_hit S Hidle Hp).
      by left.
    + rewrite (assignments_read_miss S Hidle Hp), (read_miss S Hidle Hp).
      destruct (readFile (store S)) as [raw | e] eqn:Hraw; [ | by left].
      destruct (parse raw) as [v | ]; [ | by left].
      destruct (readFile_stat _ _ Hraw) as [stats ->]. right. simpl. eauto.
  - rewrite (assignments_write S data Hidle), (write_run S data Hidle).
    unfold writeFile. destruct (read_only (store S)); [by left | ].
    right. simpl. eauto.
  - destruct (String.eqb_spec ty "change") as [-> | Hne].
    + rewrite (assignments_notify_change S Hidle), (notify_change_run S Hidle).
      simpl. destruct (stat (store S)) as [stats | e]; [ | by left].
      destruct (mtime_changed stats (lastFileMtime (cache S)));
        [right; eauto | by left].
    + rewrite (assignments_notify_other S ty Hidle Hne),
        (notify_other_run S ty Hidle Hne). by left.
Qed.

Section StatsProperties.

Variable Average : Type.
Variable mean : list (option Value) -> option Average.

Abbreviation Server := (Server Average).
Abbreviation Summary := (Summary Average).
Abbreviation calculate := (calculateStats_after_readData Average mean).
Abbreviation get_stats := (get_stats Average mean).
Abbreviation handle := (handle Average mean).
Abbreviation handle_all := (handle_all Average mean).
Abbreviation agrees := (agrees Average mean).

(** Only an array has a summary, and an array is truthy. *)
Lemma calculate_truthy (data : Value) (s : Summary) :
  calculate data = inr s -> truthy data = true.
Proof. by destruct data. Qed.

(** The summary that is kept is sent, and nothing else happens. *)
Lemma get_stats_kept (T : Server) (s : Summary) :
  cachedStats T = Some s ->
  cachedStatsMtime T = currentMtime T ->
  get_stats T = (T, Sent 200 s).
Proof.
  intros Hs Hm. unfold StatsRoute.get_stats, invalidated. rewrite Hs.
  by destruct (decide (cachedStatsMtime T = currentMtime T)).
Qed.

(** A summary that is computed, from what [readData] answers. *)
Lemma get_stats_computed (T : Server) (data : Value) (s : Summary) :
  invalidated T = None ->
  settled read (process T) = Some (Return (Some data)) ->
  calculate data = inr s ->
  get_stats T
  = (mkServer Average (run read (process T))
       (dates T + assignments read (process T)) (Some s) (currentMtime T),
     Sent 200 s).
Proof.
  intros Hi Hr Hc. unfold StatsRoute.get_stats. by rewrite Hi, Hr, Hc.
Qed.

Lemma currentMtime_bound (T : Server) (n : nat) :
  currentMtime T = Some n -> n = dates T.
Proof.
  unfold currentMtime. destruct (getLastModifiedTime _); congruence.
Qed.

Lemma repo_agrees (T : Server) (c : call) :
  agrees T -> agrees (handle T (Repo c)).
Proof.
  intros (Hcoh & Hbound & Hval). pose proof Hcoh as [Hidle _].
  split; [by apply perform_coherent | ]. simpl. split.
  - intros n Hn. specialize (Hbound n Hn). lia.
  - intros s Hs Hm Hp. unfold currentMtime in Hm. simpl in Hm.
    destruct (perform_cases (process T) c Hidle)
      as [[Hd Hsame] | [Hd [t Ht]]].
    + specialize (Hsame Hp). rewrite Hsame in *. rewrite Hd in Hm.
      apply Hval; [done | | done].
      unfold currentMtime. by rewrite Nat.add_0_r in Hm.
    + unfold getLastModifiedTime in Hm. rewrite Ht, Hd in Hm.
      specialize (Hbound _ Hm). lia.
Qed.

Lemma stats_agrees (T : Server) : agrees T -> agrees (handle T Stats).
Proof.
  intros (Hcoh & Hbound & Hval). pose proof Hcoh as [Hidle _].
  pose proof (perform_coherent _ Read Hcoh) as Hcoh'.
  assert (Hb : forall n : nat,
             cachedStatsMtime T = Some n ->
             (n <= dates T + assignments read (process T))%nat)
    by (intros n Hn; specialize (Hbound n Hn); lia).
  unfold StatsRoute.handle, StatsRoute.get_stats.
  destruct (invalidated T) as [s | ] eqn:Hi; [done | ].
  destruct (settled read (process T)) as [[[data | ] | e] | ] eqn:Hr;
    try (split; [exact Hcoh' | split; [exact Hb | done]]).
  destruct (calculate data) as [err | s] eqn:Hc;
    [split; [exact Hcoh' | split; [exact Hb | done]] | ].
  split; [exact Hcoh' | ]. simpl. split.
  - intros n Hn. apply currentMtime_bound in Hn. lia.
  - intros s' [= <-] Hm Hp.
    destruct (read_settled _ _ Hidle Hr) as (_ & _ & Hdata).
    destruct (perform_cases (process T) Read Hidle)
      as [[Hd _] | [Hd [t Ht]]]; simpl in Hd.
    + by rewrite Hdata.
    + simpl in Ht. unfold currentMtime in Hm at 2. simpl in Hm.
      unfold getLastModifiedTime in Hm. rewrite Ht, Hd in Hm.
      apply currentMtime_bound in Hm. lia.
Qed.

Lemma handle_agrees (T : Server) (r : request) :
  agrees T -> agrees (handle T r).
Proof. destruct r; [apply repo_agrees | apply stats_agrees]. Qed.

Lemma handle_all_agrees (rs : list request) (T : Server) :
  agrees T -> agrees (handle_all rs T).
Proof.
  revert T. induction rs as [ | r rs IH]; intros T H; [done | ].
  simpl. apply IH. by apply handle_agrees.
Qed.

Lemma boot_server_agrees (st : Store) : agrees (boot_server Average st).
Proof.
  split; [apply boot_coherent | ]. by split.
Qed.

(** X15 (the summary agrees with the file).  Whatever calls of the
    repository and requests for the stats a server has handled, one after
    the other and with no other process touching the file, a summary that
    [GET /api/stats] then answers while the repository holds the items in
    its cache is the summary of the decoded content of the file. *)
Theorem stats_agree_with_file (rs : list request) (T : Server) (s : Summary) :
  agrees T ->
  snd (get_stats (handle_all rs T)) = Sent 200 s ->
  present (cache (process (fst (get_stats (handle_all rs T))))) = true ->
  exists (f : File) (data : Value),
    file (store (process (fst (get_stats (handle_all rs T))))) = Some f
    /\ parse (content f) = Some data
    /\ calculate data = inr s.
Proof.
  intros H0 Hsent Hp.
  pose proof (handle_all_agrees rs T H0) as H. clear H0.
  set (T' := handle_all rs T) in *.
  pose proof (stats_agrees T' H) as (Hcoh2 & _ & _).
  destruct H as (Hcoh & _ & Hval). pose proof Hcoh as [Hidle _].
  change (StatsRoute.handle Average mean T' Stats) with (fst (get_stats T'))
    in Hcoh2.
  assert (Hcalc : calculate (cachedData (cache (process (fst (get_stats T')))))
                  = inr s).
  { unfold StatsRoute.get_stats in *.
    destruct (invalidated T') as [s0 | ] eqn:Hi.
    - simpl in *. injection Hsent as ->. unfold invalidated in Hi.
      destruct (cachedStats T') as [s1 | ] eqn:Hs1; [ | done].
      destruct (decide (cachedStatsMtime T' = currentMtime T')); [ | done].
      injection Hi as ->. by apply Hval.
    - destruct (settled read (process T')) as [[[data | ] | e] | ] eqn:Hr;
        try done.
      destruct (calculate data) as [err | s1] eqn:Hc; [done | ].
      simpl in *. injection Hsent as ->.
      destruct (read_settled _ _ Hidle Hr) as (_ & _ & Hdata).
      by rewrite Hdata. }
  destruct Hcoh2 as [_ Hfile]. destruct (Hfile Hp) as (f & Hf & Hparse & _).
  by exists f, (cachedData (cache (process (fst (get_stats T'))))).
Qed.


(** X17 (the first summary is computed twice).  [currentMtime] is taken
    before [calculateStats] runs.  When the repository has nothing in cache,
    the [readData] of [calculateStats] stores a new [Date] in
    [lastFileMtime], so the summary is stamped with an object that is
    already replaced: the next request calls [readData] and computes the
    summary again, and only the one after is answered from [cachedStats]
    with nothing called. *)
Theorem first_stats_are_computed_twice (T : Server) (data : Value)
    (s : Summary) :
  pending (process T) = [] ->
  present (cache (process T)) = false ->
  cachedStats T = None ->
  settled read (process T) = Some (Return (Some data)) ->
  calculate data = inr s ->
  snd (get_stats T) = Sent 200 s
  /\ snd (get_stats (fst (get_stats T))) = Sent 200 s
  /\ trace (process (fst (get_stats (fst (get_stats T)))))
     = trace (process (fst (get_stats T)))
       ++ [Settled ReadData (Return (Some data))]
  /\ get_stats (fst (get_stats (fst (get_stats T))))
     = (fst (get_stats (fst (get_stats T))), Sent 200 s).
Proof.
  intros Hidle Hp Hnone Hr Hc.
  assert (Hi : invalidated T = None) by (unfold invalidated; by rewrite Hnone).
  rewrite (get_stats_computed T data s Hi Hr Hc). cbn [fst snd].
  set (T1 := mkServer Average _ _ _ _).
  destruct (read_settled _ _ Hidle Hr) as (Hi1 & Hst1 & Hdata).
  assert (HT1 : process T1 = run read (process T)) by reflexivity.
  assert (Hp1 : present (cache (run read (process T))) = true).
  { unfold present. rewrite Hdata. by apply (calculate_truthy _ s). }
  (* the read of the first request missed, and stored an object *)
  assert (Hmiss : assignments read (process T) = 1%nat
                  /\ exists t : Z,
                       lastFileMtime (cache (run read (process T))) = Some t).
  { pose proof (assignments_read_miss _ Hidle Hp) as Ha.
    pose proof (read_miss _ Hidle Hp) as Hm. unfold settled in Hr.
    destruct (readFile (store (process T))) as [raw | e].
    2:{ rewrite (emitted_intro _ _ _ (f_equal trace Hm)) in Hr. done. }
    destruct (parse raw) as [w | ].
    2:{ rewrite (emitted_intro _ _ _ (f_equal trace Hm)) in Hr. done. }
    destruct (stat (store (process T))) as [stats | e].
    2:{ rewrite (emitted_intro _ _ _ (f_equal trace Hm)) in Hr. done. }
    split; [done | ]. rewrite Hm. simpl. eauto. }
  destruct Hmiss as [Ha [t Ht]].
  assert (Hcur1 : currentMtime T1 = Some (S (dates T))).
  { unfold currentMtime, T1, getLastModifiedTime. simpl. rewrite Ht, Ha.
    f_equal. lia. }
  assert (Hi1' : invalidated T1 = None).
  { unfold invalidated. simpl.
    destruct (decide (currentMtime T = currentMtime T1)) as [He | ];
      [ | done].
    rewrite Hcur1 in He. apply currentMtime_bound in He. lia. }
  assert (Hr1 : settled read (process T1) = Some (Return (Some data))).
  { rewrite HT1. apply (settled_intro read _ [] ReadData).
    rewrite (read_hit _ Hi1 Hp1). simpl. by rewrite Hdata. }
  rewrite (get_stats_computed T1 data s Hi1' Hr1 Hc). cbn [fst snd].
  split; [done | ]. split; [done | ]. split.
  - cbn [process]. rewrite HT1, (read_hit _ Hi1 Hp1). simpl.
    by rewrite Hdata.
  - apply get_stats_kept; [done | ]. cbn [cachedStatsMtime].
    unfold currentMtime at 2. cbn [process dates]. rewrite HT1.
    rewrite (assignments_read_hit _ Hi1 Hp1), (read_hit _ Hi1 Hp1).
    cbn [cache]. unfold currentMtime. rewrite HT1.
    by rewrite Nat.add_0_r.
Qed.

(** X18 (the summary outlives the file).  When the file is removed and the
    watcher's [fs.stat] fails, the repository drops its items but
    [lastFileMtime] keeps its object: a summary that was current stays
    current, and [GET /api/stats] goes on answering it, with nothing read,
    while the items routes answer that the file is missing. *)
Theorem stats_outlive_the_file (T : Server) (s : Summary) (st : Store)
    (A : Type) (handler : Value -> failure + A) :
  pending (process T) = [] ->
  cachedStats T = Some s ->
  cachedStatsMtime T = currentMtime T ->
  file st = None ->
  get_stats (handle (replaced st T) (Repo (Watch "change")))
  = (handle (replaced st T) (Repo (Watch "change")), Sent 200 s)
  /\ present (cache (process (handle (replaced st T) (Repo (Watch "change")))))
     = false
  /\ snd (answer handler
            (process (handle (replaced st T) (Repo (Watch "change")))))
     = Next (Repository (IOError ENOENT)).
Proof.
  intros Hidle Hs Hm Hgone.
  set (T0 := replaced st T).
  assert (Hi0 : pending (process T0) = []) by exact Hidle.
  pose proof (notify_change_run _ Hi0) as Hn.
  pose proof (assignments_notify_change _ Hi0) as Ha.
  unfold stat in Hn, Ha. change (store (process T0)) with st in Hn, Ha.
  rewrite Hgone in Hn, Ha.
  set (T1 := handle T0 (Repo (Watch "change"))).
  assert (Hp1 : process T1
                = mkSystem st (mkState JNull (lastFileMtime (cache (process T))))
                    []
                    (trace (process T)
                     ++ [Access Stat; Settled WatchCallback (Return None)]))
    by (unfold T1; cbn [process StatsRoute.handle perform]; rewrite Hn;
        reflexivity).
  assert (Hd1 : dates T1 = dates T)
    by (unfold T1; cbn [dates StatsRoute.handle call_dates]; rewrite Ha;
        apply Nat.add_0_r).
  split; [ | split].
  - apply get_stats_kept; [done | ].
    change (cachedStatsMtime T1) with (cachedStatsMtime T). rewrite Hm.
    unfold currentMtime. by rewrite Hp1, Hd1.
  - by rewrite Hp1.
  - unfold answer. cbn [snd].
    assert (Hidle1 : pending (process T1) = []) by by rewrite Hp1.
    assert (Hmiss : present (cache (process T1)) = false) by by rewrite Hp1.
    rewrite (settled_intro read (process T1) [Access ReadFile] ReadData
               (Throw (IOError ENOENT))); [done | ].
    rewrite (read_miss _ Hidle1 Hmiss). unfold readFile.
    rewrite Hp1. simpl. by rewrite Hgone.
Qed.

End StatsProperties.

(** ** The properties at work *)

(** X15 at a freshly loaded server on the shelf. *)
Lemma stats_agree_with_file_at_stats_day :
  agrees Z whole_mean (boot_server Z shelf_file)
  /\ snd (get_stats Z whole_mean
            (handle_all Z whole_mean stats_day (boot_server Z shelf_file)))
     = Sent 200 (mkSummary Z 2 1262)
  /\ exists (f : File) (data : Value),
       file (store (process
                      (fst (get_stats Z whole_mean
                              (handle_all Z whole_mean stats_day
                                 (boot_server Z shelf_file))))))
       = Some f
       /\ parse (content f) = Some data
       /\ calculateStats_after_readData Z whole_mean data
          = inr (mkSummary Z 2 1262).
Proof.
  assert (H0 : agrees Z whole_mean (boot_server Z shelf_file))
    by apply boot_server_agrees.
  assert (H1 : snd (get_stats Z whole_mean
                      (handle_all Z whole_mean stats_day
                         (boot_server Z shelf_file)))
               = Sent 200 (mkSummary Z 2 1262))
    by (vm_compute; reflexivity).
  split; [exact H0 | ]. split; [exact H1 | ].
  exact (stats_agree_with_file Z whole_mean stats_day
           (boot_server Z shelf_file) (mkSummary Z 2 1262) H0 H1 eq_refl).
Defined.


(** X17 at a freshly loaded server on the shelf. *)
Lemma first_stats_are_computed_twice_at_shelf :
  present (cache (process (boot_server Z shelf_file))) = false
  /\ settled read (process (boot_server Z shelf_file))
     = Some (Return (Some Scenarios.items))
  /\ calculateStats_after_readData Z whole_mean Scenarios.items
     = inr (mkSummary Z 1 2499)
  /\ snd (get_stats Z whole_mean (boot_server Z shelf_file))
     = Sent 200 (mkSummary Z 1 2499)
  /\ snd (get_stats Z whole_mean
            (fst (get_stats Z whole_mean (boot_server Z shelf_file))))
     = Sent 200 (mkSummary Z 1 2499)
  /\ trace (process
              (fst (get_stats Z whole_mean
                      (fst (get_stats Z whole_mean
                              (boot_server Z shelf_file))))))
     = trace (process (fst (get_stats Z whole_mean (boot_server Z shelf_file))))
       ++ [Settled ReadData (Return (Some Scenarios.items))]
  /\ get_stats Z whole_mean
       (fst (get_stats Z whole_mean
               (fst (get_stats Z whole_mean (boot_server Z shelf_file)))))
     = (fst (get_stats Z whole_mean
               (fst (get_stats Z whole_mean (boot_server Z shelf_file)))),
        Sent 200 (mkSummary Z 1 2499)).
Proof.
  assert (Hr : settled read (process (boot_server Z shelf_file))
               = Some (Return (Some Scenarios.items)))
    by (vm_compute; reflexivity).
  split; [reflexivity | ]. split; [exact Hr | ]. split; [reflexivity | ].
  exact (first_stats_are_computed_twice Z whole_mean
           (boot_server Z shelf_file) Scenarios.items (mkSummary Z 1 2499)
           eq_refl eq_refl eq_refl Hr eq_refl).
Defined.

(** X18 at a server that has answered the stats twice, the file then
    removed. *)
Lemma stats_outlive_the_file_at_shelf :
  cachedStats (handle_all Z whole_mean [Stats; Stats] (boot_server Z shelf_file))
  = Some (mkSummary Z 1 2499)
  /\ cachedStatsMtime
       (handle_all Z whole_mean [Stats; Stats] (boot_server Z shelf_file))
     = currentMtime
         (handle_all Z whole_mean [Stats; Stats] (boot_server Z shelf_file))
  /\ file Scenarios.removed = None
  /\ snd (get_stats Z whole_mean
            (handle Z whole_mean
               (replaced Scenarios.removed
                  (handle_all Z whole_mean [Stats; Stats]
                     (boot_server Z shelf_file)))
               (Repo (Watch "change"))))
     = Sent 200 (mkSummary Z 1 2499)
  /\ snd (answer (get_item (Some 1))
            (process
               (handle Z whole_mean
                  (replaced Scenarios.removed
                     (handle_all Z whole_mean [Stats; Stats]
                        (boot_server Z shelf_file)))
                  (Repo (Watch "change")))))
     = Next (Repository (IOError ENOENT)).
Proof.
  split; [vm_compute; reflexivity | ]. split; [vm_compute; reflexivity | ].
  split; [reflexivity | ].
  pose proof (stats_outlive_the_file Z whole_mean
                (handle_all Z whole_mean [Stats; Stats]
                   (boot_server Z shelf_file))
                (mkSummary Z 1 2499) Scenarios.removed Value
                (get_item (Some 1)) eq_refl eq_refl eq_refl eq_refl)
    as (H1 & _ & H3).
  split; [by rewrite H1 | exact H3].
Defined.

End StatsRouteProperties.
